(** * paragliding-viz: flight metrics, task path optimizer, task files

    A shallow embedding of the numerical and data-handling code of the
    viewer:

    - [Metrics]: the per-track body of [statsListener]
      (src/components/Viewer.tsx), i.e. the two binary searches over the
      fixes and the speed / vario / AGL sample derived from them;
    - [Optimization]: [calculateOptimizedPath] and [calculateTaskDistance]
      (utils/optimization) in the two versions the repository carries,
      i.e. the start/end selection, the equirectangular projection and the
      "taut string" relaxation loop, and [getTaskCylinders];
    - [Tracks]: the throttle of [statsListener], the entities and the clock
      range built from the tracks and [getInitials] (Viewer.tsx),
      [calculateStats] (utils/stats) and [getTrackColor] (utils/colors);
    - [TaskFile]: [parseXCTask] (utils/xctsk) over JavaScript values;
    - [Arrows]: the sampling of arrows along the optimized path
      (TaskRenderer, ArrowPrimitives).

    The definitions come first; their properties follow in [MetricsProofs],
    [OptimizationProofs], [TracksProofs], [TaskFileProofs] and
    [ArrowsProofs].

    Timestamps are integer milliseconds ([Z]); the other quantities of the
    metrics engine are rationals ([Q]) so that every definition evaluates.
    The optimizer's arithmetic is written once over an interface [Num] and
    read at the real numbers (the idealised arithmetic the geometry is
    about) and at binary64 floats (what JavaScript runs). *)

From Equations Require Import Equations.
From Stdlib Require Import List ZArith NArith QArith Qabs Qround Lia Bool.
From Stdlib Require String DecimalString.
From Stdlib Require Import Reals Lra Psatz Floats.
Import ListNotations.

(* ===================================================================== *)
(** * Flight metrics engine (Viewer.tsx, statsListener)                   *)
(* ===================================================================== *)

Module Metrics.

Local Open Scope Z_scope.

(** A fix as igc-parser delivers it; only the fields that statsListener
    reads.  An altitude that the parser left null is [None]. *)
Record Fix := mkFix {
  timestamp : Z;
  latitude : Q;
  longitude : Q;
  gpsAltitude : option Q;
  pressureAltitude : option Q
}.

Record IGCFile := mkIGCFile {
  filename : String.string;
  date : option Z;
  fixes : list Fix
}.

(** types/igc.ts, PilotStats: three plain numbers. *)
Record PilotStats := mkPilotStats {
  speed : Q;
  agl : Q;
  vario : Q
}.

(** What statsListener takes from Cesium: the ECEF conversion, the chord
    distance and the terrain query, whose answer is undefined ([None])
    where the globe has no height loaded. *)
Class Cesium := {
  Cartesian3 : Type;
  fromDegrees : Q -> Q -> Q -> Cartesian3;
  distance : Cartesian3 -> Cartesian3 -> Q;
  getHeight : Q -> Q -> option Q
}.

(** JavaScript's [a || b] on an optional number: the left operand when it
    is truthy (present and non-zero), the right one otherwise. *)
Definition truthy (a : option Q) : bool :=
  match a with
  | Some q => negb (Qeq_bool q 0)
  | None => false
  end.

Definition orElse (a b : option Q) : option Q :=
  if truthy a then a else b.

(** [a || 0]. *)
Definition orZero (a : option Q) : Q :=
  match a with
  | Some q => if Qeq_bool q 0 then 0%Q else q
  | None => 0%Q
  end.

(** [track.fixes[i]] for an index held in a JavaScript number; [None] is
    [undefined].  The searches below only read inside the track. *)
Definition fixAt (fixes : list Fix) (i : Z) : option Fix :=
  if i <? 0 then None else nth_error fixes (Z.to_nat i).

Definition tsAt (fixes : list Fix) (i : Z) : Z :=
  match fixAt fixes i with
  | Some f => timestamp f
  | None => 0
  end.

(** The loop
<<
    while (min <= max) {
      const mid = Math.floor((min + max) / 2);
      if (track.fixes[mid].timestamp < target) min = mid + 1;
      else max = mid - 1;
    }
>>
    returning the final [max]; [lo] and [hi] stand for [min] and [max].
    The interval shrinks at every turn, which is the termination measure. *)
Equations? bsearch (fixes : list Fix) (target : Z) (lo hi : Z) : Z
  by wf (Z.to_nat (hi - lo + 1)) lt :=
bsearch fixes target lo hi with Z_le_gt_dec lo hi => {
  | left _ with Z_lt_ge_dec (tsAt fixes ((lo + hi) / 2)) target => {
      | left _ => bsearch fixes target ((lo + hi) / 2 + 1) hi;
      | right _ => bsearch fixes target lo ((lo + hi) / 2 - 1) };
  | right _ => hi }.
Proof.
  all: assert (lo <= (lo + hi) / 2 <= hi) by
    (split; [apply Z.div_le_lower_bound | apply Z.div_le_upper_bound]; lia);
    lia.
Qed.

(** [currentIndex]: the first search, over the whole track. *)
Definition currentIndexOf (fixes : list Fix) (trackTime : Z) : Z :=
  bsearch fixes trackTime 0 (Z.of_nat (length fixes) - 1).

(** [pastIndex]: the second search, for the fix 15 s earlier, bounded above
    by [currentIndex]. *)
Definition pastIndexOf (fixes : list Fix) (trackTime : Z) : Z :=
  bsearch fixes (trackTime - 15000) 0 (currentIndexOf fixes trackTime).

Definition Qltb (a b : Q) : bool := negb (Qle_bool b a).

Section Engine.

Context {cesium : Cesium}.

(** The sample computed once both fixes are chosen and [dt > 0]. *)
Definition sampleOf (currentFix pastFix : Fix) (dt : Q) : PilotStats :=
  let p1 := fromDegrees (longitude pastFix) (latitude pastFix)
                        (orZero (gpsAltitude pastFix)) in
  let p2 := fromDegrees (longitude currentFix) (latitude currentFix)
                        (orZero (gpsAltitude currentFix)) in
  let dist := distance p1 p2 in
  let altDiff :=
    (orZero (gpsAltitude currentFix) - orZero (gpsAltitude pastFix))%Q in
  let speed := ((dist / dt) * (36 # 10))%Q in
  let vario := (altDiff / dt)%Q in
  let agl :=
    match getHeight (longitude currentFix) (latitude currentFix) with
    | Some globeHeight =>
        (orZero (orElse (gpsAltitude currentFix) (pressureAltitude currentFix))
         - globeHeight)%Q
    | None => 0%Q
    end in
  mkPilotStats speed agl vario.

(** The body of [trackEntities.forEach] for one track at track time
    [trackTime]: [Some] is the entry written to [newStats], [None] means
    that no entry is written for this track. *)
Definition trackStats (fixes : list Fix) (trackTime : Z) : option PilotStats :=
  let currentIndex := currentIndexOf fixes trackTime in
  if (0 <=? currentIndex) && (currentIndex <? Z.of_nat (length fixes)) then
    match fixAt fixes currentIndex with
    | Some currentFix =>
        let pastIndex := pastIndexOf fixes trackTime in
        if (0 <=? pastIndex) && (pastIndex <? currentIndex) then
          match fixAt fixes pastIndex with
          | Some pastFix =>
              let dt :=
                (inject_Z (timestamp currentFix - timestamp pastFix) / 1000)%Q in
              if Qltb 0 dt then Some (sampleOf currentFix pastFix dt) else None
          | None => None
          end
        else None
    | None => None
    end
  else None.

(** The offset between clock time and track time: tracks whose first
    timestamp is an epoch time need none, the others are relative to the
    flight date. *)
Definition timeOffset (track : IGCFile) (trackDateMs : Z) : Z :=
  let flightDateMs :=
    match date track with Some d => d | None => trackDateMs end in
  let firstTimestamp :=
    match fixes track with f :: _ => timestamp f | [] => 0 end in
  if 1000000000000 <? firstTimestamp then 0 else flightDateMs.

(** One tick of statsListener (the 2 Hz throttle left aside): the entries
    of [newStats], keyed by file name. *)
Definition statsListener (tracks : list IGCFile) (currentTimestamp trackDateMs : Z)
  : list (String.string * PilotStats) :=
  fold_left
    (fun newStats track =>
       match trackStats (fixes track)
                        (currentTimestamp - timeOffset track trackDateMs) with
       | Some s =>
           (filename track, s)
           :: filter (fun e => negb (String.eqb (fst e) (filename track))) newStats
       | None => newStats
       end)
    tracks [].

End Engine.

(** The effective altitude as the specification words it: the GPS altitude
    if present, else the barometric one, else 0.  Used to state what the
    engine is expected to report. *)
Definition effectiveAltitude (f : Fix) : Q :=
  match gpsAltitude f with
  | Some g => g
  | None => match pressureAltitude f with Some b => b | None => 0%Q end
  end.

(** A track is time-ascending. *)
Definition ascending (fixes : list Fix) : Prop :=
  forall i j, 0 <= i -> i <= j -> j < Z.of_nat (length fixes) ->
    tsAt fixes i <= tsAt fixes j.

(** A globe on which no terrain is loaded, with a simple computable metric
    standing for the chord distance. *)
Definition bareGlobe : Cesium := {|
  Cartesian3 := Q * Q * Q;
  fromDegrees := fun lon lat h => (lon, lat, h);
  distance := fun p q =>
    (Qabs (fst (fst p) - fst (fst q)) + Qabs (snd (fst p) - snd (fst q))
     + Qabs (snd p - snd q))%Q;
  getHeight := fun _ _ => None
|}.

(** A globe whose terrain is a plain at 300 m. *)
Definition plainGlobe : Cesium := {|
  Cartesian3 := Q * Q * Q;
  fromDegrees := fun lon lat h => (lon, lat, h);
  distance := fun p q =>
    (Qabs (fst (fst p) - fst (fst q)) + Qabs (snd (fst p) - snd (fst q))
     + Qabs (snd p - snd q))%Q;
  getHeight := fun _ _ => Some (300 # 1)
|}.

(** ** Concrete tracks *)

(** Three fixes, one second apart. *)
Definition fixOf (t : Z) (gps baro : option Q) : Fix :=
  mkFix t (46 # 1) (8 # 1) gps baro.

Definition track3 : list Fix :=
  [fixOf 1000 (Some (1500 # 1)) None;
   fixOf 2000 (Some (1501 # 1)) None;
   fixOf 3000 (Some (1502 # 1)) None].

(** A 20 s climb of 100 m recorded by the barometer only. *)
Definition baroTrack : list Fix :=
  [fixOf 0 None (Some (1000 # 1)); fixOf 20000 None (Some (1100 # 1))].

(** The same climb with GPS altitudes. *)
Definition gpsTrack : list Fix :=
  [fixOf 0 (Some (1000 # 1)) None; fixOf 20000 (Some (1100 # 1)) None].

End Metrics.

(* ===================================================================== *)
(** * Task path optimizer (utils/optimization)                            *)
(* ===================================================================== *)

Module Optimization.

(** ** Numbers

    The arithmetic the optimizer uses, as an interface: JavaScript's
    [+ - * /], [Math.sqrt], [<], [<=], [Math.max], [Math.min], the
    literals [0], [1] and [1e-6], and the truthiness of a number (for
    [alt || 0]).  [x ** 2] is read as [x * x]. *)
Class Num (F : Type) := {
  zero : F;
  one : F;
  eps : F;
  add : F -> F -> F;
  sub : F -> F -> F;
  mul : F -> F -> F;
  div : F -> F -> F;
  sqrt : F -> F;
  ltb : F -> F -> bool;
  leb : F -> F -> bool;
  max : F -> F -> F;
  min : F -> F -> F;
  truthy : F -> bool
}.

Declare Scope num_scope.
Delimit Scope num_scope with num.
Infix "+" := add : num_scope.
Infix "-" := sub : num_scope.
Infix "*" := mul : num_scope.
Infix "/" := div : num_scope.
Infix "<?" := ltb : num_scope.
Infix "<=?" := leb : num_scope.

(** ** Data *)

Inductive TurnpointType := TAKEOFF | SSS | TURNPOINT | ESS | GOAL.

(** types/task.ts, XCTaskPoint and XCTask (the fields the optimizer
    reads). *)
Record XCTaskPoint (F : Type) := mkXCTaskPoint {
  lat : F;
  lon : F;
  alt : option F;
  radius : F;
  type : TurnpointType
}.
Arguments mkXCTaskPoint {F}.
Arguments lat {F}.
Arguments lon {F}.
Arguments alt {F}.
Arguments radius {F}.
Arguments type {F}.

Record XCTask (F : Type) := mkXCTask {
  turnpoints : list (XCTaskPoint F)
}.
Arguments mkXCTask {F}.
Arguments turnpoints {F}.

(** An element of [opt]: [{ x, y }] in local metres, as [px] and [py]. *)
Record Point (F : Type) := mkPoint {
  px : F;
  py : F
}.
Arguments mkPoint {F}.
Arguments px {F}.
Arguments py {F}.

(** An element of [localPoints]: [{ x, y, radius, alt }], as [lx], [ly],
    [lradius] and [lalt]. *)
Record LocalPoint (F : Type) := mkLocalPoint {
  lx : F;
  ly : F;
  lradius : F;
  lalt : F
}.
Arguments mkLocalPoint {F}.
Arguments lx {F}.
Arguments ly {F}.
Arguments lradius {F}.
Arguments lalt {F}.

(** An element of [points], and of the result of [fromLocal]. *)
Record LatLon (F : Type) := mkLatLon {
  glat : F;
  glon : F
}.
Arguments mkLatLon {F}.
Arguments glat {F}.
Arguments glon {F}.

(** An element of the returned path: the three arguments handed to
    [Cartesian3.fromDegrees] (longitude, latitude, height); the conversion
    to earth-centred coordinates is Cesium's. *)
Record Geo (F : Type) := mkGeo {
  longitude : F;
  latitude : F;
  height : F
}.
Arguments mkGeo {F}.
Arguments longitude {F}.
Arguments latitude {F}.
Arguments height {F}.

(** [Array.prototype.findIndex]; [None] is JavaScript's -1. *)
Fixpoint findIndex {A : Type} (p : A -> bool) (l : list A) : option nat :=
  match l with
  | [] => None
  | a :: rest => if p a then Some 0%nat else option_map S (findIndex p rest)
  end.

(** [l.slice(a, b)] for [a <= b]. *)
Definition slice {A : Type} (l : list A) (a b : nat) : list A :=
  firstn (b - a) (skipn a l).

(** [opt[i].x = p.x; opt[i].y = p.y], for an index [i] of the buffer (the
    loop writes at no other). *)
Fixpoint setAt {A : Type} (i : nat) (p : A) (l : list A) : list A :=
  match l, i with
  | [], _ => []
  | _ :: rest, O => p :: rest
  | a :: rest, S j => a :: setAt j p rest
  end.

Definition isType (t : TurnpointType) {F : Type} (tp : XCTaskPoint F) : bool :=
  match t, type tp with
  | TAKEOFF, TAKEOFF | SSS, SSS | TURNPOINT, TURNPOINT
  | ESS, ESS | GOAL, GOAL => true
  | _, _ => false
  end.

(** Step 1 of [calculateOptimizedPath]: the start and end indices, or
    [None] where the function returns the empty path. *)
Definition selectRange {F : Type} (tps : list (XCTaskPoint F))
  : option (nat * nat) :=
  if (List.length tps <? 2)%nat then None
  else
    let startIndex :=
      match findIndex (isType SSS) tps with Some i => i | None => 0%nat end in
    let endIndex :=
      match findIndex (isType ESS) tps with
      | Some i => i
      | None =>
          match findIndex (isType GOAL) tps with
          | Some i => i
          | None => (List.length tps - 1)%nat
          end
      end in
    if (endIndex <=? startIndex)%nat then None
    else Some (startIndex, endIndex).

Section Optimizer.

Context {F : Type} {num : Num F}.
Local Open Scope num_scope.

(** [a || 0] on a number that may be missing. *)
Definition orZero (a : option F) : F :=
  match a with
  | Some v => if truthy v then v else zero
  | None => zero
  end.

Definition originPoint : Point F := mkPoint zero zero.
Definition originLocal : LocalPoint F := mkLocalPoint zero zero zero zero.

(** ** The projection, for given metres per degree [kx], [ky] *)

Definition toLocal (kx ky : F) (origin : LatLon F) (lon lat : F) : Point F :=
  let dy := (lat - glat origin) * ky in
  let dx := (lon - glon origin) * kx in
  mkPoint dx dy.

Definition fromLocal (kx ky : F) (origin : LatLon F) (x y : F) : LatLon F :=
  let dLat := y / ky in
  let dLon := x / kx in
  mkLatLon (glat origin + dLat) (glon origin + dLon).

(** ** One update of the relaxation *)

(** The first and the last point: on the boundary of the own disk towards
    the neighbour [other], unless the neighbour is within 1e-6 of the
    centre, in which case the point [cur] stays. *)
Definition endpointTarget (center : LocalPoint F) (other cur : Point F)
  : Point F :=
  let r := lradius center in
  let dx := px other - lx center in
  let dy := py other - ly center in
  let len := sqrt (dx * dx + dy * dy) in
  if eps <? len
  then mkPoint (lx center + (dx / len) * r) (ly center + (dy / len) * r)
  else cur.

Definition lab2Of (A B : Point F) : F :=
  (px B - px A) * (px B - px A) + (py B - py A) * (py B - py A).

(** [closestOnSeg]: the centre [C] projected on the segment [A]-[B], the
    parameter clamped to [0, 1]. *)
Definition closestOnSeg (A B C : Point F) : Point F :=
  let lab2 := lab2Of A B in
  let t :=
    ((px C - px A) * (px B - px A) + (py C - py A) * (py B - py A)) / lab2 in
  let tClamped := max zero (min one t) in
  mkPoint (px A + tClamped * (px B - px A)) (py A + tClamped * (py B - py A)).

(** An intermediate point, from its neighbours [A] (previous) and [B]
    (next). *)
Definition interiorTarget (center : LocalPoint F) (A B : Point F) : Point F :=
  let r := lradius center in
  let C := mkPoint (lx center) (ly center) in
  let lab2 := lab2Of A B in
  if lab2 <? eps then mkPoint (px A) (py A)
  else
    let Q := closestOnSeg A B C in
    let distToSegSq :=
      (px Q - px C) * (px Q - px C) + (py Q - py C) * (py Q - py C) in
    if distToSegSq <=? r * r then mkPoint (px Q) (py Q)
    else
      let dx := px Q - px C in
      let dy := py Q - py C in
      let len := sqrt (dx * dx + dy * dy) in
      if zero <? len
      then mkPoint (px C + (dx / len) * r) (py C + (dy / len) * r)
      else mkPoint (px C) (py C).

(** The body of the inner loop for index [i], on the working buffer
    [opt]. *)
Definition updatePoint (localPoints : list (LocalPoint F))
  (opt : list (Point F)) (i : nat) : list (Point F) :=
  let center := nth i localPoints originLocal in
  if (i =? 0)%nat then
    let next := nth (i + 1) opt originPoint in
    setAt i (endpointTarget center next (nth i opt originPoint)) opt
  else if (i =? List.length opt - 1)%nat then
    let prev := nth (i - 1) opt originPoint in
    setAt i (endpointTarget center prev (nth i opt originPoint)) opt
  else
    let prev := nth (i - 1) opt originPoint in
    let next := nth (i + 1) opt originPoint in
    setAt i (interiorTarget center prev next) opt.

(** One pass [for (let i = 0; i < opt.length; i++)]: the points are
    updated in place, in index order. *)
Definition pass (localPoints : list (LocalPoint F)) (opt : list (Point F))
  : list (Point F) :=
  fold_left (updatePoint localPoints) (seq 0 (List.length opt)) opt.

Definition ITERATIONS : nat := 50.

Definition centers (localPoints : list (LocalPoint F)) : list (Point F) :=
  map (fun p => mkPoint (lx p) (ly p)) localPoints.

(** The buffer after [k] passes, starting from the centres. *)
Definition relaxed (k : nat) (localPoints : list (LocalPoint F))
  : list (Point F) :=
  Nat.iter k (pass localPoints) (centers localPoints).

(** Step 2: the whole optimization loop. *)
Definition optimize (localPoints : list (LocalPoint F)) : list (Point F) :=
  relaxed ITERATIONS localPoints.

(** ** The whole function

    [scale] gives the metres per degree of longitude and of latitude at
    the latitude of the first relevant turnpoint. *)
Definition relevantTPs (task : XCTask F) : option (list (XCTaskPoint F)) :=
  match selectRange (turnpoints task) with
  | None => None
  | Some (startIndex, endIndex) =>
      Some (slice (turnpoints task) startIndex (endIndex + 1))
  end.

Definition localPointsOf (scale : F -> F * F) (tps : list (XCTaskPoint F))
  : list (LocalPoint F) :=
  let centerLat :=
    match tps with tp :: _ => lat tp | [] => zero end in
  let origin :=
    match tps with
    | tp :: _ => mkLatLon (lat tp) (lon tp)
    | [] => mkLatLon zero zero
    end in
  let kx := fst (scale centerLat) in
  let ky := snd (scale centerLat) in
  map (fun tp =>
         let loc := toLocal kx ky origin (lon tp) (lat tp) in
         mkLocalPoint (px loc) (py loc) (radius tp) (orZero (alt tp)))
      tps.

Definition calculateOptimizedPathWith (scale : F -> F * F) (task : XCTask F)
  : list (Geo F) :=
  match relevantTPs task with
  | None => []
  | Some tps =>
      let centerLat :=
        match tps with tp :: _ => lat tp | [] => zero end in
      let origin :=
        match tps with
        | tp :: _ => mkLatLon (lat tp) (lon tp)
        | [] => mkLatLon zero zero
        end in
      let kx := fst (scale centerLat) in
      let ky := snd (scale centerLat) in
      let localPoints := localPointsOf scale tps in
      let opt := optimize localPoints in
      map (fun pl =>
             let geo := fromLocal kx ky origin (px (fst pl)) (py (fst pl)) in
             mkGeo (glon geo) (glat geo)
                   (orZero (Some (lalt (snd pl)))))
          (combine opt localPoints)
  end.

(** [calculateTaskDistance], for a given distance between two points of
    the path ([Cartesian3.distance] in the source). *)
Fixpoint taskDistanceFrom {P : Type} (distance : P -> P -> F) (acc : F)
  (points : list P) : F :=
  match points with
  | a :: rest =>
      match rest with
      | b :: _ => taskDistanceFrom distance (acc + distance a b) rest
      | [] => acc
      end
  | [] => acc
  end.

Definition calculateTaskDistance {P : Type} (distance : P -> P -> F)
  (points : list P) : F :=
  taskDistanceFrom distance zero points.

(** The distance of two points of the local plane. *)
Definition planarDistance (p q : Point F) : F :=
  sqrt ((px p - px q) * (px p - px q) + (py p - py q) * (py p - py q)).

End Optimizer.

(* --------------------------------------------------------------------- *)
(** ** The two readings of the numbers                                    *)
(* --------------------------------------------------------------------- *)

(** Real numbers: exact arithmetic. *)
Definition Rltb (a b : R) : bool := if Rlt_dec a b then true else false.
Definition Rleb (a b : R) : bool := if Rle_dec a b then true else false.

#[export] Instance RNum : Num R := {|
  zero := 0%R;
  one := 1%R;
  eps := (1 / 1000000)%R;
  add := Rplus;
  sub := Rminus;
  mul := Rmult;
  div := Rdiv;
  sqrt := R_sqrt.sqrt;
  ltb := Rltb;
  leb := Rleb;
  max := Rmax;
  min := Rmin;
  truthy := fun a => if Req_dec_T a 0%R then false else true
|}.

#[local] Set Warnings "-inexact-float".

(** Binary64 floats: [Math.max] and [Math.min] answer NaN as soon as one
    argument is NaN and order the two zeros; a number is truthy unless it
    is a zero or NaN. *)
Definition Math_max (a b : float) : float :=
  if PrimFloat.is_nan a || PrimFloat.is_nan b then PrimFloat.nan
  else if PrimFloat.ltb a b then b
  else if PrimFloat.ltb b a then a
  else if PrimFloat.eqb a 0%float then PrimFloat.add a b
  else a.

Definition Math_min (a b : float) : float :=
  if PrimFloat.is_nan a || PrimFloat.is_nan b then PrimFloat.nan
  else if PrimFloat.ltb a b then a
  else if PrimFloat.ltb b a then b
  else if PrimFloat.eqb a 0%float
       then PrimFloat.opp (PrimFloat.add (PrimFloat.opp a) (PrimFloat.opp b))
  else a.

#[export] Instance FloatNum : Num float := {|
  zero := 0%float;
  one := 1%float;
  eps := 1e-6%float;
  add := PrimFloat.add;
  sub := PrimFloat.sub;
  mul := PrimFloat.mul;
  div := PrimFloat.div;
  sqrt := PrimFloat.sqrt;
  ltb := PrimFloat.ltb;
  leb := PrimFloat.leb;
  max := Math_max;
  min := Math_min;
  truthy := fun a => negb (PrimFloat.eqb a 0%float || PrimFloat.is_nan a)
|}.

(** The metres per degree of [calculateOptimizedPath], from the latitude
    of the first relevant turnpoint: [(kx, ky)]. *)
Definition scaleFactors (centerLat : R) : R * R :=
  ((111132954 / 1000) * cos (centerLat * PI / 180),
   (111132954 / 1000) - (559822 / 1000) * cos (2 * centerLat * PI / 180))%R.

(** [calculateOptimizedPath] (the first one of the file, anchored at the
    start of the speed section), over the reals. *)
Definition calculateOptimizedPath (task : XCTask R) : list (Geo R) :=
  calculateOptimizedPathWith scaleFactors task.

(** The same factors in floats for a first turnpoint on the equator, where
    [Math.cos(0)] is exactly 1. *)
Definition equatorScale (centerLat : float) : float * float :=
  (111132.954 * 1, 111132.954 - 559.822 * 1)%float.

(** The projection of the second [calculateOptimizedPath] of the file:
    [toLocal] takes its factors at the latitude of the point it projects,
    [fromLocal] at the latitude of the first turnpoint. *)
Definition toLocal2 (origin : LatLon R) (lon lat : R) : Point R :=
  let ky := ((111132954 / 1000)
             - (559822 / 1000) * cos (2 * lat * PI / 180))%R in
  let kx := ((111132954 / 1000) * cos (lat * PI / 180))%R in
  let dy := ((lat - glat origin) * ky)%R in
  let dx := ((lon - glon origin) * kx)%R in
  mkPoint dx dy.

Definition fromLocal2 (origin : LatLon R) (x y : R) : LatLon R :=
  let centerLat := glat origin in
  let ky := ((111132954 / 1000)
             - (559822 / 1000) * cos (2 * centerLat * PI / 180))%R in
  let kx := ((111132954 / 1000) * cos (centerLat * PI / 180))%R in
  let dLat := (y / ky)%R in
  let dLon := (x / kx)%R in
  mkLatLon (glat origin + dLat)%R (glon origin + dLon)%R.

(** ** Vocabulary of the statements, over the reals *)

Section RealVocabulary.

Local Open Scope R_scope.


Definition distSq (p q : Point R) : R :=
  (px p - px q) * (px p - px q) + (py p - py q) * (py p - py q).

Definition centerOf (c : LocalPoint R) : Point R := mkPoint (lx c) (ly c).

(** A point lies inside or on the disk of a constraint. *)
Definition inDisk (p : Point R) (c : LocalPoint R) : Prop :=
  planarDistance p (centerOf c) <= lradius c.

(** The planar length of a path: [calculateTaskDistance] with the distance
    of the local plane. *)
Definition pathLength (points : list (Point R)) : R :=
  calculateTaskDistance planarDistance points.

(** An out-and-return task along the axis, in the local plane: start and
    end share the disk of radius [r] at the origin, the turnpoint of radius
    [r1] lies at [x1]. *)
Definition outAndReturn (r r1 x1 : R) : list (LocalPoint R) :=
  [mkLocalPoint 0 0 r 0; mkLocalPoint x1 0 r1 0; mkLocalPoint 0 0 r 0].

(** Three disks of radius 1 in line, 5 m apart. *)
Definition threeInLine : list (LocalPoint R) :=
  [mkLocalPoint 0 0 1 0; mkLocalPoint 5 0 1 0; mkLocalPoint 10 0 1 0].

(** ** Concrete tasks *)

Definition turnpoint (la lo r : R) (ty : TurnpointType) : XCTaskPoint R :=
  mkXCTaskPoint la lo None r ty.

(** Out and return on the equator: start and goal are the same 400 m
    cylinder, the turnpoint is 0.09 degrees (10 km) to the east. *)
Definition outAndReturnTask : XCTask R :=
  mkXCTask [turnpoint 0 0 400 SSS;
            turnpoint 0 (9 / 100) 400 TURNPOINT;
            turnpoint 0 0 400 GOAL].



(** A task that opens with the takeoff: the optimized range starts at the
    start of the speed section. *)
Definition takeoffTask : XCTask R :=
  mkXCTask [turnpoint 0 0 400 TAKEOFF;
            turnpoint 0 (1 / 100) 1000 SSS;
            turnpoint 0 (9 / 100) 400 ESS].

End RealVocabulary.

Section FloatInputs.

#[local] Set Warnings "-inexact-float".

Definition floatTurnpoint (la lo r : float) (ty : TurnpointType)
  : XCTaskPoint float :=
  mkXCTaskPoint la lo None r ty.

Definition floatLocal (x y r : float) : LocalPoint float :=
  mkLocalPoint x y r 0%float.

Definition floatLength (points : list (Point float)) : float :=
  calculateTaskDistance planarDistance points.

(** A task file may carry [1e999] for a radius, which [JSON.parse] reads
    as Infinity. *)
Definition infiniteRadiusTask : XCTask float :=
  mkXCTask [floatTurnpoint 0 0 infinity SSS;
            floatTurnpoint 0 0.09 400 GOAL].

(** TaskRenderer.tsx, the memoized [optimizedPath]: the caller that draws
    the path keeps it only when it has two points or more and none of its
    Cartesian coordinates is NaN; [None] is its [null].  The conversion
    [fromDegrees] of the three arguments to earth-centred coordinates is
    Cesium's. *)
Definition isNaNPoint (p : float * float * float) : bool :=
  PrimFloat.is_nan (fst (fst p)) || PrimFloat.is_nan (snd (fst p))
  || PrimFloat.is_nan (snd p).

Definition renderedPath (fromDegrees : float -> float -> float -> float * float * float)
  (scale : float -> float * float) (task : XCTask float)
  : option (list (float * float * float)) :=
  let path :=
    map (fun g => fromDegrees (longitude g) (latitude g) (height g))
        (calculateOptimizedPathWith scale task) in
  if (List.length path <? 2)%nat then None
  else if existsb isNaNPoint path then None
  else Some path.

(** A stand-in for the conversion that keeps the three arguments. *)
Definition keepDegrees (lon lat h : float) : float * float * float :=
  (lon, lat, h).

(** A task of two turnpoints 0.09 degrees apart on the equator. *)
Definition plainFloatTask : XCTask float :=
  mkXCTask [floatTurnpoint 0 0 400 SSS;
            floatTurnpoint 0 0.09 400 GOAL].

(** Three pairwise disjoint disks. *)
Definition threeDisks : list (LocalPoint float) :=
  [floatLocal 0 0 1; floatLocal (-10) (-2) 3; floatLocal (-8) 6 3].

End FloatInputs.

(* --------------------------------------------------------------------- *)
(** ** The second [calculateOptimizedPath] of the file                    *)
(* --------------------------------------------------------------------- *)

(** The file carries a second version of the optimizer (lines 207-383): it
    optimizes every turnpoint of the task, runs 20 passes, leaves an
    intermediate point where it is when its neighbours overlap
    ([continue]), and moves an endpoint whenever its neighbour is not
    exactly at the centre. *)

Section Optimizer2.

Context {F : Type} {num : Num F}.
Local Open Scope num_scope.

(** The first and the last point: [if (len > 0)], else the point stays. *)
Definition endpointTarget2 (center : LocalPoint F) (other cur : Point F)
  : Point F :=
  let r := lradius center in
  let dx := px other - lx center in
  let dy := py other - ly center in
  let len := sqrt (dx * dx + dy * dy) in
  if zero <? len
  then mkPoint (lx center + (dx / len) * r) (ly center + (dy / len) * r)
  else cur.

(** An intermediate point whose neighbours [A] and [B] do not overlap. *)
Definition interiorTarget2 (center : LocalPoint F) (A B : Point F) : Point F :=
  let r := lradius center in
  let C := mkPoint (lx center) (ly center) in
  let Q := closestOnSeg A B C in
  let distToSegSq :=
    (px Q - px C) * (px Q - px C) + (py Q - py C) * (py Q - py C) in
  if distToSegSq <=? r * r then mkPoint (px Q) (py Q)
  else
    let dx := px Q - px C in
    let dy := py Q - py C in
    let len := sqrt (dx * dx + dy * dy) in
    mkPoint (px C + (dx / len) * r) (py C + (dy / len) * r).

(** The body of the inner loop for index [i]: [prev] exists for [i > 0],
    [next] for [i < opt.length - 1]; [continue] leaves the buffer as it
    is. *)
Definition updatePoint2 (localPoints : list (LocalPoint F))
  (opt : list (Point F)) (i : nat) : list (Point F) :=
  let hasPrev := (0 <? i)%nat in
  let hasNext := (i <? List.length opt - 1)%nat in
  let center := nth i localPoints originLocal in
  let cur := nth i opt originPoint in
  if hasPrev && hasNext then
    let A := nth (i - 1) opt originPoint in
    let B := nth (i + 1) opt originPoint in
    if lab2Of A B <? eps then opt
    else setAt i (interiorTarget2 center A B) opt
  else if hasPrev then
    setAt i (endpointTarget2 center (nth (i - 1) opt originPoint) cur) opt
  else if hasNext then
    setAt i (endpointTarget2 center (nth (i + 1) opt originPoint) cur) opt
  else setAt i cur opt.

Definition pass2 (localPoints : list (LocalPoint F)) (opt : list (Point F))
  : list (Point F) :=
  fold_left (updatePoint2 localPoints) (seq 0 (List.length opt)) opt.

Definition ITERATIONS2 : nat := 20.

Definition relaxed2 (k : nat) (localPoints : list (LocalPoint F))
  : list (Point F) :=
  Nat.iter k (pass2 localPoints) (centers localPoints).

Definition optimize2 (localPoints : list (LocalPoint F)) : list (Point F) :=
  relaxed2 ITERATIONS2 localPoints.

End Optimizer2.

(** The whole second version, over the reals: every turnpoint is projected
    with [toLocal2] around the first one, optimized and mapped back with
    [fromLocal2]. *)
Definition localPointsOf2 (tps : list (XCTaskPoint R)) : list (LocalPoint R) :=
  let origin :=
    match tps with
    | tp :: _ => mkLatLon (lat tp) (lon tp)
    | [] => mkLatLon 0%R 0%R
    end in
  map (fun tp =>
         let loc := toLocal2 origin (lon tp) (lat tp) in
         mkLocalPoint (px loc) (py loc) (radius tp) (orZero (alt tp)))
      tps.

Definition calculateOptimizedPath2 (task : XCTask R) : list (Geo R) :=
  let tps := turnpoints task in
  if (List.length tps <? 2)%nat then []
  else
    let origin :=
      match tps with
      | tp :: _ => mkLatLon (lat tp) (lon tp)
      | [] => mkLatLon 0%R 0%R
      end in
    let localPoints := localPointsOf2 tps in
    let opt := optimize2 localPoints in
    map (fun pl =>
           let geo := fromLocal2 origin (px (fst pl)) (py (fst pl)) in
           mkGeo (glon geo) (glat geo) (orZero (Some (lalt (snd pl)))))
        (combine opt localPoints).
(** Every point of the buffer is in the disk of its constraint. *)
Definition allInDisk (lps : list (LocalPoint R)) (opt : list (Point R))
  : Prop :=
  forall i, (i < List.length opt)%nat ->
    inDisk (nth i opt originPoint) (nth i lps originLocal).

(** ** The cylinders drawn for a task ([getTaskCylinders]) *)

Inductive CylinderColor := YELLOW | GREEN | RED.

(** One drawn cylinder: the three arguments of [Cartesian3.fromDegrees] for
    its centre, its radius and height, and its colour
    [Color.X.withAlpha(alpha)]. *)
Record Cylinder := mkCylinder {
  position : Geo float;
  cradius : float;
  cheight : float;
  color : CylinderColor;
  alpha : float
}.

(** [l.map((x, index) => f(x, index))]. *)
Definition mapWithIndex {A B : Type} (f : A -> nat -> B) (l : list A) : list B :=
  map (fun ix => f (snd ix) (fst ix)) (combine (seq 0 (List.length l)) l).

#[local] Set Warnings "-inexact-float".

(** [None] is a task that is null. *)
Definition getTaskCylinders (task : option (XCTask float)) : list Cylinder :=
  match task with
  | None => []
  | Some task =>
      mapWithIndex
        (fun tp index =>
           let center := mkGeo (lon tp) (lat tp) (orZero (alt tp)) in
           let callbackRadius :=
             if truthy (radius tp) then radius tp else 400%float in
           let color :=
             if (index =? 0)%nat then GREEN
             else if (index =? List.length (turnpoints task) - 1)%nat then RED
             else YELLOW in
           mkCylinder center callbackRadius 10000%float color 0.3%float)
        (turnpoints task)
  end.

End Optimization.

(* ===================================================================== *)
(** * Tracks on the time line (Viewer.tsx, utils/stats, utils/colors)     *)
(* ===================================================================== *)

Module Tracks.

Import Metrics.
Import String.
Local Open Scope Z_scope.

(** ** The throttle of statsListener

    [if (now - lastUpdate < 500) return; lastUpdate = now;], where
    [lastUpdate] is the variable of the closure, initially 0.  A tick of
    the clock comes with the wall-clock time [now] ([Date.now()]) and the
    time [currentTimestamp] the viewer's clock shows.  The result is the
    new value of [lastUpdate] and, when the listener goes on, the
    argument of [onStatsUpdate]. *)
Section Listener.

Context {cesium : Cesium}.

Definition onTick (tracks : list IGCFile) (trackDateMs : Z)
  (lastUpdate now currentTimestamp : Z)
  : Z * option (list (String.string * PilotStats)) :=
  if now - lastUpdate <? 500 then (lastUpdate, None)
  else (now, Some (statsListener tracks currentTimestamp trackDateMs)).

(** The calls of [onStatsUpdate] over a run of ticks, each with the
    wall-clock time at which it was made. *)
Fixpoint updates (tracks : list IGCFile) (trackDateMs : Z) (lastUpdate : Z)
  (ticks : list (Z * Z)) : list (Z * list (String.string * PilotStats)) :=
  match ticks with
  | [] => []
  | (now, currentTimestamp) :: rest =>
      match onTick tracks trackDateMs lastUpdate now currentTimestamp with
      | (lastUpdate', Some newStats) =>
          (now, newStats) :: updates tracks trackDateMs lastUpdate' rest
      | (lastUpdate', None) => updates tracks trackDateMs lastUpdate' rest
      end
  end.

(** ** The entity of a track

    The fields of the entity that the clock setup reads, and the calls of
    [property.addSample(time, position)] in order.  Times are
    milliseconds, as [Date.getTime] gives them. *)
Record TrackEntity := mkTrackEntity {
  id : String.string;
  samples : list (Z * Cartesian3);
  startTime : option Z;
  stopTime : option Z
}.

(** A timestamp used as a condition: any number but 0. *)
Definition timestampTruthy (t : Z) : bool := negb (t =? 0).

Definition trackEntity (track : IGCFile) (trackDateMs : Z) : TrackEntity :=
  let timeOffset := timeOffset track trackDateMs in
  let range :=
    match fixes track with
    | [] => None
    | first :: _ =>
        let lastFix := last (fixes track) first in
        if timestampTruthy (timestamp first)
           && timestampTruthy (timestamp lastFix)
        then Some (timeOffset + timestamp first,
                   timeOffset + timestamp lastFix)
        else None
    end in
  let addSamples :=
    map (fun fx =>
           (timeOffset + timestamp fx,
            fromDegrees (longitude fx) (latitude fx)
              (orZero (orElse (gpsAltitude fx) (pressureAltitude fx)))))
        (filter (fun fx => timestampTruthy (timestamp fx)) (fixes track)) in
  mkTrackEntity (filename track) addSamples
                (option_map fst range) (option_map snd range).

(** ** The clock range ("Calculate global time range")

    [minStart] and [maxStop] over the entities that have both times. *)
Definition globalRange (trackEntities : list TrackEntity)
  : option Z * option Z :=
  fold_left
    (fun range t =>
       match startTime t, stopTime t with
       | Some start, Some stop =>
           (match fst range with
            | None => Some start
            | Some minStart =>
                if start <? minStart then Some start else Some minStart
            end,
            match snd range with
            | None => Some stop
            | Some maxStop =>
                if maxStop <? stop then Some stop else Some maxStop
            end)
       | _, _ => range
       end)
    trackEntities (None, None).

(** [viewer.clock.startTime] and [stopTime], set when both exist. *)
Definition clockRange (trackEntities : list TrackEntity) : option (Z * Z) :=
  match globalRange trackEntities with
  | (Some minStart, Some maxStop) => Some (minStart, maxStop)
  | _ => None
  end.

End Listener.

(** ** Flight statistics (utils/stats.ts) *)

(** What [calculateStats] takes from JavaScript's [Math]. *)
Class JSMath := {
  Math_PI : Q;
  Math_sin : Q -> Q;
  Math_cos : Q -> Q;
  Math_sqrt : Q -> Q;
  Math_atan2 : Q -> Q -> Q
}.

Record FlightStatistics := mkFlightStatistics {
  duration : String.string;
  maxAltitude : Q;
  maxClimb : Q;
  maxSink : Q;
  totalDistance : Q
}.

(** An integer as a template literal prints it. *)
Definition showZ (z : Z) : String.string :=
  DecimalString.NilZero.string_of_int (Z.to_int z).

(** The template literal of the duration, for [durationHours] and
    [durationMinutes]. *)
Definition formatDuration (h m : Z) : String.string :=
  String.append (showZ h)
    (String.append ("h ")%string (String.append (showZ m) ("m")%string)).

(** [fix.gpsAltitude || fix.pressureAltitude || 0]. *)
Definition altitudeOf (fx : Fix) : Q :=
  orZero (orElse (gpsAltitude fx) (pressureAltitude fx)).

(** [(fix.timestamp - prev.timestamp) / 1000]. *)
Definition timeDiffOf (prev fx : Fix) : Q :=
  (inject_Z (timestamp fx - timestamp prev) / 1000)%Q.

(** [altDiff / timeDiff] between two successive fixes. *)
Definition varioOf (prev fx : Fix) : Q :=
  ((altitudeOf fx - altitudeOf prev) / timeDiffOf prev fx)%Q.

Section Stats.

Context {math : JSMath}.

(** The haversine term [R * c] added to [totalDistance]. *)
Definition haversine (prev fx : Fix) : Q :=
  let R := inject_Z 6371000 in
  let phi1 := (latitude prev * Math_PI / 180)%Q in
  let phi2 := (latitude fx * Math_PI / 180)%Q in
  let dphi := ((latitude fx - latitude prev) * Math_PI / 180)%Q in
  let dlambda := ((longitude fx - longitude prev) * Math_PI / 180)%Q in
  let a := (Math_sin (dphi / 2) * Math_sin (dphi / 2)
            + Math_cos phi1 * Math_cos phi2
              * Math_sin (dlambda / 2) * Math_sin (dlambda / 2))%Q in
  let c := (2 * Math_atan2 (Math_sqrt a) (Math_sqrt (1 - a)))%Q in
  (R * c)%Q.

(** The body of the loop for the fix [fx]; [prev] is [track.fixes[i - 1]]
    for [i > 0]. *)
Definition statsStep (s : FlightStatistics) (prev : option Fix) (fx : Fix)
  : FlightStatistics :=
  let alt := altitudeOf fx in
  let maxAltitude' := if Qltb (maxAltitude s) alt then alt else maxAltitude s in
  match prev with
  | None =>
      mkFlightStatistics (duration s) maxAltitude' (maxClimb s) (maxSink s)
                         (totalDistance s)
  | Some prev =>
      let timeDiff := timeDiffOf prev fx in
      if Qltb 0 timeDiff then
        let vario := varioOf prev fx in
        let maxClimb' := if Qltb (maxClimb s) vario then vario else maxClimb s in
        let maxSink' := if Qltb vario (maxSink s) then vario else maxSink s in
        mkFlightStatistics (duration s) maxAltitude' maxClimb' maxSink'
                           (totalDistance s + haversine prev fx)%Q
      else
        mkFlightStatistics (duration s) maxAltitude' (maxClimb s) (maxSink s)
                           (totalDistance s)
  end.

Fixpoint statsLoop (s : FlightStatistics) (prev : option Fix)
  (fixes : list Fix) : FlightStatistics :=
  match fixes with
  | [] => s
  | fx :: rest => statsLoop (statsStep s prev fx) (Some fx) rest
  end.

(** [durationHours] and [durationMinutes]: [%] is the remainder that takes
    the sign of the dividend, [Math.floor] of a quotient is [Z.div]. *)
Definition durationParts (startTime endTime : Z) : Z * Z :=
  let durationMs := endTime - startTime in
  (durationMs / 3600000, Z.rem durationMs 3600000 / 60000).

Definition calculateStats (track : IGCFile) : FlightStatistics :=
  match fixes track with
  | [] => mkFlightStatistics ("0h 0m")%string 0 0 0 0
  | first :: _ =>
      let startTime := timestamp first in
      let endTime := timestamp (last (fixes track) first) in
      let hm := durationParts startTime endTime in
      let duration := formatDuration (fst hm) (snd hm) in
      statsLoop (mkFlightStatistics duration 0 0 0 0) None (fixes track)
  end.

End Stats.

(** ** Track colours (utils/colors.ts) *)

Inductive Color :=
| YELLOW | CYAN | MAGENTA | ORANGE | LIME | RED | CORNFLOWERBLUE | PINK
| TEAL | SALMON.

Definition TRACK_COLORS : list Color :=
  [YELLOW; CYAN; MAGENTA; ORANGE; LIME; RED; CORNFLOWERBLUE; PINK; TEAL;
   SALMON].

(** [TRACK_COLORS[index % TRACK_COLORS.length]] for an integer [index];
    [None] is [undefined], the answer for a negative remainder. *)
Definition getTrackColor (index : Z) : option Color :=
  let i := Z.rem index (Z.of_nat (List.length TRACK_COLORS)) in
  if i <? 0 then None else nth_error TRACK_COLORS (Z.to_nat i).

(** ** Pilot initials (Viewer.tsx, getInitials)

    A string is the list of its UTF-16 code units. *)

(** The code units that [trim] strips and [\s] matches: the white space
    and the line terminators of ECMAScript. *)
Definition isWhiteSpace (c : N) : bool :=
  ((c =? 9) || (c =? 10) || (c =? 11) || (c =? 12) || (c =? 13) || (c =? 32)
   || (c =? 160) || (c =? 5760) || ((8192 <=? c) && (c <=? 8202))
   || (c =? 8232) || (c =? 8233) || (c =? 8239) || (c =? 8287)
   || (c =? 12288) || (c =? 65279))%N.

Fixpoint dropWhile {A : Type} (p : A -> bool) (l : list A) : list A :=
  match l with
  | [] => []
  | a :: rest => if p a then dropWhile p rest else l
  end.

(** [s.trim()]. *)
Definition trim (s : list N) : list N :=
  rev (dropWhile isWhiteSpace (rev (dropWhile isWhiteSpace s))).

(** [s.split(/\s+/)]: the pieces between the maximal runs of white space;
    a run at the start or at the end leaves an empty piece there, and the
    empty string gives one empty piece. *)
Fixpoint splitSpaces (s : list N) : list (list N) :=
  match s with
  | [] => [[]]
  | c :: rest =>
      if isWhiteSpace c then
        match rest with
        | c' :: _ => if isWhiteSpace c' then splitSpaces rest
                     else [] :: splitSpaces rest
        | [] => [] :: splitSpaces rest
        end
      else
        match splitSpaces rest with
        | piece :: pieces => (c :: piece) :: pieces
        | [] => [[c]]
        end
  end.

(** The text that [undefined] turns into when it is added to a string. *)
Definition undefinedText : list N :=
  [117; 110; 100; 101; 102; 105; 110; 101; 100]%N.

(** [a + b] for two results of [s[0]], where [None] is [undefined]; the
    sum of two [undefined] is the number NaN, here [None]. *)
Definition plusChars (a b : option N) : option (list N) :=
  match a, b with
  | Some x, Some y => Some [x; y]
  | Some x, None => Some (x :: undefinedText)
  | None, Some y => Some (undefinedText ++ [y])
  | None, None => None
  end.

Section Initials.

(** [String.prototype.toUpperCase]. *)
Variable toUpperCase : list N -> list N.

(** [name] is [None] where the pilot name is undefined.  The result is
    [None] where the function throws (there is no [toUpperCase] on a
    number). *)
Definition getInitials (name : option (list N)) : option (list N) :=
  match name with
  | None | Some [] => Some [63%N]
  | Some name =>
      let parts := splitSpaces (trim name) in
      match parts with
      | [] => Some [63%N]
      | [part] => Some (toUpperCase (firstn 3 part))
      | first :: _ =>
          match plusChars (hd_error first) (hd_error (last parts [])) with
          | Some text => Some (toUpperCase text)
          | None => None
          end
      end
  end.

End Initials.

(** ** Concrete inputs *)

(** A track of three fixes stamped relative to midnight, without a date of
    its own. *)
Definition demoTrack : IGCFile :=
  mkIGCFile ("demo.igc")%string None track3.

(** Stand-ins for the functions of [Math], good for small angles, with
    which [calculateStats] evaluates. *)
Definition smallAngleMath : JSMath := {|
  Math_PI := 355 # 113;
  Math_sin := fun x => x;
  Math_cos := fun _ => 1%Q;
  Math_sqrt := fun x => x;
  Math_atan2 := fun y _ => y
|}.

End Tracks.

(* ===================================================================== *)
(** * Task files (utils/xctsk, parseXCTask)                               *)
(* ===================================================================== *)

Module TaskFile.

Import String Ascii.
Local Open Scope string_scope.

#[local] Set Warnings "-inexact-float,-register-all".

(** ** JavaScript values

    What [JSON.parse] returns, and [undefined], which reading a missing
    property gives.  An object is the list of its own properties. *)
Inductive Value :=
| VUndefined
| VNull
| VBool (b : bool)
| VNumber (n : float)
| VString (s : string)
| VArray (items : list Value)
| VObject (fields : list (string * Value)).

(** A value used as a condition. *)
Definition truthy (v : Value) : bool :=
  match v with
  | VUndefined | VNull => false
  | VBool b => b
  | VNumber n => negb (PrimFloat.eqb n 0%float || PrimFloat.is_nan n)
  | VString s => negb (String.eqb s EmptyString)
  | VArray _ | VObject _ => true
  end.

Fixpoint lookup (key : string) (fields : list (string * Value)) : Value :=
  match fields with
  | [] => VUndefined
  | (k, v) :: rest => if String.eqb key k then v else lookup key rest
  end.

(** [v.key] for the property names that [parseXCTask] reads, none of
    which is defined on a number, a boolean, a string or an array, or
    inherited by an object.  [None] is the TypeError thrown on
    [undefined] and [null]. *)
Definition get (v : Value) (key : string) : option Value :=
  match v with
  | VUndefined | VNull => None
  | VObject fields => Some (lookup key fields)
  | _ => Some VUndefined
  end.

(** [a || b] where evaluating an operand may throw: [b] is not looked at
    when [a] is truthy. *)
Definition orElse (a b : option Value) : option Value :=
  match a with
  | None => None
  | Some v => if truthy v then Some v else b
  end.

Definition bind {A B : Type} (m : option A) (f : A -> option B) : option B :=
  match m with
  | None => None
  | Some a => f a
  end.

Notation "x <- m ;; k" := (bind m (fun x => k))
  (at level 61, m at next level, right associativity).

(** [items.map(f)], which throws as soon as [f] does. *)
Fixpoint mapM {A B : Type} (f : A -> option B) (items : list A)
  : option (list B) :=
  match items with
  | [] => Some []
  | a :: rest =>
      b <- f a ;;
      bs <- mapM f rest ;;
      Some (b :: bs)
  end.

(** ** The parsed task *)

Record XCTaskPoint := mkXCTaskPoint {
  lat : Value;
  lon : Value;
  alt : Value;
  radius : Value;
  type : Value;
  name : Value;
  description : Value
}.

Record StartGates := mkStartGates {
  gatesType : Value;
  direction : Value;
  timeGates : Value
}.

(** [sSS] is [None] where the source leaves it [undefined]. *)
Record XCTask := mkXCTask {
  taskType : Value;
  version : Value;
  turnpoints : list XCTaskPoint;
  sSS : option StartGates;
  takeoff : Value;
  goal : Value
}.

(** ** Strings *)

(** [s.includes(c)] for a one-character [c]. *)
Fixpoint includes (c : ascii) (s : string) : bool :=
  match s with
  | EmptyString => false
  | String a rest => if Ascii.eqb a c then true else includes c rest
  end.

(** The part of [s] before the first [c] (all of [s] without one), and the
    part after it. *)
Fixpoint beforeFirst (c : ascii) (s : string) : string :=
  match s with
  | EmptyString => EmptyString
  | String a rest =>
      if Ascii.eqb a c then EmptyString else String a (beforeFirst c rest)
  end.

Fixpoint afterFirst (c : ascii) (s : string) : string :=
  match s with
  | EmptyString => EmptyString
  | String a rest => if Ascii.eqb a c then rest else afterFirst c rest
  end.

(** [s.split(c)[1]] for an [s] that includes [c]. *)
Definition secondPiece (c : ascii) (s : string) : string :=
  beforeFirst c (afterFirst c s).

(** [s.replace(c, '')]: the first [c] is dropped. *)
Fixpoint dropFirst (c : ascii) (s : string) : string :=
  match s with
  | EmptyString => EmptyString
  | String a rest => if Ascii.eqb a c then rest else String a (dropFirst c rest)
  end.

(** ** The mapping of one turnpoint *)

Definition turnpointOf (tp : Value) : option XCTaskPoint :=
  waypoint <- get tp "waypoint" ;;
  let wp := if truthy waypoint then waypoint else VObject [] in
  lat <- orElse (get wp "lat")
           (orElse (get tp "lat") (Some (VNumber 0%float))) ;;
  lon <- orElse (get wp "lon")
           (orElse (get tp "lon") (Some (VNumber 0%float))) ;;
  alt <- orElse (get wp "altSmoothed")
           (orElse (get wp "alt")
              (orElse (get tp "alt") (Some (VNumber 0%float)))) ;;
  radius <- orElse (get tp "radius") (Some (VNumber 400%float)) ;;
  type <- orElse (get tp "type") (Some (VString "TURNPOINT")) ;;
  name <- orElse (get wp "name")
            (orElse (get tp "name") (Some (VString "Turnpoint"))) ;;
  description <- orElse (get wp "description") (get tp "description") ;;
  Some (mkXCTaskPoint lat lon alt radius type name description).

(** ** The start gate synthesized from [times.raceStart]

    [raceStart.includes('T') ? raceStart.split('T')[1].replace('Z', '')
    : raceStart] for a truthy [raceStart]: a string has the three methods;
    an array has [includes] only, so that the call of [split] throws; the
    other values have none of them. *)
Definition raceStartTime (raceStart : Value) : option Value :=
  match raceStart with
  | VString s =>
      if includes "T" s
      then Some (VString (dropFirst "Z" (secondPiece "T" s)))
      else Some raceStart
  | VArray items =>
      if existsb (fun v => match v with
                           | VString s => String.eqb s "T"
                           | _ => false
                           end) items
      then None
      else Some raceStart
  | _ => None
  end.

(** ** parseXCTask, from the value that [JSON.parse] returned *)

(** [taskRoot]: the value itself, or its [task] property when the value
    has no [taskType] and [task] has one. *)
Definition taskRootOf (raw : Value) : option Value :=
  rawTaskType <- get raw "taskType" ;;
  if negb (truthy rawTaskType) then
    rawTask <- get raw "task" ;;
    if truthy rawTask then
      nestedTaskType <- get rawTask "taskType" ;;
      Some (if truthy nestedTaskType then rawTask else raw)
    else Some raw
  else Some raw.

(** [sSS] before it is copied into the result: [taskRoot.sss], or the gate
    synthesized from [times.raceStart] when there is no [sss]. *)
Definition startGatesOf (taskRoot : Value) : option Value :=
  sss <- get taskRoot "sss" ;;
  if negb (truthy sss) then
    times <- get taskRoot "times" ;;
    if truthy times then
      raceStart <- get times "raceStart" ;;
      if truthy raceStart then
        timeStr <- raceStartTime raceStart ;;
        Some (VObject [("type", VString "RACE");
                       ("timeGates", VArray [timeStr])])
      else Some sss
    else Some sss
  else Some sss.

(** [None] is the result [null], returned for a missing turnpoints array
    and from the [catch] block. *)
Definition parseXCTaskValue (raw : Value) : option XCTask :=
  taskRoot <- taskRootOf raw ;;
  rootTurnpoints <- get taskRoot "turnpoints" ;;
  match rootTurnpoints with
  | VArray items =>
      turnpoints <- mapM turnpointOf items ;;
      sSS <- startGatesOf taskRoot ;;
      goal <- get taskRoot "goal" ;;
      taskType <- orElse (get taskRoot "taskType") (Some (VString "CLASSIC")) ;;
      version <- orElse (get taskRoot "version") (Some (VNumber 1%float)) ;;
      gates <-
        (if truthy sSS then
           gatesType <- get sSS "type" ;;
           direction <- get sSS "direction" ;;
           timeGates <- get sSS "timeGates" ;;
           Some (Some (mkStartGates gatesType direction timeGates))
         else Some None) ;;
      takeoff <- get taskRoot "takeoff" ;;
      Some (mkXCTask taskType version turnpoints gates takeoff goal)
  | _ => None
  end.

Section Parse.

(** [JSON.parse], which throws ([None]) on a text that is not JSON. *)
Variable JSON_parse : string -> option Value.

Definition parseXCTask (jsonContent : string) : option XCTask :=
  raw <- JSON_parse jsonContent ;;
  parseXCTaskValue raw.

End Parse.

(** ** Concrete files *)

(** A turnpoint as XCTrack writes it, with an explicit radius of 0. *)
Definition zeroRadiusTurnpoint : Value :=
  VObject [("radius", VNumber 0%float);
           ("waypoint", VObject [("name", VString "TP1");
                                 ("lat", VNumber 46.5%float);
                                 ("lon", VNumber 8%float);
                                 ("altSmoothed", VNumber 1200%float)])].

Definition smallTask : Value :=
  VObject [("taskType", VString "CLASSIC");
           ("version", VNumber 1%float);
           ("turnpoints", VArray [zeroRadiusTurnpoint])].

(** The same task wrapped in a file with metadata around it. *)
Definition wrappedTask : Value :=
  VObject [("author", VString "someone"); ("task", smallTask)].

(** A task of the variant that carries [times.raceStart]. *)
Definition raceStartTask : Value :=
  VObject [("taskType", VString "CLASSIC");
           ("turnpoints", VArray [zeroRadiusTurnpoint]);
           ("times", VObject [("raceStart", VString "2024-05-01T12:30:00Z")])].

End TaskFile.

(* ===================================================================== *)
(** * Arrows along the optimized path (TaskRenderer, ArrowPrimitives)     *)
(* ===================================================================== *)

Module Arrows.

Local Open Scope Q_scope.

(** One arrow: the level of detail it is drawn for, named by its spacing
    in metres, the index [i] of the segment of the path on which it sits
    and the parameter [t] handed to [Cartesian3.lerp(p1, p2, t)].  The
    bearing and the triangle drawn at that position are Cesium's and
    [Math]'s. *)
Record Arrow := mkArrow {
  lodSpacing : positive;
  segment : nat;
  lerpT : Q
}.

(** The spacings of the four levels of detail. *)
Definition lods : list positive := [100; 500; 2000; 8000]%positive.

(** The inner loop on one segment,
<<
    while (currentDist + segLen > nextSample) {
      const t = (nextSample - currentDist) / segLen;
      ...
      nextSample += lod.spacing;
    }
>>
    returning the parameters [t] in order and the final [nextSample].
    Every turn takes [nextSample] a whole spacing closer to the end of the
    segment, which is the termination measure. *)
Equations? samplesOnSegment (spacing : positive)
  (currentDist segLen nextSample : Q) : list Q * Q
  by wf (Z.to_nat (Qceiling (currentDist + segLen - nextSample))) lt :=
samplesOnSegment spacing currentDist segLen nextSample
  with Qlt_le_dec nextSample (currentDist + segLen) => {
  | left _ =>
      ((nextSample - currentDist) / segLen
       :: fst (samplesOnSegment spacing currentDist segLen
                 (nextSample + inject_Z (Zpos spacing))),
       snd (samplesOnSegment spacing currentDist segLen
              (nextSample + inject_Z (Zpos spacing))));
  | right _ => ([], nextSample) }.
Proof.
  all: set (d := currentDist + segLen - nextSample);
    assert (0 < d) as Hd by (unfold d; lra);
    assert ((0 < Qceiling d)%Z) as Hpos
      by (rewrite Zlt_Qlt; eapply Qlt_le_trans; [exact Hd|apply Qle_ceiling]);
    assert ((Qceiling (currentDist + segLen
                       - (nextSample + inject_Z (Z.pos spacing)))
             < Qceiling d)%Z) as Hlt;
    [ rewrite Zlt_Qlt;
      pose proof (Qceiling_lt (currentDist + segLen
                               - (nextSample + inject_Z (Z.pos spacing))))
        as H1;
      pose proof (Qle_ceiling d) as H2;
      assert (1 <= inject_Z (Z.pos spacing)) as Hsp
        by (unfold Qle, inject_Z; cbn; lia);
      unfold Z.sub in H1; rewrite inject_Z_plus in H1;
      change (inject_Z (- (1))%Z) with (-1 # 1) in H1;
      unfold d in *; lra
    | lia ].
Qed.

(** The outer loop [for (let i = 0; i < optimizedPath.length - 1; i++)],
    from segment [i] on, over the lengths [segLen] of the segments. *)
Fixpoint sampleSegments (spacing : positive) (i : nat)
  (currentDist nextSample : Q) (segLens : list Q) : list Arrow :=
  match segLens with
  | [] => []
  | segLen :: rest =>
      let r := samplesOnSegment spacing currentDist segLen nextSample in
      (map (mkArrow spacing i) (fst r)
       ++ sampleSegments spacing (S i) (currentDist + segLen) (snd r) rest)%list
  end.

(** [Cartesian3.distance(optimizedPath[i], optimizedPath[i + 1])] for
    every segment of the path. *)
Definition segmentLengths {P : Type} (distance : P -> P -> Q) (path : list P)
  : list Q :=
  match path with
  | [] => []
  | _ :: rest => map (fun pq => distance (fst pq) (snd pq)) (combine path rest)
  end.

(** The arrows of one level of detail: the first sample is half a spacing
    from the start of the path. *)
Definition arrowsOfLod (spacing : positive) (segLens : list Q) : list Arrow :=
  sampleSegments spacing 0 0 (inject_Z (Zpos spacing) / 2) segLens.

(** [geometryInstances]: the arrows of the four levels, in order. *)
Definition arrowInstances {P : Type} (distance : P -> P -> Q) (path : list P)
  : list Arrow :=
  flat_map (fun spacing => arrowsOfLod spacing (segmentLengths distance path))
           lods.

(** ** Vocabulary of the statements *)

Definition totalLength (segLens : list Q) : Q :=
  fold_right Qplus 0 segLens.

(** The distance from the start of the path to an arrow, along the path. *)
Definition distanceAlong (segLens : list Q) (a : Arrow) : Q :=
  totalLength (firstn (segment a) segLens)
  + lerpT a * nth (segment a) segLens 0.

(** The distance at which the [k]-th arrow of a level is due. *)
Definition sampleAt (spacing : positive) (k : nat) : Q :=
  inject_Z (Zpos spacing) / 2 + inject_Z (Z.of_nat k) * inject_Z (Zpos spacing).

(** ** Concrete inputs *)

(** Points on a line, by their abscissa in metres, and a path of two
    points 120 m apart. *)
Definition lineDistance (p q : Q) : Q := Qabs (p - q).

Definition shortPath : list Q := [0; 120 # 1].

(** The arrow of the finest level on [shortPath], 50 m from its start. *)
Definition shortPathArrow : Arrow :=
  mkArrow 100 0 ((inject_Z 100 / 2 - 0) / lineDistance 0 (120 # 1)).

End Arrows.

(* ===================================================================== *)
(** * Properties of the flight metrics engine                            *)
(* ===================================================================== *)

Module MetricsProofs.

Import Metrics.
Local Open Scope Z_scope.

(* --------------------------------------------------------------------- *)
(** ** The binary search                                                  *)
(* --------------------------------------------------------------------- *)

Lemma mid_between lo hi : lo <= hi -> lo <= (lo + hi) / 2 <= hi.
Proof.
  intros H; split;
    [apply Z.div_le_lower_bound | apply Z.div_le_upper_bound]; lia.
Qed.

Ltac bs_mid :=
  try match goal with
      | H : ?a <= ?b, _ : Z_le_gt_dec ?a ?b = left _ |- _ =>
          pose proof (mid_between a b H)
      end.

(** The search returns an index of the interval, or the one before it. *)
Lemma bsearch_range fixes target lo hi :
  lo <= hi + 1 -> lo - 1 <= bsearch fixes target lo hi <= hi.
Proof.
  funelim (bsearch fixes target lo hi); intros Hle; bs_mid.
  - lia.
  - match goal with IH : _ -> _ <= bsearch _ _ _ _ <= _ |- _ =>
      specialize (IH ltac:(lia)) end.
    lia.
  - match goal with IH : _ -> _ <= bsearch _ _ _ _ <= _ |- _ =>
      specialize (IH ltac:(lia)) end.
    lia.
Qed.

(** Without any assumption on the order of the fixes: when every fix of
    the interval is at or after the target, the search ends below it. *)
Lemma bsearch_none_before fixes target lo hi :
  lo <= hi + 1 ->
  (forall i, lo <= i <= hi -> target <= tsAt fixes i) ->
  bsearch fixes target lo hi = lo - 1.
Proof.
  funelim (bsearch fixes target lo hi); intros Hle Hall; bs_mid.
  - lia.
  - match goal with Hm : _ <= (_ + _) / 2 <= _ |- _ =>
      specialize (Hall _ Hm) end.
    lia.
  - match goal with IH : _ -> _ -> bsearch _ _ _ _ = _ |- _ =>
      apply IH; [lia | intros i Hi; apply Hall; lia] end.
Qed.

(** On an ascending track every fix up to the returned index is strictly
    before the target ... *)
Lemma bsearch_before fixes target lo hi :
  ascending fixes -> 0 <= lo -> hi < Z.of_nat (List.length fixes) ->
  (forall i, 0 <= i < lo -> tsAt fixes i < target) ->
  forall i, 0 <= i <= bsearch fixes target lo hi -> tsAt fixes i < target.
Proof.
  funelim (bsearch fixes target lo hi); intros Hasc Hlo Hhi Hinv i Hi; bs_mid.
  - apply Hinv. lia.
  - match goal with IH : ascending _ -> _ |- _ =>
      apply IH; auto; try lia end.
    intros j Hj.
    eapply Z.le_lt_trans; [|eassumption].
    apply Hasc; lia.
  - match goal with IH : ascending _ -> _ |- _ =>
      apply IH; auto; try lia end.
Qed.

(** ... and every later fix is at or after it. *)
Lemma bsearch_after fixes target lo hi :
  ascending fixes -> 0 <= lo -> hi < Z.of_nat (List.length fixes) ->
  (forall i, hi < i < Z.of_nat (List.length fixes) -> target <= tsAt fixes i) ->
  forall i, bsearch fixes target lo hi < i < Z.of_nat (List.length fixes) ->
    target <= tsAt fixes i.
Proof.
  funelim (bsearch fixes target lo hi); intros Hasc Hlo Hhi Hinv i Hi; bs_mid.
  - apply Hinv. lia.
  - match goal with IH : ascending _ -> _ |- _ =>
      apply IH; auto; try lia end.
  - match goal with IH : ascending _ -> _ |- _ =>
      apply IH; auto; try lia end.
    intros j Hj.
    eapply Z.le_trans; [apply Z.ge_le; eassumption|].
    apply Hasc; lia.
Qed.

(** X2 -- the first search on an ascending track: the returned index is
    the latest fix strictly before the query time (-1 when there is
    none). *)
Theorem currentIndexOf_spec fixes T :
  ascending fixes ->
  -1 <= currentIndexOf fixes T < Z.of_nat (List.length fixes)
  /\ (forall i, 0 <= i <= currentIndexOf fixes T -> tsAt fixes i < T)
  /\ (forall i, currentIndexOf fixes T < i < Z.of_nat (List.length fixes) ->
        T <= tsAt fixes i).
Proof.
  intros Hasc. unfold currentIndexOf.
  pose proof (bsearch_range fixes T 0 (Z.of_nat (List.length fixes) - 1)
                ltac:(lia)) as Hr.
  split; [lia|]. split.
  - apply bsearch_before; auto; lia.
  - apply bsearch_after; auto; lia.
Qed.

Lemma fixAt_In fixes i f : fixAt fixes i = Some f -> In f fixes.
Proof.
  unfold fixAt. destruct (i <? 0); [discriminate|]. apply nth_error_In.
Qed.

Lemma fixAt_Some fixes i :
  0 <= i < Z.of_nat (List.length fixes) -> exists f, fixAt fixes i = Some f.
Proof.
  intros Hi. unfold fixAt.
  destruct (Z.ltb_spec i 0); [lia|].
  destruct (nth_error fixes (Z.to_nat i)) eqn:E; [eauto|].
  apply nth_error_None in E. lia.
Qed.

Lemma tsAt_fixAt fixes i f : fixAt fixes i = Some f -> tsAt fixes i = timestamp f.
Proof. unfold tsAt. intros ->. reflexivity. Qed.

(** [dt > 0] in seconds is [timestamp difference > 0] in milliseconds. *)
Lemma dt_positive (d : Z) : Qltb 0 (inject_Z d / 1000) = true <-> 0 < d.
Proof.
  unfold Qltb. rewrite negb_true_iff.
  destruct (Qle_bool (inject_Z d / 1000) 0) eqn:E.
  - apply Qle_bool_iff in E. split; [discriminate|]. intros Hd. exfalso.
    unfold Qle, Qdiv, Qmult, Qinv, inject_Z in E. simpl in E. lia.
  - split; [|reflexivity]. intros _.
    destruct (Z_lt_le_dec 0 d) as [|Hle]; [assumption|]. exfalso.
    assert (Qle_bool (inject_Z d / 1000) 0 = true) as E'.
    { apply Qle_bool_iff.
      unfold Qle, Qdiv, Qmult, Qinv, inject_Z. simpl. lia. }
    congruence.
Qed.

Section EngineFacts.

Context {cesium : Cesium}.

(** What an emitted sample was computed from. *)
Lemma trackStats_Some fixes T s :
  trackStats fixes T = Some s ->
  exists currentFix pastFix,
    fixAt fixes (currentIndexOf fixes T) = Some currentFix
    /\ fixAt fixes (pastIndexOf fixes T) = Some pastFix
    /\ 0 <= pastIndexOf fixes T < currentIndexOf fixes T
    /\ currentIndexOf fixes T < Z.of_nat (List.length fixes)
    /\ timestamp pastFix < timestamp currentFix
    /\ s = sampleOf currentFix pastFix
             (inject_Z (timestamp currentFix - timestamp pastFix) / 1000).
Proof.
  unfold trackStats. cbv zeta.
  destruct ((0 <=? currentIndexOf fixes T)
            && (currentIndexOf fixes T <? Z.of_nat (List.length fixes))) eqn:E1;
    [|discriminate].
  destruct (fixAt fixes (currentIndexOf fixes T)) as [cur|] eqn:Ec;
    [|discriminate].
  destruct ((0 <=? pastIndexOf fixes T)
            && (pastIndexOf fixes T <? currentIndexOf fixes T)) eqn:E2;
    [|discriminate].
  destruct (fixAt fixes (pastIndexOf fixes T)) as [past|] eqn:Ep;
    [|discriminate].
  destruct (Qltb 0 (inject_Z (timestamp cur - timestamp past) / 1000)) eqn:Ed;
    [|discriminate].
  intros [= <-].
  apply andb_true_iff in E1 as [E1a E1b].
  apply andb_true_iff in E2 as [E2a E2b].
  apply dt_positive in Ed.
  exists cur, past. repeat split; auto; lia.
Qed.

(** C9 -- no sample without a usable window.  Whatever the order of the
    fixes: (1) when no fix lies at or before [T - 15 s] the engine writes
    no sample; (2) when the two selected fixes are not strictly ordered in
    time ([dt <= 0]) it writes none either; (3) every sample it does write
    was divided by a strictly positive [dt]. *)
Theorem no_sample_without_window fixes T :
  ((forall f, In f fixes -> T - 15000 < timestamp f) ->
     trackStats fixes T = None)
  /\ (forall currentFix pastFix,
        fixAt fixes (currentIndexOf fixes T) = Some currentFix ->
        fixAt fixes (pastIndexOf fixes T) = Some pastFix ->
        timestamp currentFix - timestamp pastFix <= 0 ->
        trackStats fixes T = None)
  /\ (forall s, trackStats fixes T = Some s ->
        exists currentFix pastFix dt,
          fixAt fixes (currentIndexOf fixes T) = Some currentFix
          /\ fixAt fixes (pastIndexOf fixes T) = Some pastFix
          /\ dt = (inject_Z (timestamp currentFix - timestamp pastFix) / 1000)%Q
          /\ (0 < dt)%Q
          /\ s = sampleOf currentFix pastFix dt).
Proof.
  split; [|split].
  - intros Hall.
    destruct (trackStats fixes T) as [s|] eqn:E; [|reflexivity].
    exfalso. apply trackStats_Some in E
      as (cur & past & Hc & Hp & Hidx & Hlen & _ & _).
    assert (pastIndexOf fixes T = 0 - 1) as Hnone.
    { unfold pastIndexOf. apply bsearch_none_before; [lia|].
      intros i Hi.
      destruct (fixAt_Some fixes i ltac:(lia)) as [f Hf].
      rewrite (tsAt_fixAt _ _ _ Hf).
      specialize (Hall f (fixAt_In _ _ _ Hf)). lia. }
    lia.
  - intros cur past Hc Hp Hdt.
    destruct (trackStats fixes T) as [s|] eqn:E; [|reflexivity].
    exfalso. apply trackStats_Some in E
      as (cur' & past' & Hc' & Hp' & _ & _ & Hlt & _).
    rewrite Hc in Hc'. rewrite Hp in Hp'.
    injection Hc' as <-. injection Hp' as <-. lia.
  - intros s E. apply trackStats_Some in E
      as (cur & past & Hc & Hp & _ & _ & Hlt & Hs).
    exists cur, past, (inject_Z (timestamp cur - timestamp past) / 1000)%Q.
    repeat split; auto.
    assert (Qltb 0 (inject_Z (timestamp cur - timestamp past) / 1000) = true)
      as Hd by (apply dt_positive; lia).
    unfold Qltb in Hd. rewrite negb_true_iff in Hd.
    apply Qnot_le_lt. intros Hle. apply Qle_bool_iff in Hle. congruence.
Qed.

(** C10, as the code has it -- the AGL of every emitted sample is the
    altitude [gpsAltitude || pressureAltitude || 0] of the current fix
    minus the terrain height where the globe knows one, and the number 0
    where it does not. *)
Theorem agl_of_sample fixes T s :
  trackStats fixes T = Some s ->
  exists currentFix,
    fixAt fixes (currentIndexOf fixes T) = Some currentFix
    /\ agl s =
       match getHeight (longitude currentFix) (latitude currentFix) with
       | Some globeHeight =>
           (orZero (orElse (gpsAltitude currentFix)
                           (pressureAltitude currentFix)) - globeHeight)%Q
       | None => 0%Q
       end.
Proof.
  intros E. apply trackStats_Some in E as (cur & past & Hc & _ & _ & _ & _ & ->).
  exists cur. split; [assumption|]. reflexivity.
Qed.

(** What the code reports as vertical speed: the difference of
    [gpsAltitude || 0] between the two fixes over [dt]; the barometric
    altitude plays no part. *)
Lemma vario_of_sample fixes T s :
  trackStats fixes T = Some s ->
  exists currentFix pastFix,
    fixAt fixes (currentIndexOf fixes T) = Some currentFix
    /\ fixAt fixes (pastIndexOf fixes T) = Some pastFix
    /\ vario s =
       ((orZero (gpsAltitude currentFix) - orZero (gpsAltitude pastFix))
        / (inject_Z (timestamp currentFix - timestamp pastFix) / 1000))%Q.
Proof.
  intros E. apply trackStats_Some in E as (cur & past & Hc & Hp & _ & _ & _ & ->).
  exists cur, past. repeat split; assumption.
Qed.

Lemma orZero_present (g : Q) : (orZero (Some g) == g)%Q.
Proof.
  unfold orZero. destruct (Qeq_bool g 0) eqn:E; [|reflexivity].
  apply Qeq_bool_iff in E. symmetry. exact E.
Qed.

(** X7 -- when both selected fixes carry a GPS altitude, the reported
    vertical speed is the difference of their effective altitudes over
    [dt], sign included. *)
Theorem vario_with_gps_altitudes fixes T s :
  trackStats fixes T = Some s ->
  exists currentFix pastFix,
    fixAt fixes (currentIndexOf fixes T) = Some currentFix
    /\ fixAt fixes (pastIndexOf fixes T) = Some pastFix
    /\ (gpsAltitude currentFix <> None -> gpsAltitude pastFix <> None ->
        (vario s ==
         (effectiveAltitude currentFix - effectiveAltitude pastFix)
         / (inject_Z (timestamp currentFix - timestamp pastFix) / 1000))%Q).
Proof.
  intros E. apply trackStats_Some in E as (cur & past & Hc & Hp & _ & _ & _ & ->).
  exists cur, past. split; [assumption|]. split; [assumption|].
  intros Hgc Hgp. unfold sampleOf, effectiveAltitude. cbn [vario].
  destruct (gpsAltitude cur) as [gc|]; [|congruence].
  destruct (gpsAltitude past) as [gp|]; [|congruence].
  rewrite !orZero_present. reflexivity.
Qed.

End EngineFacts.

Lemma track3_ascending : ascending track3.
Proof.
  intros i j Hi Hij Hj. cbn [track3 List.length] in Hj.
  assert (i = 0 \/ i = 1 \/ i = 2) as Hi3 by lia.
  assert (j = 0 \/ j = 1 \/ j = 2) as Hj3 by lia.
  destruct Hi3 as [Hi3|[Hi3|Hi3]]; destruct Hj3 as [Hj3|[Hj3|Hj3]];
    subst i j; vm_compute; try discriminate; lia.
Qed.

(** X2, at a concrete track: on [track3] the fix selected for [T = 2500]
    is stamped before 2500 and the next one is not. *)
Lemma currentIndexOf_spec_witness :
  -1 <= currentIndexOf track3 2500 < Z.of_nat (List.length track3)
  /\ (forall i, 0 <= i <= currentIndexOf track3 2500 -> tsAt track3 i < 2500)
  /\ (forall i, currentIndexOf track3 2500 < i < Z.of_nat (List.length track3) ->
        2500 <= tsAt track3 i).
Proof.
  apply (currentIndexOf_spec track3 2500). exact track3_ascending.
Defined.

(** C7 -- at the exact timestamp of a fix the search selects the fix
    before it: on [track3], whose second fix is stamped 2000, the query
    [T = 2000] selects index 0, not 1, and the query at the first fix's own
    timestamp selects none (-1). *)
Theorem exact_timestamp_selects_previous_fix :
  tsAt track3 1 = 2000
  /\ currentIndexOf track3 2000 = 0
  /\ tsAt track3 0 = 1000
  /\ currentIndexOf track3 1000 = -1.
Proof. repeat split; reflexivity. Qed.

(** C8 -- on a track with barometric altitudes only, the reported vertical
    speed is 0 although the effective altitude rose by 100 m in 20 s. *)
Theorem vario_ignores_baro_altitude :
  exists s currentFix pastFix,
    trackStats (cesium := plainGlobe) baroTrack 20001 = Some s
    /\ fixAt baroTrack (currentIndexOf baroTrack 20001) = Some currentFix
    /\ fixAt baroTrack (pastIndexOf baroTrack 20001) = Some pastFix
    /\ (vario s == 0)%Q
    /\ ((effectiveAltitude currentFix - effectiveAltitude pastFix)
        / (inject_Z (timestamp currentFix - timestamp pastFix) / 1000) == 5)%Q.
Proof.
  eexists _, _, _.
  split; [vm_compute; reflexivity|].
  split; [vm_compute; reflexivity|].
  split; [vm_compute; reflexivity|].
  split; vm_compute; reflexivity.
Qed.

(** C9, at a concrete track: [track3] queried 2 s after its start has no
    fix 15 s back. *)
Lemma no_sample_without_window_witness :
  trackStats (cesium := plainGlobe) track3 3000 = None.
Proof.
  apply (proj1 (no_sample_without_window (cesium := plainGlobe) track3 3000)).
  intros f [<-|[<-|[<-|[]]]]; simpl; lia.
Defined.

(** X7, at [gpsTrack]: 100 m in 20 s is 5 m/s. *)
Lemma vario_with_gps_altitudes_witness :
  exists s,
    trackStats (cesium := plainGlobe) gpsTrack 20001 = Some s
    /\ (vario s == 5)%Q.
Proof.
  assert (trackStats (cesium := plainGlobe) gpsTrack 20001
          = Some (sampleOf (cesium := plainGlobe)
                    (fixOf 20000 (Some (1100 # 1)) None)
                    (fixOf 0 (Some (1000 # 1)) None)
                    (inject_Z (20000 - 0) / 1000))) as E
    by (vm_compute; reflexivity).
  destruct (vario_with_gps_altitudes (cesium := plainGlobe) gpsTrack 20001 _ E)
    as (cur & past & Hc & Hp & Hv).
  eexists. split; [exact E|].
  vm_compute in Hc, Hp. injection Hc as <-. injection Hp as <-.
  rewrite Hv by (cbn; discriminate).
  vm_compute. reflexivity.
Defined.

(** C10, the claim as stated fails: with no terrain loaded a sample is
    still written, and its AGL is the number 0. *)
Lemma agl_unknown_terrain_counterexample :
  getHeight (Cesium := bareGlobe) (8 # 1) (46 # 1) = None
  /\ exists s, trackStats (cesium := bareGlobe) gpsTrack 20001 = Some s
               /\ agl s = 0%Q.
Proof.
  split; [reflexivity|]. eexists. split; vm_compute; reflexivity.
Qed.

(** C10, at a concrete track: the 300 m plain under a fix at 1100 m. *)
Lemma agl_of_sample_witness :
  exists s currentFix,
    trackStats (cesium := plainGlobe) gpsTrack 20001 = Some s
    /\ fixAt gpsTrack (currentIndexOf gpsTrack 20001) = Some currentFix
    /\ agl s =
       match getHeight (Cesium := plainGlobe)
                       (longitude currentFix) (latitude currentFix) with
       | Some globeHeight =>
           (orZero (orElse (gpsAltitude currentFix)
                           (pressureAltitude currentFix)) - globeHeight)%Q
       | None => 0%Q
       end.
Proof.
  assert (trackStats (cesium := plainGlobe) gpsTrack 20001
          = Some (sampleOf (cesium := plainGlobe)
                    (fixOf 20000 (Some (1100 # 1)) None)
                    (fixOf 0 (Some (1000 # 1)) None)
                    (inject_Z (20000 - 0) / 1000))) as E
    by (vm_compute; reflexivity).
  destruct (agl_of_sample (cesium := plainGlobe) gpsTrack 20001 _ E)
    as (cur & Hc & Ha).
  eexists _, cur. split; [exact E|]. split; assumption.
Defined.

End MetricsProofs.

(* ===================================================================== *)
(** * Properties of the task path optimizer                              *)
(* ===================================================================== *)

Module OptimizationProofs.

Import Optimization.

(* --------------------------------------------------------------------- *)
(** ** Shape of the result, for any arithmetic                            *)
(* --------------------------------------------------------------------- *)

Section Shape.

Context {F : Type} {num : Num F}.

Lemma length_setAt {A : Type} (i : nat) (p : A) (l : list A) :
  List.length (setAt i p l) = List.length l.
Proof.
  revert i; induction l as [|a l IH]; intros [|i]; simpl; auto.
Qed.

Lemma nth_setAt_same {A : Type} (i : nat) (p d : A) (l : list A) :
  (i < List.length l)%nat -> nth i (setAt i p l) d = p.
Proof.
  revert i; induction l as [|a l IH]; intros [|i] H; simpl in *;
    try lia; auto.
  apply IH. lia.
Qed.

Lemma nth_setAt_other {A : Type} (i j : nat) (p d : A) (l : list A) :
  i <> j -> nth j (setAt i p l) d = nth j l d.
Proof.
  revert i j; induction l as [|a l IH]; intros [|i] [|j] H; simpl;
    try congruence; auto.
Qed.

Lemma length_updatePoint (lps : list (LocalPoint F)) opt i :
  List.length (updatePoint lps opt i) = List.length opt.
Proof.
  unfold updatePoint.
  destruct (i =? 0)%nat; [|destruct (i =? List.length opt - 1)%nat];
    apply length_setAt.
Qed.

Lemma length_fold_updatePoint (lps : list (LocalPoint F)) idx opt :
  List.length (fold_left (updatePoint lps) idx opt) = List.length opt.
Proof.
  revert opt; induction idx as [|i idx IH]; intros opt; simpl; auto.
  rewrite IH. apply length_updatePoint.
Qed.

Lemma length_pass (lps : list (LocalPoint F)) opt :
  List.length (pass lps opt) = List.length opt.
Proof. apply length_fold_updatePoint. Qed.

Lemma length_relaxed k (lps : list (LocalPoint F)) :
  List.length (relaxed k lps) = List.length lps.
Proof.
  unfold relaxed. induction k as [|k IH]; simpl.
  - unfold centers. apply length_map.
  - rewrite length_pass. exact IH.
Qed.

Lemma length_optimize (lps : list (LocalPoint F)) :
  List.length (optimize lps) = List.length lps.
Proof. apply length_relaxed. Qed.






Lemma pass_three (c0 c1 c2 : LocalPoint F) (p0 p1 p2 : Point F) :
  pass [c0; c1; c2] [p0; p1; p2]
  = let p0' := endpointTarget c0 p1 p0 in
    let p1' := interiorTarget c1 p0' p2 in
    let p2' := endpointTarget c2 p1' p2 in
    [p0'; p1'; p2'].
Proof. reflexivity. Qed.

(** Once a pass leaves the buffer unchanged, so do all later ones. *)
Lemma relaxed_fixed (lps : list (LocalPoint F)) k s :
  relaxed k lps = s -> pass lps s = s ->
  forall j, relaxed (k + j) lps = s.
Proof.
  intros Hk Hfix j. induction j as [|j IH].
  - rewrite Nat.add_0_r. exact Hk.
  - rewrite Nat.add_succ_r. unfold relaxed in *. simpl.
    rewrite IH. exact Hfix.
Qed.





End Shape.

(* --------------------------------------------------------------------- *)
(** ** Geometry of one update, over the reals                             *)
(* --------------------------------------------------------------------- *)

Section Geometry.

Local Open Scope R_scope.

Lemma Rltb_true a b : a < b -> Rltb a b = true.
Proof. unfold Rltb. destruct (Rlt_dec a b); tauto. Qed.

Lemma Rltb_false a b : ~ a < b -> Rltb a b = false.
Proof. unfold Rltb. destruct (Rlt_dec a b); tauto. Qed.

Lemma Rleb_true a b : a <= b -> Rleb a b = true.
Proof. unfold Rleb. destruct (Rle_dec a b); tauto. Qed.

Lemma Rleb_false a b : ~ a <= b -> Rleb a b = false.
Proof. unfold Rleb. destruct (Rle_dec a b); tauto. Qed.

Lemma planarDistance_distSq p q :
  planarDistance p q = R_sqrt.sqrt (distSq p q).
Proof. reflexivity. Qed.

Lemma distSq_nonneg p q : 0 <= distSq p q.
Proof.
  unfold distSq.
  pose proof (Rle_0_sqr (px p - px q)). pose proof (Rle_0_sqr (py p - py q)).
  unfold Rsqr in *. lra.
Qed.

Lemma distance_le_radius p q r :
  0 <= r -> (planarDistance p q <= r <-> distSq p q <= r * r).
Proof.
  intros Hr. rewrite planarDistance_distSq.
  pose proof (distSq_nonneg p q) as Hd.
  split; intros H.
  - rewrite <- (sqrt_sqrt (distSq p q)) by assumption.
    pose proof (sqrt_pos (distSq p q)). nra.
  - rewrite <- (sqrt_square r) by assumption.
    apply sqrt_le_1; nra.
Qed.




Lemma point_eta (p : Point R) : mkPoint (px p) (py p) = p.
Proof. destruct p; reflexivity. Qed.

(** The three branches of [interiorTarget]. *)
Lemma interiorTarget_degenerate center A B :
  lab2Of A B < 1 / 1000000 -> interiorTarget center A B = A.
Proof.
  intros H. unfold interiorTarget.
  cbn [ltb eps RNum]. rewrite (Rltb_true _ _ H). apply point_eta.
Qed.

Lemma interiorTarget_through center A B :
  ~ lab2Of A B < 1 / 1000000 ->
  distSq (closestOnSeg A B (centerOf center)) (centerOf center)
  <= lradius center * lradius center ->
  interiorTarget center A B = closestOnSeg A B (centerOf center).
Proof.
  intros Hl Hd. unfold interiorTarget.
  cbn [ltb leb eps RNum]. rewrite (Rltb_false _ _ Hl).
  fold (centerOf center).
  unfold distSq in Hd.
  cbn [add sub mul RNum]. rewrite (Rleb_true _ _ Hd). apply point_eta.
Qed.

Lemma interiorTarget_boundary center A B :
  ~ lab2Of A B < 1 / 1000000 ->
  lradius center * lradius center
  < distSq (closestOnSeg A B (centerOf center)) (centerOf center) ->
  let C := centerOf center in
  let Q := closestOnSeg A B C in
  let len := planarDistance Q C in
  0 < len
  /\ interiorTarget center A B
     = mkPoint (px C + (px Q - px C) / len * lradius center)
               (py C + (py Q - py C) / len * lradius center)
  /\ distSq (interiorTarget center A B) C = lradius center * lradius center.
Proof.
  intros Hl Hd C Q len.
  assert (0 < len) as Hlen.
  { unfold len. rewrite planarDistance_distSq. apply sqrt_lt_R0.
    pose proof (Rle_0_sqr (lradius center)). unfold Rsqr in *.
    fold C Q in Hd. lra. }
  assert (interiorTarget center A B
          = mkPoint (px C + (px Q - px C) / len * lradius center)
                    (py C + (py Q - py C) / len * lradius center)) as Heq.
  { unfold interiorTarget.
    cbn [ltb leb eps zero sqrt add sub mul div RNum].
    rewrite (Rltb_false _ _ Hl). fold (centerOf center). fold C. fold Q.
    unfold distSq in Hd. fold C Q in Hd.
    rewrite Rleb_false by lra.
    change (R_sqrt.sqrt ((px Q - px C) * (px Q - px C)
                         + (py Q - py C) * (py Q - py C))) with len.
    rewrite (Rltb_true _ _ Hlen). reflexivity. }
  split; [assumption|]. split; [assumption|].
  rewrite Heq. unfold distSq. cbn [px py].
  assert (len * len = (px Q - px C) * (px Q - px C)
                      + (py Q - py C) * (py Q - py C)) as Hsq.
  { unfold len. rewrite planarDistance_distSq. apply sqrt_sqrt.
    apply distSq_nonneg. }
  set (dx := px Q - px C) in *. set (dy := py Q - py C) in *.
  replace ((px C + dx / len * lradius center - px C)
           * (px C + dx / len * lradius center - px C)
           + (py C + dy / len * lradius center - py C)
             * (py C + dy / len * lradius center - py C))
    with ((dx * dx + dy * dy) / (len * len)
          * (lradius center * lradius center))
    by (field; lra).
  rewrite <- Hsq. field. lra.
Qed.


(** The two regular branches of [interiorTarget], in terms of distances. *)
Lemma interiorTarget_geometry center A B :
  let C := centerOf center in
  let r := lradius center in
  let Q := closestOnSeg A B C in
  0 <= r ->
  1 / 1000000 <= lab2Of A B ->
  (planarDistance Q C <= r -> interiorTarget center A B = Q)
  /\ (r < planarDistance Q C ->
        planarDistance (interiorTarget center A B) C = r
        /\ interiorTarget center A B
           = mkPoint (px C + (px Q - px C) / planarDistance Q C * r)
                     (py C + (py Q - py C) / planarDistance Q C * r)).
Proof.
  intros C r Q Hr Hlab.
  assert (~ lab2Of A B < 1 / 1000000) as Hnd by lra.
  split.
  - intros Hin. apply interiorTarget_through; [assumption|].
    apply distance_le_radius; assumption.
  - intros Hout.
    assert (r * r < distSq Q C) as Hsq.
    { destruct (Rlt_le_dec (r * r) (distSq Q C)) as [|Hle]; [assumption|].
      apply distance_le_radius in Hle; [lra|assumption]. }
    destruct (interiorTarget_boundary center A B Hnd Hsq)
      as (Hlen & Heq & Hd).
    split; [|exact Heq].
    rewrite planarDistance_distSq. fold C in Hd. rewrite Hd.
    apply sqrt_square. assumption.
Qed.



End Geometry.

(* --------------------------------------------------------------------- *)
(** ** Runs along one axis                                                *)
(* --------------------------------------------------------------------- *)

Section AxisRuns.

Local Open Scope R_scope.

Lemma sqrt_axis (a : R) : 0 < a -> R_sqrt.sqrt (a * a + (0 - 0) * (0 - 0)) = a.
Proof.
  intros Ha. replace (a * a + (0 - 0) * (0 - 0)) with (a * a) by ring.
  apply sqrt_square. lra.
Qed.

Lemma sqrt_axis_neg (a : R) :
  a < 0 -> R_sqrt.sqrt (a * a + (0 - 0) * (0 - 0)) = - a.
Proof.
  intros Ha. replace (a * a + (0 - 0) * (0 - 0)) with ((- a) * (- a)) by ring.
  apply sqrt_square. lra.
Qed.

(** An endpoint whose neighbour lies on the same horizontal line, to its
    right, moves to the rightmost point of its circle ... *)
Lemma endpointTarget_right cx r ox cur :
  1 / 1000000 < ox - cx ->
  endpointTarget (mkLocalPoint cx 0 r 0) (mkPoint ox 0) cur
  = mkPoint (cx + r) 0.
Proof.
  intros H. unfold endpointTarget.
  cbn [lx ly lradius px py add sub mul div sqrt ltb eps RNum].
  rewrite sqrt_axis by lra. rewrite Rltb_true by lra.
  f_equal; field; lra.
Qed.


(** An intermediate point whose disk lies to the right of both neighbours,
    themselves apart: the segment stays outside the disk and the point
    moves to the leftmost point of its circle. *)
Lemma interiorTarget_left cx r ax bx :
  0 <= r -> bx < ax -> 1 / 1000000 <= (bx - ax) * (bx - ax) ->
  r < cx - ax ->
  interiorTarget (mkLocalPoint cx 0 r 0) (mkPoint ax 0) (mkPoint bx 0)
  = mkPoint (cx - r) 0.
Proof.
  intros Hr Hba Hlab Hout.
  assert (lab2Of (mkPoint ax 0) (mkPoint bx 0) = (bx - ax) * (bx - ax)) as HL
    by (unfold lab2Of; cbn [px py add sub mul RNum]; ring).
  assert (closestOnSeg (mkPoint ax 0) (mkPoint bx 0)
            (centerOf (mkLocalPoint cx 0 r 0)) = mkPoint ax 0) as HQ.
  { unfold closestOnSeg. rewrite HL.
    cbn [centerOf lx ly px py add sub mul div max min zero one RNum].
    assert (((cx - ax) * (bx - ax) + (0 - 0) * (0 - 0))
            / ((bx - ax) * (bx - ax)) < 0) as Ht.
    { replace (((cx - ax) * (bx - ax) + (0 - 0) * (0 - 0))
               / ((bx - ax) * (bx - ax)))
        with (- ((cx - ax) / (ax - bx))) by (field; lra).
      assert (0 < (cx - ax) / (ax - bx))
        by (apply Rdiv_lt_0_compat; lra).
      lra. }
    rewrite Rmin_right by lra. rewrite Rmax_left by lra.
    f_equal; ring. }
  destruct (interiorTarget_boundary (mkLocalPoint cx 0 r 0)
              (mkPoint ax 0) (mkPoint bx 0)) as (Hlen & Heq & _).
  - rewrite HL. lra.
  - rewrite HQ. unfold distSq. cbn [centerOf lx ly lradius px py]. nra.
  - rewrite Heq. rewrite HQ. unfold planarDistance.
    cbn [centerOf lx ly lradius px py add sub mul div sqrt RNum].
    rewrite sqrt_axis_neg by lra. f_equal; field; lra.
Qed.

Lemma outAndReturn_first_pass r r1 x1 :
  1 / 1000 <= r -> 0 <= r1 -> r + r1 < x1 ->
  relaxed 1 (outAndReturn r r1 x1)
  = [mkPoint r 0; mkPoint (x1 - r1) 0; mkPoint r 0].
Proof.
  intros Hr Hr1 Hx. unfold relaxed, outAndReturn, centers.
  cbn [Nat.iter nat_rect map lx ly]. rewrite pass_three. cbv zeta.
  rewrite endpointTarget_right by lra.
  replace (0 + r) with r by ring.
  rewrite interiorTarget_left by nra.
  rewrite endpointTarget_right by lra.
  replace (0 + r) with r by ring. reflexivity.
Qed.

Lemma outAndReturn_second_pass r r1 x1 :
  1 / 1000 <= r -> 0 <= r1 -> r + r1 < x1 ->
  pass (outAndReturn r r1 x1) [mkPoint r 0; mkPoint (x1 - r1) 0; mkPoint r 0]
  = [mkPoint r 0; mkPoint r 0; mkPoint r 0].
Proof.
  intros Hr Hr1 Hx. unfold outAndReturn. rewrite pass_three. cbv zeta.
  rewrite endpointTarget_right by lra.
  replace (0 + r) with r by ring.
  rewrite interiorTarget_degenerate
    by (unfold lab2Of; cbn [px py add sub mul RNum]; nra).
  rewrite endpointTarget_right by lra.
  replace (0 + r) with r by ring. reflexivity.
Qed.

Lemma outAndReturn_fixed r r1 x1 :
  1 / 1000 <= r ->
  pass (outAndReturn r r1 x1) [mkPoint r 0; mkPoint r 0; mkPoint r 0]
  = [mkPoint r 0; mkPoint r 0; mkPoint r 0].
Proof.
  intros Hr. unfold outAndReturn. rewrite pass_three. cbv zeta.
  rewrite endpointTarget_right by lra.
  replace (0 + r) with r by ring.
  rewrite interiorTarget_degenerate
    by (unfold lab2Of; cbn [px py add sub mul RNum]; nra).
  rewrite endpointTarget_right by lra.
  replace (0 + r) with r by ring. reflexivity.
Qed.

Lemma outAndReturn_collapses r r1 x1 :
  1 / 1000 <= r -> 0 <= r1 -> r + r1 < x1 ->
  optimize (outAndReturn r r1 x1)
  = [mkPoint r 0; mkPoint r 0; mkPoint r 0].
Proof.
  intros Hr Hr1 Hx. unfold optimize, ITERATIONS.
  change 50%nat with (2 + 48)%nat.
  apply relaxed_fixed; [|apply outAndReturn_fixed; assumption].
  change 2%nat with (1 + 1)%nat.
  unfold relaxed. cbn [Nat.add Nat.iter nat_rect].
  change (pass (outAndReturn r r1 x1) (centers (outAndReturn r r1 x1)))
    with (relaxed 1 (outAndReturn r r1 x1)).
  rewrite outAndReturn_first_pass by assumption.
  apply outAndReturn_second_pass; assumption.
Qed.

End AxisRuns.

(* --------------------------------------------------------------------- *)
(** ** Tasks of two turnpoints                                            *)
(* --------------------------------------------------------------------- *)

Section TwoDisks.

Local Open Scope R_scope.


Lemma norm_scale k vx vy :
  R_sqrt.sqrt ((k * vx) * (k * vx) + (k * vy) * (k * vy))
  = Rabs k * R_sqrt.sqrt (vx * vx + vy * vy).
Proof.
  replace ((k * vx) * (k * vx) + (k * vy) * (k * vy))
    with (Rsqr k * (vx * vx + vy * vy)) by (unfold Rsqr; ring).
  rewrite sqrt_mult.
  - rewrite sqrt_Rsqr_abs. reflexivity.
  - apply Rle_0_sqr.
  - pose proof (Rle_0_sqr vx). pose proof (Rle_0_sqr vy).
    unfold Rsqr in *. lra.
Qed.

Lemma planarDistance_scaled (p q : Point R) k vx vy :
  px p - px q = k * vx -> py p - py q = k * vy ->
  planarDistance p q = Rabs k * R_sqrt.sqrt (vx * vx + vy * vy).
Proof.
  intros Hx Hy. unfold planarDistance.
  cbn [add sub mul sqrt RNum]. rewrite Hx, Hy. apply norm_scale.
Qed.

Lemma planarDistance_axis a b :
  b < a -> planarDistance (mkPoint a 0) (mkPoint b 0) = a - b.
Proof.
  intros H. unfold planarDistance. cbn [px py add sub mul sqrt RNum].
  apply sqrt_axis. lra.
Qed.

Lemma planarDistance_same (p : Point R) : planarDistance p p = 0.
Proof.
  unfold planarDistance. cbn [add sub mul sqrt RNum].
  replace ((px p - px p) * (px p - px p) + (py p - py p) * (py p - py p))
    with 0 by ring.
  apply sqrt_0.
Qed.





Section Pair.

Variables (x0 y0 r0 a0 x1 y1 r1 a1 : R).

Let c0 := mkLocalPoint x0 y0 r0 a0.
Let c1 := mkLocalPoint x1 y1 r1 a1.
Let vx := x1 - x0.
Let vy := y1 - y0.
Let d := R_sqrt.sqrt (vx * vx + vy * vy).

Hypothesis Hr0 : 0 <= r0.
Hypothesis Hr1 : 0 <= r1.
Hypothesis Hapart : r0 + r1 <= d.









End Pair.


(* --------------------------------------------------------------------- *)
(** *** Points stay in their disks, the overlap branch apart              *)
(* --------------------------------------------------------------------- *)


Lemma interiorTarget_in_disk (c : LocalPoint R) A B :
  0 <= lradius c -> 1 / 1000000 <= lab2Of A B ->
  inDisk (interiorTarget c A B) c.
Proof.
  intros Hr Hlab. unfold inDisk.
  destruct (interiorTarget_geometry c A B Hr Hlab) as [Hin Hout].
  destruct (Rle_lt_dec
              (planarDistance (closestOnSeg A B (centerOf c)) (centerOf c))
              (lradius c)) as [H|H].
  - rewrite (Hin H). exact H.
  - destruct (Hout H) as [Hd _]. rewrite Hd. lra.
Qed.



End TwoDisks.

(* --------------------------------------------------------------------- *)
(** ** Concrete tasks, over the reals                                     *)
(* --------------------------------------------------------------------- *)

Section Tasks.

Local Open Scope R_scope.

Lemma cos_equator : cos (0 * PI / 180) = 1 /\ cos (2 * 0 * PI / 180) = 1.
Proof.
  split.
  - replace (0 * PI / 180) with 0 by field. apply cos_0.
  - replace (2 * 0 * PI / 180) with 0 by field. apply cos_0.
Qed.

Lemma orZero_real (v : R) : orZero (Some v) = v.
Proof.
  unfold orZero. cbn [truthy zero RNum].
  destruct (Req_dec_T v 0); congruence.
Qed.

Lemma local_point_eq (x y r a x' y' r' a' : R) :
  x = x' -> y = y' -> r = r' -> a = a' ->
  mkLocalPoint x y r a = mkLocalPoint x' y' r' a'.
Proof. intros; subst; reflexivity. Qed.


Lemma outAndReturnTask_local :
  exists tps,
    relevantTPs outAndReturnTask = Some tps
    /\ localPointsOf scaleFactors tps
       = outAndReturn 400 400 (1000196586 / 100000).
Proof.
  exists (turnpoints outAndReturnTask). split; [reflexivity|].
  unfold outAndReturnTask. cbn [turnpoints].
  unfold localPointsOf, scaleFactors, toLocal, outAndReturn, turnpoint.
  cbn [map lat lon alt radius fst snd px py glat glon orZero zero
       add sub mul RNum].
  destruct cos_equator as [-> ->].
  repeat (apply (f_equal2 cons); [apply local_point_eq; lra|]).
  reflexivity.
Qed.













(** C4 -- on the out and return task the three solved points coincide at
    [(400, 0)]: the point solved for the turnpoint is 9601.96586 m from
    the turnpoint's centre, whose radius is 400 m, and the optimized path
    has length 0. *)
Theorem out_and_return_leaves_disk :
  exists tps,
    relevantTPs outAndReturnTask = Some tps
    /\ let lps := localPointsOf scaleFactors tps in
       optimize lps = [mkPoint 400 0; mkPoint 400 0; mkPoint 400 0]
       /\ lradius (nth 1 lps originLocal) = 400
       /\ planarDistance (nth 1 (optimize lps) originPoint)
                         (centerOf (nth 1 lps originLocal))
          = 960196586 / 100000
       /\ pathLength (optimize lps) = 0.
Proof.
  destruct outAndReturnTask_local as (tps & Htps & Hlocal).
  exists tps. split; [exact Htps|]. cbv zeta. rewrite Hlocal.
  rewrite outAndReturn_collapses by lra.
  unfold outAndReturn, centerOf. cbn [nth lx ly lradius].
  split; [reflexivity|]. split; [reflexivity|]. split.
  - rewrite (planarDistance_scaled _ _ (-1) (960196586 / 100000) 0)
      by (cbn [px py]; lra).
    replace (960196586 / 100000 * (960196586 / 100000) + 0 * 0)
      with (960196586 / 100000 * (960196586 / 100000)) by ring.
    rewrite sqrt_square by lra. rewrite Rabs_left by lra. ring.
  - unfold pathLength, calculateTaskDistance.
    cbn [taskDistanceFrom zero add RNum].
    rewrite planarDistance_same. ring.
Qed.

End Tasks.

(* --------------------------------------------------------------------- *)
(** ** The projection and its inverse                                     *)
(* --------------------------------------------------------------------- *)

Section Projection.

Local Open Scope R_scope.

Lemma latlon_eq (a b a' b' : R) :
  a = a' -> b = b' -> mkLatLon a b = mkLatLon a' b'.
Proof. intros; subst; reflexivity. Qed.

(** Away from the poles both factors are positive. *)
Lemma scaleFactors_positive centerLat :
  -90 < centerLat < 90 ->
  0 < fst (scaleFactors centerLat) /\ 0 < snd (scaleFactors centerLat).
Proof.
  intros [Hlo Hhi]. unfold scaleFactors. cbn [fst snd].
  pose proof PI_RGT_0 as Hpi.
  assert (0 < cos (centerLat * PI / 180)) as Hc.
  { apply cos_gt_0; nra. }
  pose proof (COS_bound (2 * centerLat * PI / 180)) as [_ Hc2].
  split; nra.
Qed.

(** X1 -- with the factors of the first [calculateOptimizedPath], fixed at
    the origin's latitude, [fromLocal] undoes [toLocal] exactly, for every
    origin that is not a pole and every point. *)
Theorem roundtrip_first_version (lat0 lon0 plat plon : R) :
  -90 < lat0 < 90 ->
  let kx := fst (scaleFactors lat0) in
  let ky := snd (scaleFactors lat0) in
  let origin := mkLatLon lat0 lon0 in
  let loc := toLocal kx ky origin plon plat in
  fromLocal kx ky origin (px loc) (py loc) = mkLatLon plat plon.
Proof.
  intros Hlat kx ky origin loc.
  destruct (scaleFactors_positive lat0 Hlat) as [Hkx Hky].
  fold kx in Hkx. fold ky in Hky.
  unfold fromLocal, loc, toLocal, origin.
  cbn [px py glat glon add sub mul div RNum].
  apply latlon_eq; field; lra.
Qed.

(** X1, at a concrete origin (46, 8) and point (46.1, 8.1). *)
Lemma roundtrip_first_version_witness :
  let kx := fst (scaleFactors 46) in
  let ky := snd (scaleFactors 46) in
  let origin := mkLatLon 46 8 in
  let loc := toLocal kx ky origin (81 / 10) (461 / 10) in
  fromLocal kx ky origin (px loc) (py loc) = mkLatLon (461 / 10) (81 / 10).
Proof.
  apply (roundtrip_first_version 46 8 (461 / 10) (81 / 10)). lra.
Defined.

Lemma cos_upper a : 0 <= a -> a <= 1 -> cos a <= 1 - a * a / 2 + a * a * a * a / 24.
Proof.
  intros H0 H1.
  assert (a <= PI / 2) as Hhi by (pose proof PI2_3_2; lra).
  assert (- PI / 2 <= a) as Hlo by (pose proof PI_RGT_0; lra).
  pose proof (cos_bound a 0 Hlo Hhi) as [_ Hub].
  unfold cos_approx in Hub. simpl in Hub. unfold cos_term in Hub.
  simpl in Hub. lra.
Qed.

(** C3 -- the projection of the second [calculateOptimizedPath] is not
    undone by its [fromLocal].  From the origin (0, 0), the point at
    latitude 0.6 and longitude 0.6 degrees lies less than 100 km away in
    the local plane; projected and brought back, its longitude is short by
    more than 3 m (measured with the 111132.954 m per degree of the
    origin). *)
Theorem roundtrip_second_version_off :
  let origin := mkLatLon 0 0 in
  let plat := 6 / 10 in
  let plon := 6 / 10 in
  let loc := toLocal2 origin plon plat in
  let back := fromLocal2 origin (px loc) (py loc) in
  planarDistance loc (mkPoint 0 0) < 100000
  /\ 3 < (plon - glon back) * (111132954 / 1000).
Proof.
  cbv zeta. unfold fromLocal2, toLocal2.
  cbn [px py glat glon].
  destruct cos_equator as [Hc0 _]. rewrite Hc0.
  pose proof PI_RGT_0 as Hpi. pose proof PI2_3_2 as Hpi3.
  pose proof PI_4 as Hpi4.
  set (a := 6 / 10 * PI / 180).
  assert (1 / 100 < a < 1 / 70) as Ha by (unfold a; lra).
  pose proof (cos_upper a ltac:(lra) ltac:(lra)) as Hup.
  assert (cos a <= 1 - 49 / 1000000) as Hcos.
  { assert (1 / 10000 < a * a < 1 / 4900) as Haa by nra.
    assert (a * a * a * a < 1 / 24010000) as Ha4 by nra.
    lra. }
  pose proof (COS_bound a) as [_ Hle1].
  assert (0 < cos a) as Hpos by (apply cos_gt_0; lra).
  pose proof (COS_bound (2 * (6 / 10) * PI / 180)) as [Hc2lo Hc2hi].
  split.
  - unfold planarDistance. cbn [px py add sub mul sqrt RNum].
    set (x := (6 / 10 - 0) * (111132954 / 1000 * cos a)).
    set (y := (6 / 10 - 0)
              * (111132954 / 1000
                 - 559822 / 1000 * cos (2 * (6 / 10) * PI / 180))).
    assert (0 <= x <= 66680) as Hx by (unfold x; nra).
    assert (0 <= y <= 67016) as Hy by (unfold y; nra).
    rewrite <- (sqrt_square 100000) by lra.
    apply sqrt_lt_1; nra.
  - replace ((6 / 10 - (0 + (6 / 10 - 0) * (111132954 / 1000 * cos a)
                            / (111132954 / 1000 * 1)))
             * (111132954 / 1000))
      with (6 / 10 * (111132954 / 1000) * (1 - cos a)) by (field; lra).
    nra.
Qed.

End Projection.

(* --------------------------------------------------------------------- *)
(** ** Further concrete inputs                                            *)
(* --------------------------------------------------------------------- *)

Section MoreTasks.

Local Open Scope R_scope.




End MoreTasks.

(* --------------------------------------------------------------------- *)
(** ** Runs in binary64 arithmetic                                        *)
(* --------------------------------------------------------------------- *)

Section FloatRuns.

#[local] Set Warnings "-inexact-float".


(** X4 -- the path that TaskRenderer keeps for drawing has no NaN
    coordinate, whatever Cesium's conversion is: a path with one is
    dropped. *)
Theorem renderedPath_has_no_NaN fromDegrees scale task path :
  renderedPath fromDegrees scale task = Some path ->
  (2 <= List.length path)%nat
  /\ forall p, In p path ->
       PrimFloat.is_nan (fst (fst p)) = false
       /\ PrimFloat.is_nan (snd (fst p)) = false
       /\ PrimFloat.is_nan (snd p) = false.
Proof.
  unfold renderedPath. cbv zeta.
  set (cart := map _ (calculateOptimizedPathWith scale task)).
  destruct (Nat.ltb_spec (List.length cart) 2); [discriminate|].
  destruct (existsb isNaNPoint cart) eqn:E; [discriminate|].
  intros [= <-]. split; [assumption|].
  intros p Hp.
  assert (isNaNPoint p = false) as Hn.
  { destruct (isNaNPoint p) eqn:Ep; [|reflexivity].
    assert (existsb isNaNPoint cart = true) as Ht
      by (apply existsb_exists; exists p; split; assumption).
    congruence. }
  unfold isNaNPoint in Hn.
  apply orb_false_iff in Hn as [Hn Hz].
  apply orb_false_iff in Hn as [Hx Hy].
  repeat split; assumption.
Qed.

(** X4, at a concrete task, with the conversion that keeps its arguments:
    the path is kept. *)
Lemma renderedPath_has_no_NaN_witness :
  exists path,
    renderedPath keepDegrees equatorScale plainFloatTask = Some path
    /\ (2 <= List.length path)%nat
    /\ forall p, In p path ->
         PrimFloat.is_nan (fst (fst p)) = false
         /\ PrimFloat.is_nan (snd (fst p)) = false
         /\ PrimFloat.is_nan (snd p) = false.
Proof.
  destruct (renderedPath keepDegrees equatorScale plainFloatTask)
    as [path|] eqn:E; [|vm_compute in E; discriminate E].
  exists path. split; [reflexivity|].
  exact (renderedPath_has_no_NaN keepDegrees equatorScale plainFloatTask
           path E).
Defined.

(** The poisoned path of [infiniteRadiusTask] is dropped by that caller. *)
Example infinite_radius_not_rendered :
  renderedPath keepDegrees equatorScale infiniteRadiusTask = None.
Proof. vm_compute. reflexivity. Qed.

(** The out and return task in floats: the three returned points are one
    and the same. *)
Example outAndReturn_float :
  exists g,
    calculateOptimizedPathWith equatorScale
      (mkXCTask [floatTurnpoint 0 0 400 SSS;
                 floatTurnpoint 0 0.09 400 TURNPOINT;
                 floatTurnpoint 0 0 400 GOAL])
    = [g; g; g].
Proof. eexists. vm_compute. reflexivity. Qed.

(** Three pairwise disjoint disks: the second pass lengthens the path that
    the first pass produced, and the final path is longer still. *)
Example three_disks_second_pass_longer :
  PrimFloat.ltb (floatLength (relaxed 1 threeDisks) + 0.3)%float
                (floatLength (relaxed 2 threeDisks)) = true
  /\ PrimFloat.ltb (floatLength (relaxed 1 threeDisks) + 0.4)%float
                   (floatLength (optimize threeDisks)) = true.
Proof. split; vm_compute; reflexivity. Qed.

End FloatRuns.

(* --------------------------------------------------------------------- *)
(** ** The second version of the optimizer                                *)
(* --------------------------------------------------------------------- *)

Section SecondVersionShape.

Context {F : Type} {num : Num F}.

Lemma length_updatePoint2 (lps : list (LocalPoint F)) opt i :
  List.length (updatePoint2 lps opt i) = List.length opt.
Proof.
  unfold updatePoint2.
  repeat match goal with
         | |- context [if ?b then _ else _] => destruct b
         end;
    try apply length_setAt; reflexivity.
Qed.

Lemma length_fold_updatePoint2 (lps : list (LocalPoint F)) idx opt :
  List.length (fold_left (updatePoint2 lps) idx opt) = List.length opt.
Proof.
  revert opt. induction idx as [|i idx IH]; intros opt; [reflexivity|].
  cbn [fold_left]. rewrite IH. apply length_updatePoint2.
Qed.

Lemma length_pass2 (lps : list (LocalPoint F)) opt :
  List.length (pass2 lps opt) = List.length opt.
Proof. apply length_fold_updatePoint2. Qed.

Lemma length_relaxed2 k (lps : list (LocalPoint F)) :
  List.length (relaxed2 k lps) = List.length lps.
Proof.
  unfold relaxed2. induction k as [|k IH].
  - cbn [Nat.iter nat_rect]. unfold centers. apply length_map.
  - cbn [Nat.iter nat_rect]. rewrite length_pass2. exact IH.
Qed.

End SecondVersionShape.

Section SecondVersionDisks.

Local Open Scope R_scope.

(** Where the neighbours do not overlap, the second version computes the
    target of the first one: the square root it divides by is positive
    whenever the boundary branch is reached. *)
Lemma interiorTarget2_agrees (c : LocalPoint R) A B :
  1 / 1000000 <= lab2Of A B ->
  interiorTarget2 c A B = interiorTarget c A B.
Proof.
  intros Hlab. unfold interiorTarget2, interiorTarget.
  cbn [ltb leb eps zero sqrt add sub mul div RNum].
  rewrite Rltb_false by lra.
  set (C := mkPoint (lx c) (ly c)). set (Q := closestOnSeg A B C).
  unfold Rleb.
  destruct (Rle_dec ((px Q - px C) * (px Q - px C)
                     + (py Q - py C) * (py Q - py C))
                    (lradius c * lradius c)) as [Hle|Hgt]; [reflexivity|].
  rewrite Rltb_true; [reflexivity|].
  apply sqrt_lt_R0.
  pose proof (Rle_0_sqr (lradius c)) as Hsq. unfold Rsqr in Hsq. lra.
Qed.

Lemma endpointTarget2_in_disk (c : LocalPoint R) other cur :
  0 <= lradius c -> inDisk cur c -> inDisk (endpointTarget2 c other cur) c.
Proof.
  intros Hr Hcur. unfold endpointTarget2.
  change (sqrt ((px other - lx c) * (px other - lx c)
                + (py other - ly c) * (py other - ly c)))%num
    with (planarDistance other (centerOf c)).
  cbn [ltb zero add sub mul div RNum].
  set (len := planarDistance other (centerOf c)).
  unfold Rltb. destruct (Rlt_dec 0 len) as [Hpos|Hzero]; [|exact Hcur].
  unfold inDisk.
  rewrite (planarDistance_scaled _ _ (lradius c / len)
             (px other - lx c) (py other - ly c));
    [|unfold centerOf; cbn [px py]; field; lra ..].
  change (R_sqrt.sqrt ((px other - lx c) * (px other - lx c)
                       + (py other - ly c) * (py other - ly c)))
    with len.
  rewrite Rabs_right.
  - replace (lradius c / len * len) with (lradius c) by (field; lra). lra.
  - apply Rle_ge. apply Rmult_le_pos; [assumption|].
    apply Rlt_le. apply Rinv_0_lt_compat. lra.
Qed.

Lemma updatePoint2_allInDisk (lps : list (LocalPoint R)) opt i :
  (forall j, 0 <= lradius (nth j lps originLocal)) ->
  (i < List.length opt)%nat ->
  allInDisk lps opt -> allInDisk lps (updatePoint2 lps opt i).
Proof.
  intros Hr Hi Hall j Hj. rewrite length_updatePoint2 in Hj.
  destruct (Nat.eq_dec j i) as [->|Hne].
  - unfold updatePoint2.
    destruct ((0 <? i)%nat && (i <? List.length opt - 1)%nat) eqn:Hmid.
    + cbn [ltb eps RNum]. unfold Rltb.
      destruct (Rlt_dec _ _) as [Hov|Hap]; [apply Hall; assumption|].
      rewrite nth_setAt_same by assumption.
      rewrite interiorTarget2_agrees by lra.
      apply interiorTarget_in_disk; [apply Hr|lra].
    + destruct (0 <? i)%nat; [|destruct (i <? List.length opt - 1)%nat];
        rewrite nth_setAt_same by assumption;
        try (apply endpointTarget2_in_disk; [apply Hr|apply Hall; assumption]).
      apply Hall; assumption.
  - assert (nth j (updatePoint2 lps opt i) originPoint = nth j opt originPoint)
      as ->; [|apply Hall; assumption].
    unfold updatePoint2.
    repeat match goal with
           | |- context [if ?b then _ else _] => destruct b
           end;
      try reflexivity; apply nth_setAt_other; auto.
Qed.

Lemma fold_updatePoint2_allInDisk (lps : list (LocalPoint R)) idx opt :
  (forall j, 0 <= lradius (nth j lps originLocal)) ->
  (forall i, In i idx -> (i < List.length opt)%nat) ->
  allInDisk lps opt -> allInDisk lps (fold_left (updatePoint2 lps) idx opt).
Proof.
  intros Hr. revert opt.
  induction idx as [|i idx IH]; intros opt Hidx Hall; [exact Hall|].
  cbn [fold_left]. apply IH.
  - intros j Hj. rewrite length_updatePoint2. apply Hidx. right. exact Hj.
  - apply updatePoint2_allInDisk; [assumption| |assumption].
    apply Hidx. left. reflexivity.
Qed.

Lemma radii_nonneg_nth (lps : list (LocalPoint R)) :
  (forall c, In c lps -> 0 <= lradius c) ->
  forall j, 0 <= lradius (nth j lps originLocal).
Proof.
  intros H j. destruct (Nat.lt_ge_cases j (List.length lps)) as [Hj|Hj].
  - apply H. apply nth_In. exact Hj.
  - rewrite nth_overflow by assumption. cbn. lra.
Qed.

(** X8 -- in the second version of the optimizer every point of the
    working path lies inside or on the disk of its own constraint after
    every number of passes, whatever the number of constraints, provided
    no radius is negative; so does every point of the returned path. *)
Theorem second_version_in_disks (lps : list (LocalPoint R)) :
  (forall c, In c lps -> 0 <= lradius c) ->
  (forall k i, (i < List.length lps)%nat ->
     inDisk (nth i (relaxed2 k lps) originPoint) (nth i lps originLocal))
  /\ (forall i, (i < List.length lps)%nat ->
        inDisk (nth i (optimize2 lps) originPoint) (nth i lps originLocal)).
Proof.
  intros Hr. pose proof (radii_nonneg_nth lps Hr) as Hrn.
  assert (forall k, allInDisk lps (relaxed2 k lps)) as Hall.
  { induction k as [|k IH].
    - intros i Hi. unfold relaxed2 in *. cbn [Nat.iter nat_rect] in *.
      unfold centers in *. rewrite length_map in Hi.
      change originPoint
        with ((fun p : LocalPoint R => mkPoint (lx p) (ly p)) originLocal).
      rewrite map_nth. unfold inDisk.
      change (mkPoint (lx (nth i lps originLocal)) (ly (nth i lps originLocal)))
        with (centerOf (nth i lps originLocal)).
      rewrite planarDistance_same. apply Hrn.
    - change (relaxed2 (S k) lps) with (pass2 lps (relaxed2 k lps)).
      unfold pass2. apply fold_updatePoint2_allInDisk; [assumption| |exact IH].
      intros i Hi. apply in_seq in Hi. lia. }
  split.
  - intros k i Hi. apply Hall. rewrite length_relaxed2. exact Hi.
  - intros i Hi. apply Hall. rewrite length_relaxed2. exact Hi.
Qed.

End SecondVersionDisks.

Section SecondVersionRuns.

Local Open Scope R_scope.

Lemma pass2_three {F : Type} {num : Num F} (c0 c1 c2 : LocalPoint F)
  (p0 p1 p2 : Point F) :
  pass2 [c0; c1; c2] [p0; p1; p2]
  = let q0 := endpointTarget2 c0 p1 p0 in
    let q1 := if ltb (lab2Of q0 p2) eps then p1 else interiorTarget2 c1 q0 p2 in
    let q2 := endpointTarget2 c2 q1 p2 in
    [q0; q1; q2].
Proof.
  unfold pass2. cbn [List.length seq fold_left].
  unfold updatePoint2.
  cbn [Nat.ltb Nat.leb Nat.sub Nat.add List.length andb nth setAt].
  destruct (ltb _ eps); reflexivity.
Qed.

Lemma relaxed2_fixed {F : Type} {num : Num F} (lps : list (LocalPoint F)) k s :
  relaxed2 k lps = s -> pass2 lps s = s ->
  forall j, relaxed2 (k + j) lps = s.
Proof.
  intros Hk Hfix j. induction j as [|j IH].
  - rewrite Nat.add_0_r. exact Hk.
  - rewrite Nat.add_succ_r.
    change (relaxed2 (S (k + j)) lps) with (pass2 lps (relaxed2 (k + j) lps)).
    rewrite IH. exact Hfix.
Qed.

Lemma endpointTarget2_right cx r ox cur :
  0 < ox - cx ->
  endpointTarget2 (mkLocalPoint cx 0 r 0) (mkPoint ox 0) cur
  = mkPoint (cx + r) 0.
Proof.
  intros H. unfold endpointTarget2.
  cbn [lx ly lradius px py add sub mul div sqrt ltb zero RNum].
  rewrite sqrt_axis by lra. rewrite Rltb_true by lra.
  f_equal; field; lra.
Qed.

Lemma outAndReturn2_first_pass r r1 x1 :
  1 / 1000 <= r -> 0 <= r1 -> r + r1 < x1 ->
  relaxed2 1 (outAndReturn r r1 x1)
  = [mkPoint r 0; mkPoint (x1 - r1) 0; mkPoint r 0].
Proof.
  intros Hr Hr1 Hx. unfold relaxed2, outAndReturn, centers.
  cbn [Nat.iter nat_rect map lx ly]. rewrite pass2_three. cbv zeta.
  rewrite endpointTarget2_right by lra.
  replace (0 + r) with r by ring.
  assert (1 / 1000000 <= lab2Of (mkPoint r 0) (mkPoint 0 0)) as Hlab
    by (unfold lab2Of; cbn [px py add sub mul RNum]; nra).
  cbn [ltb eps RNum]. rewrite Rltb_false by lra.
  rewrite interiorTarget2_agrees by exact Hlab.
  rewrite interiorTarget_left by nra.
  rewrite endpointTarget2_right by lra.
  replace (0 + r) with r by ring. reflexivity.
Qed.

Lemma outAndReturn2_fixed r r1 x1 :
  0 < r -> 0 <= r1 -> r + r1 < x1 ->
  pass2 (outAndReturn r r1 x1) [mkPoint r 0; mkPoint (x1 - r1) 0; mkPoint r 0]
  = [mkPoint r 0; mkPoint (x1 - r1) 0; mkPoint r 0].
Proof.
  intros Hr Hr1 Hx. unfold outAndReturn. rewrite pass2_three. cbv zeta.
  rewrite endpointTarget2_right by lra.
  replace (0 + r) with r by ring.
  cbn [ltb eps RNum]. rewrite Rltb_true
    by (unfold lab2Of; cbn [px py add sub mul RNum]; nra).
  rewrite endpointTarget2_right by lra.
  replace (0 + r) with r by ring. reflexivity.
Qed.

Lemma planarDistance_sym (p q : Point R) :
  planarDistance p q = planarDistance q p.
Proof.
  unfold planarDistance. cbn [add sub mul sqrt RNum]. f_equal. ring.
Qed.

Lemma pathLength_three p q s :
  pathLength [p; q; s] = planarDistance p q + planarDistance q s.
Proof.
  unfold pathLength, calculateTaskDistance.
  cbn [taskDistanceFrom zero add RNum]. ring.
Qed.

(** X9 -- on an out-and-return task (start and end the same disk of
    radius [r] at the origin, the turnpoint of radius [r1] at distance
    [x1] on the axis, the disks apart) the second version returns the
    start point on the start circle, the turnpoint touched at the nearest
    point of its circle and the end point on the start circle again: the
    path goes out and back, with length [2 * (x1 - r1 - r)]. *)
Theorem second_version_out_and_return r r1 x1 :
  1 / 1000 <= r -> 0 <= r1 -> r + r1 < x1 ->
  optimize2 (outAndReturn r r1 x1)
  = [mkPoint r 0; mkPoint (x1 - r1) 0; mkPoint r 0]
  /\ pathLength (optimize2 (outAndReturn r r1 x1)) = 2 * (x1 - r1 - r).
Proof.
  intros Hr Hr1 Hx.
  assert (optimize2 (outAndReturn r r1 x1)
          = [mkPoint r 0; mkPoint (x1 - r1) 0; mkPoint r 0]) as Hopt.
  { unfold optimize2, ITERATIONS2. change 20%nat with (1 + 19)%nat.
    apply relaxed2_fixed.
    - apply outAndReturn2_first_pass; assumption.
    - apply outAndReturn2_fixed; [lra|assumption ..]. }
  split; [exact Hopt|]. rewrite Hopt.
  rewrite pathLength_three.
  rewrite (planarDistance_sym (mkPoint r 0)).
  rewrite !planarDistance_axis by lra. ring.
Qed.

Lemma second_version_out_and_return_witness :
  optimize2 (outAndReturn 400 400 10000)
  = [mkPoint 400 0; mkPoint (10000 - 400) 0; mkPoint 400 0]
  /\ pathLength (optimize2 (outAndReturn 400 400 10000))
     = 2 * (10000 - 400 - 400).
Proof. apply (second_version_out_and_return 400 400 10000); lra. Defined.

Lemma length_localPointsOf2 tps :
  List.length (localPointsOf2 tps) = List.length tps.
Proof. unfold localPointsOf2. apply length_map. Qed.

(** X10 -- the second version returns one point per turnpoint of the
    task, whatever their types: the empty path for fewer than two
    turnpoints, and otherwise exactly as many points as the task has
    turnpoints. *)
Theorem second_version_point_per_turnpoint (task : XCTask R) :
  List.length (calculateOptimizedPath2 task)
  = if (List.length (turnpoints task) <? 2)%nat then 0%nat
    else List.length (turnpoints task).
Proof.
  unfold calculateOptimizedPath2.
  destruct (List.length (turnpoints task) <? 2)%nat; [reflexivity|].
  rewrite length_map, length_combine.
  unfold optimize2. rewrite length_relaxed2, length_localPointsOf2.
  apply Nat.min_id.
Qed.

(** X8, at three disks in line. *)
Lemma second_version_in_disks_witness :
  (forall k i, (i < List.length threeInLine)%nat ->
     inDisk (nth i (relaxed2 k threeInLine) originPoint)
            (nth i threeInLine originLocal))
  /\ (forall i, (i < List.length threeInLine)%nat ->
        inDisk (nth i (optimize2 threeInLine) originPoint)
               (nth i threeInLine originLocal)).
Proof.
  apply (second_version_in_disks threeInLine).
  intros c [<-|[<-|[<-|[]]]]; cbn [lradius]; lra.
Defined.

(* --------------------------------------------------------------------- *)
(** ** The length of a path ([calculateTaskDistance])                     *)
(* --------------------------------------------------------------------- *)

Lemma taskDistanceFrom_acc {P : Type} (d : P -> P -> R) acc points :
  taskDistanceFrom d acc points = acc + taskDistanceFrom d 0 points.
Proof.
  revert acc. induction points as [|a rest IH]; intros acc.
  - cbn [taskDistanceFrom]. ring.
  - cbn [taskDistanceFrom]. destruct rest as [|b rest']; [ring|].
    rewrite IH. rewrite (IH (add 0 (d a b))). cbn [add RNum]. ring.
Qed.

Lemma taskDistance_cons {P : Type} (d : P -> P -> R) a b rest :
  calculateTaskDistance d (a :: b :: rest)
  = d a b + calculateTaskDistance d (b :: rest).
Proof.
  unfold calculateTaskDistance.
  change (taskDistanceFrom d zero (a :: b :: rest))
    with (taskDistanceFrom d (add zero (d a b)) (b :: rest)).
  rewrite taskDistanceFrom_acc. cbn [zero add RNum]. ring.
Qed.

Lemma taskDistance_one {P : Type} (d : P -> P -> R) a :
  calculateTaskDistance d [a] = 0.
Proof. reflexivity. Qed.

(** X11 -- the length of a path is the sum of the lengths of its two
    parts when it is cut at any of its points (the cut point ends the
    first part and starts the second), for any distance function. *)
Theorem taskDistance_split {P : Type} (d : P -> P -> R) l a m :
  calculateTaskDistance d (l ++ a :: m)
  = calculateTaskDistance d (l ++ [a]) + calculateTaskDistance d (a :: m).
Proof.
  induction l as [|x l IH].
  - cbn [app]. rewrite taskDistance_one. ring.
  - destruct l as [|y l'].
    + cbn [app]. rewrite !taskDistance_cons, taskDistance_one. ring.
    + cbn [app] in *. rewrite !taskDistance_cons. rewrite IH. ring.
Qed.

Lemma planarDistance_triangle (p q s : Point R) :
  planarDistance p s <= planarDistance p q + planarDistance q s.
Proof.
  pose proof (triangle (px p) (py p) (px s) (py s) (px q) (py q)) as H.
  unfold dist_euc, Rsqr in H. exact H.
Qed.

Lemma planarDistance_nonneg (p q : Point R) : 0 <= planarDistance p q.
Proof. unfold planarDistance. cbn [sqrt RNum]. apply sqrt_pos. Qed.

(** X12 -- for a distance that is never negative and obeys the triangle
    inequality (as the chord distance of Cesium and the distance of the
    local plane do), the length of a path is never negative and never
    less than the distance from its first to its last point. *)
Theorem taskDistance_lower_bound {P : Type} (d : P -> P -> R) :
  (forall p q, 0 <= d p q) ->
  (forall p q s, d p s <= d p q + d q s) ->
  forall a l b,
    0 <= calculateTaskDistance d (a :: l ++ [b])
    /\ d a b <= calculateTaskDistance d (a :: l ++ [b]).
Proof.
  intros Hpos Htri a l. revert a.
  induction l as [|x l IH]; intros a b.
  - cbn [app]. rewrite taskDistance_cons, taskDistance_one.
    pose proof (Hpos a b). lra.
  - cbn [app]. rewrite taskDistance_cons.
    destruct (IH x b) as [H0 H1].
    pose proof (Hpos a x). pose proof (Htri a x b). lra.
Qed.

Lemma taskDistance_lower_bound_witness :
  0 <= pathLength (mkPoint 0 0 :: [mkPoint 3 4] ++ [mkPoint 6 0])
  /\ planarDistance (mkPoint 0 0) (mkPoint 6 0)
     <= pathLength (mkPoint 0 0 :: [mkPoint 3 4] ++ [mkPoint 6 0]).
Proof.
  apply (taskDistance_lower_bound planarDistance
           planarDistance_nonneg planarDistance_triangle).
Defined.

End SecondVersionRuns.

(* --------------------------------------------------------------------- *)
(** ** The cylinders drawn for a task                                     *)
(* --------------------------------------------------------------------- *)

Section Cylinders.

#[local] Set Warnings "-inexact-float".

Lemma nth_error_indexed {A B : Type} (f : A -> nat -> B) (l : list A) s k :
  nth_error
    (map (fun ix => f (snd ix) (fst ix)) (combine (seq s (List.length l)) l)) k
  = option_map (fun x => f x (s + k)%nat) (nth_error l k).
Proof.
  revert s k. induction l as [|a l IH]; intros s k.
  - destruct k; reflexivity.
  - destruct k as [|k].
    + cbn. rewrite Nat.add_0_r. reflexivity.
    + cbn [List.length seq combine map nth_error fst snd].
      rewrite IH. rewrite Nat.add_succ_r. reflexivity.
Qed.

Lemma nth_error_mapWithIndex {A B : Type} (f : A -> nat -> B) (l : list A) k :
  nth_error (mapWithIndex f l) k = option_map (fun x => f x k) (nth_error l k).
Proof. unfold mapWithIndex. apply nth_error_indexed. Qed.

Lemma length_mapWithIndex {A B : Type} (f : A -> nat -> B) (l : list A) :
  List.length (mapWithIndex f l) = List.length l.
Proof.
  unfold mapWithIndex. rewrite length_map, length_combine, length_seq.
  apply Nat.min_id.
Qed.

(** X13 -- [getTaskCylinders] draws one cylinder per turnpoint, in order.
    The cylinder of turnpoint [k] has the turnpoint's radius when that is
    a number other than 0 and NaN and the default 400 otherwise, so no
    cylinder is drawn with radius 0 or NaN; it is green exactly for the
    first turnpoint, red exactly for the last one of a task of two or
    more, and yellow otherwise. *)
Theorem cylinder_of_turnpoint (task : XCTask float) k tp :
  nth_error (turnpoints task) k = Some tp ->
  List.length (getTaskCylinders (Some task)) = List.length (turnpoints task)
  /\ exists c,
       nth_error (getTaskCylinders (Some task)) k = Some c
       /\ truthy (cradius c) = true
       /\ (truthy (radius tp) = true -> cradius c = radius tp)
       /\ (truthy (radius tp) = false -> cradius c = 400%float)
       /\ (color c = GREEN <-> k = 0%nat)
       /\ (color c = RED
           <-> k <> 0%nat /\ k = (List.length (turnpoints task) - 1)%nat).
Proof.
  intros Hk. unfold getTaskCylinders.
  split; [apply length_mapWithIndex|].
  rewrite nth_error_mapWithIndex, Hk. cbn [option_map].
  eexists. split; [reflexivity|]. cbn [cradius color].
  repeat split.
  - destruct (truthy (radius tp)) eqn:Ht; [exact Ht|reflexivity].
  - intros ->. reflexivity.
  - intros ->. reflexivity.
  - destruct (Nat.eqb_spec k 0); [auto|].
    destruct (k =? _)%nat; discriminate.
  - intros ->. reflexivity.
  - destruct (Nat.eqb_spec k 0); [discriminate|auto].
  - destruct (Nat.eqb_spec k 0); [discriminate|].
    destruct (Nat.eqb_spec k (List.length (turnpoints task) - 1));
      [auto|discriminate].
  - intros [H0 Hl]. destruct (Nat.eqb_spec k 0); [contradiction|].
    destruct (Nat.eqb_spec k (List.length (turnpoints task) - 1));
      [reflexivity|contradiction].
Qed.

(** X13, at the goal of [plainFloatTask]. *)
Lemma cylinder_of_turnpoint_witness :
  List.length (getTaskCylinders (Some plainFloatTask)) = 2%nat
  /\ exists c,
       nth_error (getTaskCylinders (Some plainFloatTask)) 1 = Some c
       /\ truthy (cradius c) = true
       /\ (truthy 400%float = true -> cradius c = 400%float)
       /\ (truthy 400%float = false -> cradius c = 400%float)
       /\ (color c = GREEN <-> 1%nat = 0%nat)
       /\ (color c = RED <-> 1%nat <> 0%nat /\ 1%nat = 1%nat).
Proof.
  apply (cylinder_of_turnpoint plainFloatTask 1
           (floatTurnpoint 0 0.09 400 GOAL)).
  reflexivity.
Defined.

End Cylinders.

(* --------------------------------------------------------------------- *)
(** ** Altitudes of the returned path                                     *)
(* --------------------------------------------------------------------- *)

Section Heights.

Context {F : Type} {num : Num F}.

Lemma orZero_twice (a : option F) : orZero (Some (orZero a)) = orZero a.
Proof.
  unfold orZero. destruct a as [v|].
  - destruct (truthy v) eqn:Hv; [rewrite Hv; reflexivity|].
    destruct (truthy zero); reflexivity.
  - destruct (truthy zero); reflexivity.
Qed.

Lemma map_snd_combine {A B C : Type} (g : B -> C) (l1 : list A) :
  forall l2 : list B, List.length l1 = List.length l2 ->
  map (fun pl => g (snd pl)) (combine l1 l2) = map g l2.
Proof.
  induction l1 as [|a l1 IH]; intros [|b l2] Hlen; try discriminate Hlen.
  - reflexivity.
  - cbn [combine map snd]. rewrite IH by (cbn in Hlen; lia). reflexivity.
Qed.

(** X14 -- the optimizer moves points in the plane only: the height of the
    k-th returned point is the altitude of the k-th turnpoint of the
    optimized range, and 0 where that altitude is missing, zero or NaN. *)
Theorem path_heights_are_altitudes (scale : F -> F * F) (task : XCTask F) tps :
  relevantTPs task = Some tps ->
  map height (calculateOptimizedPathWith scale task)
  = map (fun tp => orZero (alt tp)) tps.
Proof.
  intros Hrel. unfold calculateOptimizedPathWith. rewrite Hrel. cbv zeta.
  rewrite map_map. cbn [height].
  rewrite (map_snd_combine (fun lp => orZero (Some (lalt lp))))
    by (rewrite length_optimize; reflexivity).
  unfold localPointsOf. rewrite map_map. cbn [lalt].
  apply map_ext. intros tp. apply orZero_twice.
Qed.

End Heights.

(** X14, at [takeoffTask]: its two optimized turnpoints carry no altitude,
    both returned heights are 0. *)
Lemma path_heights_are_altitudes_witness :
  map height (calculateOptimizedPath takeoffTask) = [0%R; 0%R].
Proof.
  unfold calculateOptimizedPath.
  rewrite (path_heights_are_altitudes scaleFactors takeoffTask
             [turnpoint 0 (1 / 100) 1000 SSS; turnpoint 0 (9 / 100) 400 ESS]
             eq_refl).
  reflexivity.
Defined.

End OptimizationProofs.

(* ===================================================================== *)
(** * Properties of the tracks on the time line                           *)
(* ===================================================================== *)

Module TracksProofs.

Import Metrics Tracks MetricsProofs.
Local Open Scope Z_scope.

(* --------------------------------------------------------------------- *)
(** ** The listener                                                       *)
(* --------------------------------------------------------------------- *)

Section ListenerFacts.

Context {cesium : Cesium}.

Lemma updates_spaced tracks d lastUpdate ticks :
  let out := updates tracks d lastUpdate ticks in
  (forall a, In a out -> lastUpdate + 500 <= fst a)
  /\ (forall i a b, nth_error out i = Some a -> nth_error out (S i) = Some b ->
        fst a + 500 <= fst b)
  /\ (forall n s, In (n, s) out ->
        exists cur, In (n, cur) ticks /\ s = statsListener tracks cur d).
Proof.
  revert lastUpdate. induction ticks as [|[now cur] rest IH]; intros lu.
  - cbn. split; [|split]; try contradiction.
    intros [|i] a b H; discriminate H.
  - cbn [updates]. unfold onTick.
    destruct (Z.ltb_spec (now - lu) 500) as [Hlt|Hge].
    + destruct (IH lu) as (H1 & H2 & H3). split; [|split]; auto.
      intros n s Hin. destruct (H3 n s Hin) as (c & Hc & Hs).
      exists c. split; [right; exact Hc|exact Hs].
    + destruct (IH now) as (H1 & H2 & H3). split; [|split].
      * intros a [<-|Hin]; [cbn; lia|]. specialize (H1 a Hin). lia.
      * intros [|i] a b Ha Hb.
        -- cbn in Ha. injection Ha as <-. cbn [fst].
           apply (H1 b). cbn in Hb.
           apply (nth_error_In _ 0). exact Hb.
        -- cbn in Ha, Hb. apply (H2 i); assumption.
      * intros n s [Heq|Hin].
        -- injection Heq as <- <-. exists cur. split; [left|]; reflexivity.
        -- destruct (H3 n s Hin) as (c & Hc & Hs).
           exists c. split; [right; exact Hc|exact Hs].
Qed.

(** X15 -- over any run of clock ticks, two successive calls of
    [onStatsUpdate] are at least 500 ms of wall-clock time apart (also
    when the wall clock steps back in between), and each call carries the
    statistics computed for the clock time of its own tick. *)
Theorem updates_throttled tracks d ticks :
  (forall i a b,
     nth_error (updates tracks d 0 ticks) i = Some a ->
     nth_error (updates tracks d 0 ticks) (S i) = Some b ->
     fst a + 500 <= fst b)
  /\ (forall n s, In (n, s) (updates tracks d 0 ticks) ->
        500 <= n
        /\ exists cur, In (n, cur) ticks /\ s = statsListener tracks cur d).
Proof.
  destruct (updates_spaced tracks d 0 ticks) as (H1 & H2 & H3).
  split; [exact H2|]. intros n s Hin. split; [|apply H3; exact Hin].
  specialize (H1 (n, s) Hin). cbn in H1. lia.
Qed.

(** The step of [statsListener] for one track. *)
Lemma statsListener_fold tracks T d acc :
  let step := fun newStats track =>
    match trackStats (fixes track) (T - timeOffset track d) with
    | Some s =>
        (filename track, s)
        :: filter (fun e => negb (String.eqb (fst e) (filename track))) newStats
    | None => newStats
    end in
  let out := fold_left step tracks acc in
  (NoDup (map fst acc) -> NoDup (map fst out))
  /\ (forall n s, In (n, s) out ->
        In (n, s) acc
        \/ exists track, In track tracks /\ filename track = n
             /\ trackStats (fixes track) (T - timeOffset track d) = Some s)
  /\ (forall n, In n (map fst acc) -> In n (map fst out))
  /\ (forall track s, In track tracks ->
        trackStats (fixes track) (T - timeOffset track d) = Some s ->
        In (filename track) (map fst out)).
Proof.
  intros step. revert acc.
  induction tracks as [|track rest IH]; intros acc.
  - cbn. repeat split; auto. intros track s [].
  - cbn [fold_left].
    destruct (IH (step acc track)) as (Hnd & Hin & Hkeep & Hall).
    assert (forall n, In n (map fst acc) -> In n (map fst (step acc track)))
      as Hstep_keep.
    { intros n Hn. unfold step.
      destruct (trackStats _ _) as [s|]; [|exact Hn].
      cbn [map fst]. destruct (String.eqb_spec n (filename track)) as [->|Hne];
        [left; reflexivity|right].
      apply in_map_iff in Hn. destruct Hn as ([n' s'] & Hf & Hin').
      cbn in Hf. subst n'. apply in_map_iff. exists (n, s').
      split; [reflexivity|]. apply filter_In. split; [exact Hin'|].
      cbn. apply negb_true_iff. apply String.eqb_neq. exact Hne. }
    repeat split.
    + intros Hacc. apply Hnd. unfold step.
      destruct (trackStats _ _) as [s|]; [|exact Hacc].
      cbn [map fst]. constructor.
      * intros Hn. apply in_map_iff in Hn.
        destruct Hn as ([n' s'] & Hf & Hin'). cbn in Hf. subst n'.
        apply filter_In in Hin'. destruct Hin' as [_ Hneq]. cbn in Hneq.
        rewrite String.eqb_refl in Hneq. discriminate.
      * clear - Hacc. induction acc as [|[n' s'] acc IHacc]; [constructor|].
        cbn [filter fst]. inversion Hacc as [|? ? Hnot Hrest]; subst.
        destruct (negb _); [|apply IHacc; exact Hrest].
        cbn [map fst]. constructor; [|apply IHacc; exact Hrest].
        intros Hn. apply Hnot. apply in_map_iff in Hn.
        destruct Hn as (e & He & Hine). apply filter_In in Hine.
        apply in_map_iff. exists e. tauto.
    + intros n s Hout. destruct (Hin n s Hout) as [Hacc|(t & Ht & Hn & Hs)].
      * unfold step in Hacc.
        destruct (trackStats (fixes track) _) as [s0|] eqn:Hts.
        -- destruct Hacc as [Heq|Hf].
           ++ injection Heq as <- <-. right. exists track.
              split; [left; reflexivity|]. split; [reflexivity|exact Hts].
           ++ apply filter_In in Hf. left. tauto.
        -- left. exact Hacc.
      * right. exists t. split; [right; exact Ht|]. tauto.
    + intros n Hn. apply Hkeep. apply Hstep_keep. exact Hn.
    + intros t s [<-|Ht] Hs.
      * apply Hkeep. unfold step. rewrite Hs. left. reflexivity.
      * apply (Hall t s Ht Hs).
Qed.

(** X16 -- the map that one run of statsListener hands to
    [onStatsUpdate] has one entry per file name at most; each entry is the
    sample of a loaded track of that name at the current track time, and
    every track for which a sample exists has an entry under its name. *)
Theorem statsListener_entries tracks T d :
  NoDup (map fst (statsListener tracks T d))
  /\ (forall n s, In (n, s) (statsListener tracks T d) ->
        exists track, In track tracks /\ filename track = n
          /\ trackStats (fixes track) (T - timeOffset track d) = Some s)
  /\ (forall track s, In track tracks ->
        trackStats (fixes track) (T - timeOffset track d) = Some s ->
        exists s', In (filename track, s') (statsListener tracks T d)).
Proof.
  destruct (statsListener_fold tracks T d []) as (Hnd & Hin & _ & Hall).
  fold (statsListener tracks T d) in Hnd, Hin, Hall.
  split; [apply Hnd; constructor|]. split.
  - intros n s Hout. destruct (Hin n s Hout) as [[]|H]. exact H.
  - intros track s Ht Hs. specialize (Hall track s Ht Hs).
    apply in_map_iff in Hall. destruct Hall as ([n s'] & Hf & Hin').
    cbn in Hf. subst n. exists s'. exact Hin'.
Qed.

End ListenerFacts.

(* --------------------------------------------------------------------- *)
(** ** Entities and the clock range                                       *)
(* --------------------------------------------------------------------- *)

Section EntityFacts.

Context {cesium : Cesium}.

Lemma tsAt_nth_error fixes i f :
  nth_error fixes i = Some f -> tsAt fixes (Z.of_nat i) = timestamp f.
Proof.
  intros H. unfold tsAt, fixAt.
  destruct (Z.ltb_spec (Z.of_nat i) 0) as [Hneg|_]; [lia|].
  rewrite Nat2Z.id, H. reflexivity.
Qed.

Lemma nth_error_last {A : Type} (l : list A) (d : A) :
  l <> [] -> nth_error l (List.length l - 1) = Some (last l d).
Proof.
  induction l as [|a l IH]; [congruence|]. intros _.
  destruct l as [|b l'].
  - reflexivity.
  - assert (List.length (a :: b :: l') - 1
            = S (List.length (b :: l') - 1))%nat as ->
      by (cbn [List.length]; lia).
    change (last (a :: b :: l') d) with (last (b :: l') d).
    cbn [nth_error]. apply IH. discriminate.
Qed.

Lemma ascending_bounds fixes first rest f :
  fixes = first :: rest -> ascending fixes -> In f fixes ->
  timestamp first <= timestamp f <= timestamp (last fixes first).
Proof.
  intros Hfix Hasc Hin.
  apply In_nth_error in Hin. destruct Hin as [i Hi].
  assert (i < List.length fixes)%nat as Hlt
    by (apply nth_error_Some; congruence).
  assert (nth_error fixes 0 = Some first) as H0 by (rewrite Hfix; reflexivity).
  assert (nth_error fixes (List.length fixes - 1) = Some (last fixes first))
    as Hl by (apply nth_error_last; rewrite Hfix; discriminate).
  rewrite <- (tsAt_nth_error _ _ _ H0), <- (tsAt_nth_error _ _ _ Hi),
    <- (tsAt_nth_error _ _ _ Hl).
  split; apply Hasc; lia.
Qed.

(** X17 -- for a time-ascending track, when the entity gets a start and a
    stop time (the track is not empty and neither its first nor its last
    timestamp is 0), every position sample of the entity is stamped
    between them, and the start and the stop time are themselves the
    times of samples: the range is the exact span of the samples. *)
Theorem entity_samples_in_range (track : IGCFile) (d s e : Z) :
  ascending (fixes track) ->
  startTime (trackEntity track d) = Some s ->
  stopTime (trackEntity track d) = Some e ->
  (forall t p, In (t, p) (samples (trackEntity track d)) -> s <= t <= e)
  /\ (exists p, In (s, p) (samples (trackEntity track d)))
  /\ (exists p, In (e, p) (samples (trackEntity track d))).
Proof.
  intros Hasc Hs He. unfold trackEntity in *.
  cbn [startTime stopTime samples] in *.
  set (off := timeOffset track d) in *. clearbody off.
  destruct (fixes track) as [|first rest] eqn:Hfix; [discriminate|].
  set (lastFix := last (first :: rest) first) in *.
  destruct (timestampTruthy (timestamp first)
            && timestampTruthy (timestamp lastFix))
    eqn:Htruthy; [|discriminate].
  cbn [option_map fst snd] in Hs, He. injection Hs as <-. injection He as <-.
  apply andb_true_iff in Htruthy. destruct Htruthy as [Hf Hl].
  assert (In lastFix (first :: rest)) as Hlast.
  { apply (nth_error_In _ (List.length (first :: rest) - 1)).
    apply nth_error_last. discriminate. }
  split; [|split].
  - intros t p Hin. apply in_map_iff in Hin.
    destruct Hin as (f & Heq & Hfin). injection Heq as <- _.
    apply filter_In in Hfin. destruct Hfin as [Hfin _].
    pose proof (ascending_bounds _ _ _ f eq_refl Hasc Hfin) as Hb.
    fold lastFix in Hb. lia.
  - eexists. apply in_map_iff. exists first. split; [reflexivity|].
    apply filter_In. split; [left; reflexivity|exact Hf].
  - eexists. apply in_map_iff. exists lastFix.
    split; [reflexivity|]. apply filter_In. split; [exact Hlast|exact Hl].
Qed.

Lemma globalRange_fold (l : list TrackEntity) (range : option Z * option Z) :
  let step := fun (range : option Z * option Z) (t : TrackEntity) =>
    match startTime t, stopTime t with
    | Some start, Some stop =>
        (match fst range with
         | None => Some start
         | Some minStart =>
             if start <? minStart then Some start else Some minStart
         end,
         match snd range with
         | None => Some stop
         | Some maxStop =>
             if maxStop <? stop then Some stop else Some maxStop
         end)
    | _, _ => range
    end in
  let out := fold_left step l range in
  (forall m, fst range = Some m -> exists lo, fst out = Some lo /\ lo <= m)
  /\ (forall m, snd range = Some m -> exists hi, snd out = Some hi /\ m <= hi)
  /\ (forall t s e, In t l -> startTime t = Some s -> stopTime t = Some e ->
        exists lo hi, fst out = Some lo /\ snd out = Some hi
                      /\ lo <= s /\ e <= hi)
  /\ (forall lo, fst out = Some lo ->
        fst range = Some lo \/ exists t, In t l /\ startTime t = Some lo
                                         /\ stopTime t <> None)
  /\ (forall hi, snd out = Some hi ->
        snd range = Some hi \/ exists t, In t l /\ stopTime t = Some hi
                                         /\ startTime t <> None).
Proof.
  intros step. revert range.
  induction l as [|t l IH]; intros range.
  - cbn. repeat split.
    + intros m Hm. exists m. split; [exact Hm|lia].
    + intros m Hm. exists m. split; [exact Hm|lia].
    + intros t s e [].
    + auto.
    + auto.
  - cbn [fold_left].
    destruct (IH (step range t)) as (Hlo & Hhi & Hcov & Hlot & Hhit).
    assert (forall m, fst range = Some m ->
              exists m', fst (step range t) = Some m' /\ m' <= m) as Hs1.
    { intros m Hm. unfold step.
      destruct (startTime t) as [s|]; [|exists m; split; [exact Hm|lia]].
      destruct (stopTime t) as [e|]; [|exists m; split; [exact Hm|lia]].
      cbn [fst]. rewrite Hm.
      destruct (Z.ltb_spec s m); eexists; split; try reflexivity; lia. }
    assert (forall m, snd range = Some m ->
              exists m', snd (step range t) = Some m' /\ m <= m') as Hs2.
    { intros m Hm. unfold step.
      destruct (startTime t) as [s|]; [|exists m; split; [exact Hm|lia]].
      destruct (stopTime t) as [e|]; [|exists m; split; [exact Hm|lia]].
      cbn [snd]. rewrite Hm.
      destruct (Z.ltb_spec m e); eexists; split; try reflexivity; lia. }
    repeat split.
    + intros m Hm. destruct (Hs1 m Hm) as (m' & Hm' & Hle).
      destruct (Hlo m' Hm') as (lo & Hl & Hle'). exists lo. split; [exact Hl|lia].
    + intros m Hm. destruct (Hs2 m Hm) as (m' & Hm' & Hle).
      destruct (Hhi m' Hm') as (hi & Hh & Hle'). exists hi. split; [exact Hh|lia].
    + intros t' s e [<-|Hin] Hs He; [|apply (Hcov t' s e Hin Hs He)].
      assert (exists m1 m2, fst (step range t) = Some m1
                            /\ snd (step range t) = Some m2
                            /\ m1 <= s /\ e <= m2) as (m1 & m2 & H1 & H2 & L1 & L2).
      { unfold step. rewrite Hs, He. cbn [fst snd].
        destruct (fst range) as [a|]; destruct (snd range) as [b|];
          try destruct (Z.ltb_spec s a); try destruct (Z.ltb_spec b e);
          do 2 eexists; repeat split; try reflexivity; lia. }
      destruct (Hlo m1 H1) as (lo & Hl & Hle).
      destruct (Hhi m2 H2) as (hi & Hh & Hle').
      exists lo, hi. repeat split; try assumption; lia.
    + intros lo Hl. destruct (Hlot lo Hl) as [Hstep|(t' & Hin & Hst & Hne)].
      * unfold step in Hstep.
        destruct (startTime t) as [s|] eqn:Hs; [|left; exact Hstep].
        destruct (stopTime t) as [e|] eqn:He; [|left; exact Hstep].
        cbn [fst] in Hstep.
        destruct (fst range) as [a|].
        -- destruct (Z.ltb_spec s a); injection Hstep as <-.
           ++ right. exists t. split; [left; reflexivity|].
              split; [exact Hs|congruence].
           ++ left. reflexivity.
        -- injection Hstep as <-. right. exists t.
           split; [left; reflexivity|]. split; [exact Hs|congruence].
      * right. exists t'. split; [right; exact Hin|]. tauto.
    + intros hi Hh. destruct (Hhit hi Hh) as [Hstep|(t' & Hin & Hst & Hne)].
      * unfold step in Hstep.
        destruct (startTime t) as [s|] eqn:Hs; [|left; exact Hstep].
        destruct (stopTime t) as [e|] eqn:He; [|left; exact Hstep].
        cbn [snd] in Hstep.
        destruct (snd range) as [b|].
        -- destruct (Z.ltb_spec b e); injection Hstep as <-.
           ++ right. exists t. split; [left; reflexivity|].
              split; [exact He|congruence].
           ++ left. reflexivity.
        -- injection Hstep as <-. right. exists t.
           split; [left; reflexivity|]. split; [exact He|congruence].
      * right. exists t'. split; [right; exact Hin|]. tauto.
Qed.

(** X18 -- as soon as one entity has a start and a stop time the clock
    range is set, it contains the interval of every such entity, and its
    two ends are the start time of one such entity and the stop time of
    one such entity (the earliest start and the latest stop). *)
Theorem clockRange_covers (trackEntities : list TrackEntity) t0 s0 e0 :
  In t0 trackEntities -> startTime t0 = Some s0 -> stopTime t0 = Some e0 ->
  exists minStart maxStop,
    clockRange trackEntities = Some (minStart, maxStop)
    /\ (forall t s e, In t trackEntities ->
          startTime t = Some s -> stopTime t = Some e ->
          minStart <= s /\ e <= maxStop)
    /\ (exists t, In t trackEntities /\ startTime t = Some minStart
                  /\ stopTime t <> None)
    /\ (exists t, In t trackEntities /\ stopTime t = Some maxStop
                  /\ startTime t <> None).
Proof.
  intros Hin Hs He.
  destruct (globalRange_fold trackEntities (None, None))
    as (_ & _ & Hcov & Hlot & Hhit).
  fold (globalRange trackEntities) in Hcov, Hlot, Hhit.
  destruct (Hcov t0 s0 e0 Hin Hs He) as (lo & hi & Hlo & Hhi & _).
  exists lo, hi. unfold clockRange.
  destruct (globalRange trackEntities) as [a b]. cbn [fst snd] in *.
  subst a b. split; [reflexivity|]. split; [|split].
  - intros t s e Ht Hst Het.
    destruct (Hcov t s e Ht Hst Het) as (lo' & hi' & H1 & H2 & L1 & L2).
    injection H1 as <-. injection H2 as <-. lia.
  - destruct (Hlot lo eq_refl) as [Habs|H]; [discriminate Habs|exact H].
  - destruct (Hhit hi eq_refl) as [Habs|H]; [discriminate Habs|exact H].
Qed.

End EntityFacts.

(* --------------------------------------------------------------------- *)
(** ** Flight statistics                                                  *)
(* --------------------------------------------------------------------- *)

Section StatsFacts.

Context {math : JSMath}.

Lemma Qltb_lt a b : Qltb a b = true -> (a < b)%Q.
Proof.
  unfold Qltb. intros H. apply negb_true_iff in H.
  apply Qnot_le_lt. intros Hle. apply Qle_bool_iff in Hle. congruence.
Qed.

Lemma Qltb_ge a b : Qltb a b = false -> (b <= a)%Q.
Proof.
  unfold Qltb. intros H. apply negb_false_iff in H.
  apply Qle_bool_iff. exact H.
Qed.


(** What one turn of the loop does to the running values. *)
Lemma statsStep_maxAltitude s prev f :
  (maxAltitude s <= maxAltitude (statsStep s prev f))%Q
  /\ (altitudeOf f <= maxAltitude (statsStep s prev f))%Q
  /\ (maxAltitude (statsStep s prev f) = maxAltitude s
      \/ maxAltitude (statsStep s prev f) = altitudeOf f).
Proof.
  assert (forall m : Q,
            m = (if Qltb (maxAltitude s) (altitudeOf f)
                 then altitudeOf f else maxAltitude s) ->
            (maxAltitude s <= m)%Q /\ (altitudeOf f <= m)%Q
            /\ (m = maxAltitude s \/ m = altitudeOf f)) as H.
  { intros m ->. destruct (Qltb _ _) eqn:Hlt.
    - apply Qltb_lt in Hlt. repeat split; auto using Qlt_le_weak, Qle_refl.
    - apply Qltb_ge in Hlt. repeat split; auto using Qle_refl. }
  apply H. unfold statsStep.
  destruct prev as [p|]; [destruct (Qltb 0 _)|]; reflexivity.
Qed.

Lemma statsLoop_maxAltitude fixes : forall s prev,
  (maxAltitude s <= maxAltitude (statsLoop s prev fixes))%Q
  /\ (forall f, In f fixes ->
        (altitudeOf f <= maxAltitude (statsLoop s prev fixes))%Q)
  /\ (maxAltitude (statsLoop s prev fixes) = maxAltitude s
      \/ exists f, In f fixes
                   /\ maxAltitude (statsLoop s prev fixes) = altitudeOf f).
Proof.
  induction fixes as [|f rest IH]; intros s prev.
  - cbn. repeat split; auto using Qle_refl. intros f [].
  - cbn [statsLoop].
    destruct (IH (statsStep s prev f) (Some f)) as (Hm & Hall & Hatt).
    destruct (statsStep_maxAltitude s prev f) as (H1 & H2 & H3).
    repeat split.
    + eapply Qle_trans; eassumption.
    + intros g [<-|Hg]; [eapply Qle_trans; eassumption|apply Hall; exact Hg].
    + destruct Hatt as [Heq|(g & Hg & Heq)].
      * rewrite Heq. destruct H3 as [->| ->]; [left; reflexivity|].
        right. exists f. split; [left|]; reflexivity.
      * right. exists g. split; [right; exact Hg|exact Heq].
Qed.

(** X19 -- [maxAltitude] of [calculateStats] is never negative and never
    below the altitude ([gpsAltitude || pressureAltitude || 0]) of any fix
    of the track, and it is either 0 or the altitude of one of the
    fixes. *)
Theorem maxAltitude_is_highest (track : IGCFile) :
  (0 <= maxAltitude (calculateStats track))%Q
  /\ (forall f, In f (fixes track) ->
        (altitudeOf f <= maxAltitude (calculateStats track))%Q)
  /\ (maxAltitude (calculateStats track) = 0%Q
      \/ exists f, In f (fixes track)
                   /\ maxAltitude (calculateStats track) = altitudeOf f).
Proof.
  unfold calculateStats.
  destruct (fixes track) as [|first rest] eqn:Hfix.
  - cbn. repeat split; auto using Qle_refl. intros f [].
  - cbv zeta. set (s0 := mkFlightStatistics _ 0 0 0 0).
    destruct (statsLoop_maxAltitude (first :: rest) s0 None)
      as (Hm & Hall & Hatt).
    repeat split; assumption.
Qed.


Lemma statsStep_first s f :
  maxClimb (statsStep s None f) = maxClimb s
  /\ maxSink (statsStep s None f) = maxSink s.
Proof. split; reflexivity. Qed.



Lemma statsStep_duration s prev f :
  duration (statsStep s prev f) = duration s.
Proof.
  unfold statsStep. destruct prev; [destruct (Qltb 0 _)|]; reflexivity.
Qed.

Lemma statsLoop_duration fixes : forall s prev,
  duration (statsLoop s prev fixes) = duration s.
Proof.
  induction fixes as [|f rest IH]; intros s prev; [reflexivity|].
  cbn [statsLoop]. rewrite IH. apply statsStep_duration.
Qed.

(** X21 -- for a track whose last timestamp is not before its first, the
    duration reads "<h>h <m>m" with [h] whole hours and [m] whole minutes
    of the time between the first and the last fix: [0 <= h],
    [0 <= m < 60] and [h] hours [m] minutes is the duration rounded down
    to the minute. *)
Theorem duration_hours_minutes (track : IGCFile) first rest :
  fixes track = first :: rest ->
  timestamp first <= timestamp (last (fixes track) first) ->
  exists h m,
    duration (calculateStats track) = formatDuration h m
    /\ 0 <= h /\ 0 <= m < 60
    /\ h * 60 + m
       = (timestamp (last (fixes track) first) - timestamp first) / 60000.
Proof.
  intros Hfix Hle. unfold calculateStats. rewrite Hfix in *.
  cbv zeta. rewrite statsLoop_duration. cbn [duration].
  set (dms := timestamp (last (first :: rest) first) - timestamp first) in *.
  assert (0 <= dms) as Hd by (unfold dms; lia).
  exists (fst (durationParts (timestamp first)
                 (timestamp (last (first :: rest) first)))),
         (snd (durationParts (timestamp first)
                 (timestamp (last (first :: rest) first)))).
  split; [reflexivity|].
  unfold durationParts. cbn [fst snd]. fold dms.
  rewrite Z.rem_mod_nonneg by lia.
  pose proof (Z.mod_pos_bound dms 3600000 ltac:(lia)) as Hm.
  assert (0 <= dms / 3600000) as Hh by (apply Z.div_pos; lia).
  assert (0 <= dms mod 3600000 / 60000 < 60) as Hmin.
  { split; [apply Z.div_pos; lia|].
    apply Z.div_lt_upper_bound; lia. }
  repeat split; try lia.
  rewrite (Z.div_mod dms 3600000) at 3 by lia.
  replace (3600000 * (dms / 3600000) + dms mod 3600000)
    with (dms mod 3600000 + (dms / 3600000 * 60) * 60000) by ring.
  rewrite Z.div_add by lia. ring.
Qed.

End StatsFacts.

(* --------------------------------------------------------------------- *)
(** ** Track colours                                                      *)
(* --------------------------------------------------------------------- *)

Lemma small_index (r : Z) :
  0 <= r < 10 ->
  r = 0 \/ r = 1 \/ r = 2 \/ r = 3 \/ r = 4 \/ r = 5 \/ r = 6 \/ r = 7
  \/ r = 8 \/ r = 9.
Proof. lia. Qed.

(** X22 -- every track index from 0 on gets a colour, and two tracks get
    the same colour exactly when their indices differ by a multiple of
    ten: the first ten tracks have ten different colours, the eleventh
    repeats the first. *)
Theorem track_colours_cycle (i j : Z) :
  0 <= i -> 0 <= j ->
  (exists c, getTrackColor i = Some c)
  /\ (getTrackColor i = getTrackColor j <-> i mod 10 = j mod 10).
Proof.
  intros Hi Hj. unfold getTrackColor.
  change (Z.of_nat (List.length TRACK_COLORS)) with 10.
  rewrite !Z.rem_mod_nonneg by lia.
  pose proof (Z.mod_pos_bound i 10 ltac:(lia)) as Bi.
  pose proof (Z.mod_pos_bound j 10 ltac:(lia)) as Bj.
  destruct (small_index _ Bi) as [->|[->|[->|[->|[->|[->|[->|[->|[->| ->]]]]]]]]];
    (split; [eexists; reflexivity|]);
    destruct (small_index _ Bj) as [->|[->|[->|[->|[->|[->|[->|[->|[->| ->]]]]]]]]];
    cbn; split; intros H; try reflexivity; try discriminate H.
Qed.

(* --------------------------------------------------------------------- *)
(** ** Pilot initials                                                     *)
(* --------------------------------------------------------------------- *)

Lemma last_any_default {A : Type} (l : list A) (d d' : A) :
  l <> [] -> last l d = last l d'.
Proof.
  induction l as [|a l IH]; [congruence|]. intros _.
  destruct l as [|b l']; [reflexivity|].
  change (last (a :: b :: l') d) with (last (b :: l') d).
  change (last (a :: b :: l') d') with (last (b :: l') d').
  apply IH. discriminate.
Qed.

Lemma firstn_subset {A : Type} (n : nat) (l : list A) x :
  In x (firstn n l) -> In x l.
Proof.
  revert l. induction n as [|n IH]; intros [|a l] H; try contradiction.
  destruct H as [<-|H]; [left; reflexivity|right; apply IH; exact H].
Qed.

Lemma dropWhile_incl {A : Type} (p : A -> bool) l :
  incl (dropWhile p l) l.
Proof.
  induction l as [|a l IH]; cbn; [apply incl_refl|].
  destruct (p a); [apply incl_tl; exact IH|apply incl_refl].
Qed.

Lemma dropWhile_head {A : Type} (p : A -> bool) l a rest :
  dropWhile p l = a :: rest -> p a = false.
Proof.
  induction l as [|b l IH]; cbn; [discriminate|].
  destruct (p b) eqn:Hb; [exact IH|]. intros H. injection H as <- _. exact Hb.
Qed.

Lemma dropWhile_keeps_last {A : Type} (p : A -> bool) l c :
  p c = false -> exists y, dropWhile p (l ++ [c]) = y ++ [c].
Proof.
  intros Hc. induction l as [|a l IH]; cbn.
  - rewrite Hc. exists []. reflexivity.
  - destruct (p a); [exact IH|]. exists (a :: l). reflexivity.
Qed.

(** A trimmed string is empty or starts and ends with a code unit that
    is not white space. *)
Lemma trim_shape s :
  trim s = []
  \/ exists c body d,
       trim s = c :: body /\ isWhiteSpace c = false
       /\ last (trim s) d = last (c :: body) d
       /\ isWhiteSpace (last (c :: body) c) = false.
Proof.
  unfold trim. destruct (dropWhile isWhiteSpace s) as [|c x] eqn:Hx.
  - left. reflexivity.
  - right. pose proof (dropWhile_head _ _ _ _ Hx) as Hc.
    cbn [rev]. destruct (dropWhile_keeps_last isWhiteSpace (rev x) c Hc)
      as (y & Hy).
    rewrite Hy. rewrite rev_app_distr. cbn [rev app].
    exists c, (rev y), c. split; [reflexivity|]. split; [exact Hc|].
    split; [reflexivity|].
    destruct y as [|b y'].
    + cbn. exact Hc.
    + pose proof (dropWhile_head _ _ _ _ Hy) as Hb.
      cbn [rev]. change (c :: rev y' ++ [b]) with ((c :: rev y') ++ [b]).
      rewrite last_last. exact Hb.
Qed.

Lemma trim_incl s : incl (trim s) s.
Proof.
  unfold trim. intros c Hc. apply in_rev in Hc.
  apply dropWhile_incl in Hc. apply in_rev in Hc.
  apply dropWhile_incl in Hc. exact Hc.
Qed.

Lemma splitSpaces_cons c c' rest :
  splitSpaces (c :: c' :: rest)
  = if isWhiteSpace c then
      if isWhiteSpace c' then splitSpaces (c' :: rest)
      else [] :: splitSpaces (c' :: rest)
    else
      match splitSpaces (c' :: rest) with
      | piece :: pieces => (c :: piece) :: pieces
      | [] => [[c]]
      end.
Proof. reflexivity. Qed.

(** The pieces of a string that does not end with white space: all of
    them but the first are non-empty, the first one is empty only when
    the string starts with white space, and they are made of code units
    of the string that are not white space. *)
Lemma splitSpaces_pieces s :
  s <> [] -> isWhiteSpace (last s 0%N) = false ->
  exists piece pieces,
    splitSpaces s = piece :: pieces
    /\ (forall p, In p pieces -> p <> [])
    /\ (piece = [] -> exists c rest, s = c :: rest /\ isWhiteSpace c = true)
    /\ (forall p c, In p (piece :: pieces) -> In c p ->
          In c s /\ isWhiteSpace c = false).
Proof.
  induction s as [|c rest IH]; [congruence|]. intros _ Hlast.
  destruct rest as [|c' rest'].
  - cbn in Hlast. cbn [splitSpaces]. rewrite Hlast.
    exists [c], []. split; [reflexivity|]. split; [intros p []|].
    split; [discriminate|].
    intros p x [<-|[]] [<-|[]]. split; [left; reflexivity|exact Hlast].
  - assert (isWhiteSpace (last (c' :: rest') 0%N) = false) as Hlast'
      by exact Hlast.
    destruct (IH ltac:(discriminate) Hlast')
      as (piece & pieces & Hsplit & Hne & Hfirst & Hchars).
    rewrite splitSpaces_cons, Hsplit.
    destruct (isWhiteSpace c) eqn:Hc.
    + destruct (isWhiteSpace c') eqn:Hc'.
      * exists piece, pieces. split; [reflexivity|]. split; [exact Hne|].
        split; [intros _; exists c, (c' :: rest'); auto|].
        intros p x Hp Hx. destruct (Hchars p x Hp Hx). split; [right|]; auto.
      * exists [], (piece :: pieces). split; [reflexivity|]. split.
        -- intros p [<-|Hp]; [|apply Hne; exact Hp].
           intros Hempty. destruct (Hfirst Hempty) as (a & b & Heq & Ha).
           injection Heq as <- _. congruence.
        -- split; [intros _; exists c, (c' :: rest'); auto|].
           intros p x [<-|Hp] Hx; [contradiction|].
           destruct (Hchars p x Hp Hx). split; [right|]; auto.
    + exists (c :: piece), pieces. split; [reflexivity|].
      split; [exact Hne|]. split; [discriminate|].
      intros p x [<-|Hp] Hx.
      * destruct Hx as [<-|Hx]; [split; [left; reflexivity|exact Hc]|].
        destruct (Hchars piece x (or_introl eq_refl) Hx).
        split; [right|]; auto.
      * destruct (Hchars p x (or_intror Hp) Hx). split; [right|]; auto.
Qed.

Section InitialsFacts.

Variable toUpperCase : list N -> list N.

(** X30 -- [getInitials] never throws and never lets the text of
    [undefined] into a label: a missing or empty name gives "?", and any
    other name gives the upper-cased form of at most three code units of
    the name, none of them white space (the first three of a single word,
    or the first code units of the first and the last word). *)
Theorem initials_are_of_the_name (name : option (list N)) :
  exists s,
    getInitials toUpperCase name
    = Some (match name with
            | None | Some [] => [63%N]
            | Some _ => toUpperCase s
            end)
    /\ (List.length s <= 3)%nat
    /\ forall c, In c s ->
         isWhiteSpace c = false
         /\ exists n, name = Some n /\ In c n.
Proof.
  destruct name as [[|c0 n0]|].
  1, 3: (exists []; split; [reflexivity|]; split; [cbn; lia|intros c []]).
  set (name := c0 :: n0).
  unfold getInitials. fold name. cbv zeta.
  destruct (trim_shape name) as [Hempty|(c & body & d & Htrim & Hc & _ & Hl)].
  - rewrite Hempty. cbn [splitSpaces].
    exists []. split; [reflexivity|]. split; [cbn; lia|intros x []].
  - assert (trim name <> []) as Hne by (rewrite Htrim; discriminate).
    assert (isWhiteSpace (last (trim name) 0%N) = false) as Hlast.
    { rewrite Htrim.
      rewrite (last_any_default (c :: body) 0%N c) by discriminate.
      exact Hl. }
    destruct (splitSpaces_pieces (trim name) Hne Hlast)
      as (piece & pieces & Hsplit & Hpieces & Hfirst & Hchars).
    assert (piece <> []) as Hpiece.
    { intros Hp. destruct (Hfirst Hp) as (a & b & Heq & Ha).
      rewrite Htrim in Heq. injection Heq as <- _. congruence. }
    assert (forall p x, In p (piece :: pieces) -> In x p ->
              isWhiteSpace x = false /\ exists n, Some name = Some n /\ In x n)
      as Hin.
    { intros p x Hp Hx. destruct (Hchars p x Hp Hx) as [Hxin Hxs].
      split; [exact Hxs|]. exists name. split; [reflexivity|].
      apply (trim_incl name). exact Hxin. }
    rewrite Hsplit.
    destruct pieces as [|p2 pieces'].
    + exists (firstn 3 piece). split; [reflexivity|].
      split; [apply firstn_le_length|].
      intros x Hx. apply (Hin piece x (or_introl eq_refl)).
      apply (firstn_subset 3). exact Hx.
    + destruct piece as [|a piece']; [congruence|]. cbn [hd_error].
      set (lastPiece := last ((a :: piece') :: p2 :: pieces') []).
      assert (In lastPiece (p2 :: pieces')) as Hlp.
      { unfold lastPiece.
        change (last ((a :: piece') :: p2 :: pieces') [])
          with (last (p2 :: pieces') []).
        clear. revert p2. induction pieces' as [|q pieces' IH]; intros p2.
        - left. reflexivity.
        - right. change (last (p2 :: q :: pieces') [])
            with (last (q :: pieces') []). apply IH. }
      destruct lastPiece as [|b lp] eqn:Hb;
        [exfalso; apply (Hpieces [] Hlp); reflexivity|].
      cbn [hd_error plusChars].
      exists [a; b]. split; [reflexivity|]. split; [cbn; lia|].
      intros x [<-|[<-|[]]].
      * apply (Hin (a :: piece') a); left; reflexivity.
      * apply (Hin (b :: lp) b); [right; exact Hlp|left; reflexivity].
Qed.

End InitialsFacts.

(* --------------------------------------------------------------------- *)
(** ** Instances on concrete tracks                                       *)
(* --------------------------------------------------------------------- *)

(** X17, at [demoTrack] on the bare globe: its samples span 1 s to 3 s
    after the flight date. *)
Lemma entity_samples_in_range_witness :
  (forall t p,
     In (t, p) (samples (trackEntity (cesium := bareGlobe) demoTrack 0)) ->
     1000 <= t <= 3000)
  /\ (exists p,
        In (1000, p) (samples (trackEntity (cesium := bareGlobe) demoTrack 0)))
  /\ (exists p,
        In (3000, p) (samples (trackEntity (cesium := bareGlobe) demoTrack 0))).
Proof.
  apply (entity_samples_in_range (cesium := bareGlobe) demoTrack 0 1000 3000).
  - exact track3_ascending.
  - reflexivity.
  - reflexivity.
Defined.

(** X18, at the single entity of [demoTrack]. *)
Lemma clockRange_covers_witness :
  exists minStart maxStop,
    clockRange [trackEntity (cesium := bareGlobe) demoTrack 0]
    = Some (minStart, maxStop)
    /\ (forall t s e,
          In t [trackEntity (cesium := bareGlobe) demoTrack 0] ->
          startTime t = Some s -> stopTime t = Some e ->
          minStart <= s /\ e <= maxStop)
    /\ (exists t, In t [trackEntity (cesium := bareGlobe) demoTrack 0]
                  /\ startTime t = Some minStart /\ stopTime t <> None)
    /\ (exists t, In t [trackEntity (cesium := bareGlobe) demoTrack 0]
                  /\ stopTime t = Some maxStop /\ startTime t <> None).
Proof.
  apply (clockRange_covers (cesium := bareGlobe)
           [trackEntity (cesium := bareGlobe) demoTrack 0]
           (trackEntity (cesium := bareGlobe) demoTrack 0) 1000 3000).
  - left. reflexivity.
  - reflexivity.
  - reflexivity.
Defined.


(** X21, at [demoTrack]: two seconds of flight read "0h 0m". *)
Lemma duration_hours_minutes_witness :
  exists h m,
    duration (calculateStats (math := smallAngleMath) demoTrack)
    = formatDuration h m
    /\ 0 <= h /\ 0 <= m < 60
    /\ h * 60 + m
       = (timestamp (last (fixes demoTrack)
                       (fixOf 1000 (Some (1500 # 1)) None))
          - timestamp (fixOf 1000 (Some (1500 # 1)) None)) / 60000.
Proof.
  apply (duration_hours_minutes (math := smallAngleMath) demoTrack
           (fixOf 1000 (Some (1500 # 1)) None)
           [fixOf 2000 (Some (1501 # 1)) None;
            fixOf 3000 (Some (1502 # 1)) None]).
  - reflexivity.
  - cbn. lia.
Defined.

(** X22, at the first and the eleventh track. *)
Lemma track_colours_cycle_witness :
  (exists c, getTrackColor 0 = Some c)
  /\ (getTrackColor 0 = getTrackColor 10 <-> 0 mod 10 = 10 mod 10).
Proof. apply (track_colours_cycle 0 10); lia. Defined.

End TracksProofs.

(* ===================================================================== *)
(** * Properties of the task file parser                                  *)
(* ===================================================================== *)

Module TaskFileProofs.

Import String Ascii.
Import TaskFile.
Local Open Scope string_scope.

#[local] Set Warnings "-inexact-float".

Lemma bind_Some {A B : Type} (m : option A) (f : A -> option B) b :
  bind m f = Some b <-> exists a, m = Some a /\ f a = Some b.
Proof.
  destruct m as [a|]; cbn.
  - split; [intros H; exists a; auto|intros (a' & Ha & H); congruence].
  - split; [discriminate|intros (a' & Ha & _); discriminate].
Qed.

Lemma bind_None {A B : Type} (m : option A) (f : A -> option B) :
  bind m f = None <-> m = None \/ exists a, m = Some a /\ f a = None.
Proof.
  destruct m as [a|]; cbn.
  - split; [intros H; right; exists a; auto|].
    intros [H|(a' & Ha & H)]; congruence.
  - split; auto.
Qed.

Lemma mapM_Some {A B : Type} (f : A -> option B) items : forall out,
  mapM f items = Some out ->
  List.length out = List.length items
  /\ forall k a, nth_error items k = Some a ->
       exists b, nth_error out k = Some b /\ f a = Some b.
Proof.
  induction items as [|a items IH]; intros out H.
  - injection H as <-. split; [reflexivity|]. intros [|k] a H; discriminate H.
  - cbn [mapM] in H. apply bind_Some in H. destruct H as (b & Hb & H).
    apply bind_Some in H. destruct H as (bs & Hbs & H). injection H as <-.
    destruct (IH bs Hbs) as [Hlen Hnth]. split; [cbn; congruence|].
    intros [|k] a' Ha'.
    + injection Ha' as <-. exists b. split; [reflexivity|exact Hb].
    + apply (Hnth k a' Ha').
Qed.

Lemma mapM_None {A B : Type} (f : A -> option B) items :
  mapM f items = None <-> exists a, In a items /\ f a = None.
Proof.
  induction items as [|a items IH].
  - split; [discriminate|intros (a & [] & _)].
  - cbn [mapM]. rewrite bind_None. split.
    + intros [Ha|(b & Hb & H)].
      * exists a. split; [left; reflexivity|exact Ha].
      * apply bind_None in H. destruct H as [H|(bs & _ & H)]; [|discriminate].
        apply IH in H. destruct H as (a' & Hin & Ha').
        exists a'. split; [right; exact Hin|exact Ha'].
    + intros (a' & [<-|Hin] & Ha').
      * left. exact Ha'.
      * destruct (f a) as [b|] eqn:Hb; [|left; reflexivity].
        right. exists b. split; [reflexivity|].
        apply bind_None. left. apply IH. exists a'. auto.
Qed.

(** Reading a property throws on [undefined] and [null] only. *)
Lemma get_None v key : get v key = None <-> v = VUndefined \/ v = VNull.
Proof.
  destruct v; cbn; split; intros H; try discriminate; auto;
    destruct H as [H|H]; discriminate.
Qed.

Lemma get_truthy v key : truthy v = true -> exists w, get v key = Some w.
Proof. destruct v; cbn; intros H; try discriminate; eexists; reflexivity. Qed.

Lemma get_again v key w key' :
  get v key = Some w -> exists w', get v key' = Some w'.
Proof. destruct v; cbn; intros H; try discriminate; eexists; reflexivity. Qed.

Lemma orElse_Some a b v w :
  a = Some v -> b = Some w ->
  orElse a b = Some (if truthy v then v else w).
Proof. intros -> ->. cbn. destruct (truthy v); reflexivity. Qed.

(** Every field of a mapped turnpoint, from the properties of the
    turnpoint and of its waypoint. *)
Lemma turnpointOf_fields tp p :
  turnpointOf tp = Some p ->
  exists waypoint wp,
    get tp "waypoint" = Some waypoint
    /\ wp = (if truthy waypoint then waypoint else VObject [])
    /\ orElse (get wp "lat")
         (orElse (get tp "lat") (Some (VNumber 0%float))) = Some (lat p)
    /\ orElse (get wp "lon")
         (orElse (get tp "lon") (Some (VNumber 0%float))) = Some (lon p)
    /\ orElse (get wp "altSmoothed")
         (orElse (get wp "alt")
            (orElse (get tp "alt") (Some (VNumber 0%float)))) = Some (alt p)
    /\ orElse (get tp "radius") (Some (VNumber 400%float)) = Some (radius p)
    /\ orElse (get tp "type") (Some (VString "TURNPOINT")) = Some (type p)
    /\ orElse (get wp "name")
         (orElse (get tp "name") (Some (VString "Turnpoint"))) = Some (name p).
Proof.
  unfold turnpointOf. intros H.
  apply bind_Some in H. destruct H as (waypoint & Hw & H). cbv zeta in H.
  apply bind_Some in H. destruct H as (la & Hla & H).
  apply bind_Some in H. destruct H as (lo & Hlo & H).
  apply bind_Some in H. destruct H as (al & Hal & H).
  apply bind_Some in H. destruct H as (ra & Hra & H).
  apply bind_Some in H. destruct H as (ty & Hty & H).
  apply bind_Some in H. destruct H as (na & Hna & H).
  apply bind_Some in H. destruct H as (de & Hde & H).
  injection H as <-. cbn [lat lon alt radius type name].
  exists waypoint, (if truthy waypoint then waypoint else VObject []).
  repeat split; assumption.
Qed.

Lemma orElse_truthy_or_default a b d v :
  orElse a (orElse b (Some d)) = Some v -> truthy v = true \/ v = d.
Proof.
  unfold orElse. destruct a as [x|]; [|discriminate].
  destruct (truthy x) eqn:Hx; [intros H; injection H as <-; auto|].
  destruct b as [y|]; [|discriminate].
  destruct (truthy y) eqn:Hy; intros H; injection H as <-; auto.
Qed.

Lemma orElse_default_truthy a d v :
  truthy d = true -> orElse a (Some d) = Some v -> truthy v = true.
Proof.
  unfold orElse. intros Hd. destruct a as [x|]; [|discriminate].
  destruct (truthy x) eqn:Hx; intros H; injection H as <-; assumption.
Qed.

(** X23 -- a turnpoint read from a task file never carries a radius that
    is 0, NaN or missing: the radius of the file is kept when it is
    truthy and replaced by 400 otherwise, so a radius of 0 in the file
    becomes 400.  Its type and name are never empty or missing either,
    and its latitude, longitude and altitude are truthy values of the
    file or the number 0. *)
Theorem turnpoint_defaults tp p :
  turnpointOf tp = Some p ->
  truthy (radius p) = true
  /\ (forall r, get tp "radius" = Some r ->
        radius p = if truthy r then r else VNumber 400%float)
  /\ truthy (type p) = true
  /\ truthy (name p) = true
  /\ (truthy (lat p) = true \/ lat p = VNumber 0%float)
  /\ (truthy (lon p) = true \/ lon p = VNumber 0%float)
  /\ (truthy (alt p) = true \/ alt p = VNumber 0%float).
Proof.
  intros H.
  destruct (turnpointOf_fields tp p H)
    as (waypoint & wp & Hw & Hwp & Hla & Hlo & Hal & Hra & Hty & Hna).
  split; [refine (orElse_default_truthy _ _ _ _ Hra); reflexivity|].
  split.
  { intros r Hr. rewrite Hr in Hra. cbn in Hra.
    destruct (truthy r); injection Hra as <-; reflexivity. }
  split; [refine (orElse_default_truthy _ _ _ _ Hty); reflexivity|].
  split.
  { unfold orElse in Hna at 1. destruct (get wp "name") as [x|]; [|discriminate].
    destruct (truthy x) eqn:Hx; [injection Hna as <-; exact Hx|].
    refine (orElse_default_truthy _ _ _ _ Hna); reflexivity. }
  split; [apply (orElse_truthy_or_default _ _ _ _ Hla)|].
  split; [apply (orElse_truthy_or_default _ _ _ _ Hlo)|].
  unfold orElse in Hal at 1.
  destruct (get wp "altSmoothed") as [x|]; [|discriminate].
  destruct (truthy x) eqn:Hx; [injection Hal as <-; auto|].
  apply (orElse_truthy_or_default _ _ _ _ Hal).
Qed.

Lemma parse_steps raw task :
  parseXCTaskValue raw = Some task ->
  exists taskRoot items,
    taskRootOf raw = Some taskRoot
    /\ get taskRoot "turnpoints" = Some (VArray items)
    /\ mapM turnpointOf items = Some (turnpoints task).
Proof.
  unfold parseXCTaskValue. intros H.
  apply bind_Some in H. destruct H as (taskRoot & Hroot & H).
  apply bind_Some in H. destruct H as (tps & Htps & H).
  destruct tps as [| | | | |items|]; try discriminate H.
  apply bind_Some in H. destruct H as (out & Hout & H).
  apply bind_Some in H. destruct H as (sSS & _ & H).
  apply bind_Some in H. destruct H as (goal & _ & H).
  apply bind_Some in H. destruct H as (tt & _ & H).
  apply bind_Some in H. destruct H as (ver & _ & H).
  apply bind_Some in H. destruct H as (gates & _ & H).
  apply bind_Some in H. destruct H as (tk & _ & H).
  injection H as <-. cbn [turnpoints].
  exists taskRoot, items. auto.
Qed.

(** X24 -- a parsed task has exactly one turnpoint per element of the
    turnpoints array of the file (of the task root: the file itself or its
    nested [task]), in the same order, each one the mapping of the element
    at the same place and satisfying the defaults above: no element is
    dropped, reordered or merged. *)
Theorem parsed_turnpoints_follow_file raw task :
  parseXCTaskValue raw = Some task ->
  exists taskRoot items,
    taskRootOf raw = Some taskRoot
    /\ get taskRoot "turnpoints" = Some (VArray items)
    /\ List.length (turnpoints task) = List.length items
    /\ forall k tp, nth_error items k = Some tp ->
         exists p, nth_error (turnpoints task) k = Some p
                   /\ turnpointOf tp = Some p
                   /\ truthy (radius p) = true.
Proof.
  intros H. destruct (parse_steps raw task H) as (root & items & Hr & Ht & Hm).
  exists root, items. split; [exact Hr|]. split; [exact Ht|].
  destruct (mapM_Some _ _ _ Hm) as [Hlen Hnth]. split; [exact Hlen|].
  intros k tp Hk. destruct (Hnth k tp Hk) as (p & Hp & Htp).
  exists p. split; [exact Hp|]. split; [exact Htp|].
  destruct (turnpointOf_fields tp p Htp)
    as (_ & _ & _ & _ & _ & _ & _ & Hra & _).
  refine (orElse_default_truthy _ _ _ _ Hra); reflexivity.
Qed.

(** X25 -- a file that wraps the task in a [task] property (the file has
    no [taskType] of its own, the wrapped value has one) is parsed as the
    wrapped task is. *)
Theorem nested_task_is_unwrapped raw rawTaskType rawTask nestedTaskType :
  get raw "taskType" = Some rawTaskType -> truthy rawTaskType = false ->
  get raw "task" = Some rawTask -> truthy rawTask = true ->
  get rawTask "taskType" = Some nestedTaskType ->
  truthy nestedTaskType = true ->
  parseXCTaskValue raw = parseXCTaskValue rawTask.
Proof.
  intros H1 H2 H3 H4 H5 H6.
  assert (taskRootOf raw = Some rawTask) as Hraw.
  { unfold taskRootOf. rewrite H1. cbn [bind]. rewrite H2. cbn [negb].
    rewrite H3. cbn [bind]. rewrite H4, H5. cbn [bind]. rewrite H6.
    reflexivity. }
  assert (taskRootOf rawTask = Some rawTask) as Hin.
  { unfold taskRootOf. rewrite H5. cbn [bind]. rewrite H6. reflexivity. }
  unfold parseXCTaskValue. rewrite Hraw, Hin. reflexivity.
Qed.

(* --------------------------------------------------------------------- *)
(** ** The start gate taken from [times.raceStart]                        *)
(* --------------------------------------------------------------------- *)

Lemma afterFirst_app c a rest :
  includes c a = false -> afterFirst c (append a (String c rest)) = rest.
Proof.
  induction a as [|x a IH]; cbn [append includes afterFirst].
  - intros _. rewrite Ascii.eqb_refl. reflexivity.
  - destruct (Ascii.eqb x c); [discriminate|exact IH].
Qed.

Lemma includes_app c a b :
  includes c (append a b) = includes c a || includes c b.
Proof.
  induction a as [|x a IH]; cbn [append includes]; [reflexivity|].
  destruct (Ascii.eqb x c); [reflexivity|exact IH].
Qed.

Lemma beforeFirst_without c s : includes c s = false -> beforeFirst c s = s.
Proof.
  induction s as [|x s IH]; cbn [includes beforeFirst]; [reflexivity|].
  destruct (Ascii.eqb x c); [discriminate|]. intros H. rewrite IH by exact H.
  reflexivity.
Qed.

Lemma dropFirst_app c a rest :
  includes c a = false -> dropFirst c (append a (String c rest)) = append a rest.
Proof.
  induction a as [|x a IH]; cbn [append includes dropFirst].
  - intros _. rewrite Ascii.eqb_refl. reflexivity.
  - destruct (Ascii.eqb x c); [discriminate|]. intros H. rewrite IH by exact H.
    reflexivity.
Qed.

Lemma dropFirst_without c s : includes c s = false -> dropFirst c s = s.
Proof.
  induction s as [|x s IH]; cbn [includes dropFirst]; [reflexivity|].
  destruct (Ascii.eqb x c); [discriminate|]. intros H. rewrite IH by exact H.
  reflexivity.
Qed.

Lemma append_empty s : append s EmptyString = s.
Proof. induction s as [|x s IH]; cbn; [|rewrite IH]; reflexivity. Qed.

Lemma raceStartTime_iso date time :
  includes "T" date = false -> includes "T" time = false ->
  includes "Z" time = false ->
  raceStartTime (VString (append date (String "T" (append time "Z"))))
  = Some (VString time).
Proof.
  intros Hd Ht Hz. unfold raceStartTime.
  rewrite includes_app, Hd. cbn [orb includes]. rewrite Ascii.eqb_refl.
  unfold secondPiece. rewrite afterFirst_app by exact Hd.
  rewrite beforeFirst_without
    by (rewrite includes_app, Ht; reflexivity).
  rewrite dropFirst_app by exact Hz. rewrite append_empty. reflexivity.
Qed.

(** X26 -- for a task root without [sss] whose [times.raceStart] is an ISO
    date-time "<date>T<time>Z" (no T in the date, no T or Z in the time),
    the synthesized start is a RACE start with the single time gate
    "<time>": the date and the trailing Z are dropped. *)
Theorem race_start_gives_time_gate taskRoot sss times date time :
  get taskRoot "sss" = Some sss -> truthy sss = false ->
  get taskRoot "times" = Some times ->
  get times "raceStart"
  = Some (VString (append date (String "T" (append time "Z")))) ->
  includes "T" date = false -> includes "T" time = false ->
  includes "Z" time = false ->
  startGatesOf taskRoot
  = Some (VObject [("type", VString "RACE");
                   ("timeGates", VArray [VString time])]).
Proof.
  intros Hsss Hfalsy Htimes Hrace Hd Ht Hz.
  assert (truthy times = true) as Htr
    by (destruct times; cbn in Hrace; try discriminate Hrace; reflexivity).
  assert (truthy (VString (append date (String "T" (append time "Z")))) = true)
    as Hrs by (destruct date; reflexivity).
  unfold startGatesOf. rewrite Hsss. cbn [bind]. rewrite Hfalsy. cbn [negb].
  rewrite Htimes. cbn [bind]. rewrite Htr, Hrace. cbn [bind]. rewrite Hrs.
  rewrite raceStartTime_iso by assumption. reflexivity.
Qed.

(* --------------------------------------------------------------------- *)
(** ** When a file is rejected                                            *)
(* --------------------------------------------------------------------- *)

Lemma taskRootOf_None raw :
  taskRootOf raw = None <-> raw = VUndefined \/ raw = VNull.
Proof.
  unfold taskRootOf. rewrite bind_None, get_None. split.
  - intros [H|(t & Ht & H)]; [exact H|].
    destruct (negb (truthy t)); [|discriminate].
    apply bind_None in H. destruct H as [H|(rt & Hrt & H)].
    + apply get_None in H. exact H.
    + destruct (truthy rt) eqn:Hrtt; [|discriminate].
      apply bind_None in H. destruct H as [H|(n & _ & H)]; [|discriminate].
      apply get_None in H. destruct H as [-> | ->]; discriminate.
  - auto.
Qed.

Lemma taskRootOf_readable raw taskRoot key :
  taskRootOf raw = Some taskRoot -> exists w, get taskRoot key = Some w.
Proof.
  unfold taskRootOf. intros H.
  apply bind_Some in H. destruct H as (t & Ht & H).
  assert (exists w, get raw key = Some w) as Hraw
    by (apply (get_again raw "taskType" t); exact Ht).
  destruct (negb (truthy t)); [|injection H as <-; exact Hraw].
  apply bind_Some in H. destruct H as (rt & Hrt & H).
  destruct (truthy rt) eqn:Hrtt; [|injection H as <-; exact Hraw].
  apply bind_Some in H. destruct H as (n & Hn & H).
  destruct (truthy n); injection H as <-; [|exact Hraw].
  apply get_truthy. exact Hrtt.
Qed.

Lemma turnpointOf_None tp :
  turnpointOf tp = None <-> tp = VUndefined \/ tp = VNull.
Proof.
  split.
  - intros H. destruct tp; auto; exfalso;
      revert H; unfold turnpointOf;
      match goal with
      | |- context [get ?v "waypoint"] =>
          destruct (get v "waypoint") as [w|] eqn:Hw; [|discriminate Hw]
      end;
      cbn [bind]; cbv zeta;
      assert (truthy (if truthy w then w else VObject []) = true) as Hwp
        by (destruct (truthy w) eqn:E; [exact E|reflexivity]);
      destruct (if truthy w then w else VObject []) as [| |?|?|?|?|?];
      try discriminate Hwp; cbn [get orElse bind];
      repeat match goal with
             | |- context [if ?b then _ else _] => destruct b; cbn [bind orElse]
             end;
      discriminate.
  - intros [-> | ->]; reflexivity.
Qed.

Lemma startGatesOf_None taskRoot :
  (exists w, get taskRoot "sss" = Some w) ->
  startGatesOf taskRoot = None <->
  exists sss times raceStart,
    get taskRoot "sss" = Some sss /\ truthy sss = false
    /\ get taskRoot "times" = Some times /\ truthy times = true
    /\ get times "raceStart" = Some raceStart /\ truthy raceStart = true
    /\ raceStartTime raceStart = None.
Proof.
  intros (w & Hw). unfold startGatesOf. rewrite Hw. cbn [bind].
  destruct (get_again _ _ _ "times" Hw) as (times & Htimes).
  rewrite Htimes. cbn [bind]. split.
  - intros H. destruct (truthy w) eqn:Hwt; [discriminate|]. cbn [negb] in H.
    destruct (truthy times) eqn:Htt; [|discriminate].
    destruct (get_truthy times "raceStart" Htt) as (rs & Hrs).
    rewrite Hrs in H. cbn [bind] in H.
    destruct (truthy rs) eqn:Hrst; [|discriminate].
    destruct (raceStartTime rs) eqn:Hrt; [discriminate|].
    exists w, times, rs. repeat split; assumption.
  - intros (sss & times' & rs & H1 & H2 & H3 & H4 & H5 & H6 & H7).
    injection H1 as <-. injection H3 as <-.
    rewrite H2. cbn [negb]. rewrite H4, H5. cbn [bind]. rewrite H6, H7.
    reflexivity.
Qed.

(** X27 -- [parseXCTask] answers null for a parsed value in these cases
    and in no other: the value is null; the task root has no turnpoints
    array; an element of the array is null; or the root has no [sss] and
    a truthy [times.raceStart] from which no time can be taken (it is
    neither a string nor an array without the element "T"). *)
Theorem parse_rejects_exactly raw :
  parseXCTaskValue raw = None <->
  (raw = VUndefined \/ raw = VNull)
  \/ exists taskRoot,
       taskRootOf raw = Some taskRoot
       /\ ((forall items, get taskRoot "turnpoints" <> Some (VArray items))
           \/ (exists items,
                 get taskRoot "turnpoints" = Some (VArray items)
                 /\ (In VUndefined items \/ In VNull items))
           \/ (exists sss times raceStart,
                 get taskRoot "sss" = Some sss /\ truthy sss = false
                 /\ get taskRoot "times" = Some times /\ truthy times = true
                 /\ get times "raceStart" = Some raceStart
                 /\ truthy raceStart = true
                 /\ raceStartTime raceStart = None)).
Proof.
  unfold parseXCTaskValue.
  destruct (taskRootOf raw) as [root|] eqn:Hroot.
  2:{ cbn [bind]. split; [intros _; left; apply taskRootOf_None; exact Hroot|].
      reflexivity. }
  cbn [bind].
  assert (forall key, exists w, get root key = Some w) as Hread
    by (intros key; apply (taskRootOf_readable raw root key Hroot)).
  destruct (Hread "turnpoints") as (tps & Htps). rewrite Htps. cbn [bind].
  pose proof (startGatesOf_None root (Hread "sss")) as Hgates.
  assert ((raw = VUndefined \/ raw = VNull) -> False) as Hraw.
  { intros H. apply taskRootOf_None in H. congruence. }
  destruct tps as [| | | | |items|].
  1-5,7: (split; [intros _|reflexivity]; right; exists root;
          split; [reflexivity|]; left; intros items Heq;
          rewrite Htps in Heq; discriminate Heq).
  split.
  - intros H. right. exists root. split; [reflexivity|]. right.
    apply bind_None in H. destruct H as [H|(out & Hout & H)].
    + left. exists items. split; [exact Htps|].
      apply mapM_None in H. destruct H as (tp & Hin & Htp).
      apply turnpointOf_None in Htp. destruct Htp as [-> | ->]; auto.
    + right. apply Hgates.
      destruct (startGatesOf root) as [sSS|]; [|reflexivity]. exfalso.
      cbn [bind] in H.
      destruct (Hread "goal") as (g & Hg). rewrite Hg in H.
      destruct (Hread "taskType") as (tt & Htt). rewrite Htt in H.
      destruct (Hread "version") as (ver & Hver). rewrite Hver in H.
      destruct (Hread "takeoff") as (tk & Htk). rewrite Htk in H.
      cbn [bind orElse] in H.
      destruct (truthy tt); destruct (truthy ver); cbn [bind] in H;
        (destruct (truthy sSS) eqn:Hs;
         [destruct (get_truthy sSS "type" Hs) as (a & Ha);
          destruct (get_truthy sSS "direction" Hs) as (b & Hb);
          destruct (get_truthy sSS "timeGates" Hs) as (c & Hc);
          rewrite Ha, Hb, Hc in H; cbn [bind] in H; discriminate
         |cbn [bind] in H; discriminate]).
  - intros [H|(root' & Hr & H)]; [contradiction|]. injection Hr as <-.
    destruct H as [H|[(items' & Hi & Hin)|H]].
    + exfalso. apply (H items). exact Htps.
    + rewrite Htps in Hi. injection Hi as <-. apply bind_None. left. apply mapM_None.
      destruct Hin as [Hin|Hin]; eexists; (split; [exact Hin|reflexivity]).
    + apply Hgates in H. apply bind_None.
      destruct (mapM turnpointOf items) as [out|]; [right|left; reflexivity].
      exists out. split; [reflexivity|]. rewrite H. reflexivity.
Qed.

(* --------------------------------------------------------------------- *)
(** ** Instances on concrete files                                        *)
(* --------------------------------------------------------------------- *)

(** X23, at a turnpoint written with radius 0: it is read with radius
    400. *)
Lemma turnpoint_defaults_witness :
  exists p,
    turnpointOf zeroRadiusTurnpoint = Some p
    /\ radius p = VNumber 400%float
    /\ truthy (radius p) = true
    /\ truthy (type p) = true
    /\ truthy (name p) = true.
Proof.
  eexists. split; [reflexivity|].
  destruct (turnpoint_defaults zeroRadiusTurnpoint _ eq_refl)
    as (Hr & Hrad & Ht & Hn & _).
  split; [exact (Hrad (VNumber 0%float) eq_refl)|]. auto.
Defined.

(** X24, at [smallTask]. *)
Lemma parsed_turnpoints_follow_file_witness :
  exists task taskRoot items,
    parseXCTaskValue smallTask = Some task
    /\ taskRootOf smallTask = Some taskRoot
    /\ get taskRoot "turnpoints" = Some (VArray items)
    /\ List.length (turnpoints task) = List.length items.
Proof.
  eexists.
  destruct (parsed_turnpoints_follow_file smallTask _ eq_refl)
    as (root & items & H1 & H2 & H3 & _).
  exists root, items. split; [reflexivity|]. auto.
Defined.

(** X25, at [wrappedTask]. *)
Lemma nested_task_is_unwrapped_witness :
  parseXCTaskValue wrappedTask = parseXCTaskValue smallTask.
Proof.
  apply (nested_task_is_unwrapped wrappedTask VUndefined smallTask
           (VString "CLASSIC")); reflexivity.
Defined.

(** X26, at [raceStartTask]: the gate is "12:30:00". *)
Lemma race_start_gives_time_gate_witness :
  startGatesOf raceStartTask
  = Some (VObject [("type", VString "RACE");
                   ("timeGates", VArray [VString "12:30:00"])]).
Proof.
  apply (race_start_gives_time_gate raceStartTask VUndefined
           (VObject [("raceStart", VString "2024-05-01T12:30:00Z")])
           "2024-05-01" "12:30:00"); reflexivity.
Defined.

End TaskFileProofs.

Module ArrowsProofs.

Import Arrows.
Local Open Scope Q_scope.

Lemma samplesOnSegment_step spacing currentDist segLen nextSample :
  nextSample < currentDist + segLen ->
  samplesOnSegment spacing currentDist segLen nextSample
  = ((nextSample - currentDist) / segLen
     :: fst (samplesOnSegment spacing currentDist segLen
               (nextSample + inject_Z (Zpos spacing))),
     snd (samplesOnSegment spacing currentDist segLen
            (nextSample + inject_Z (Zpos spacing)))).
Proof.
  intros H. rewrite samplesOnSegment_equation_1.
  destruct (Qlt_le_dec nextSample (currentDist + segLen)) as [Hlt|Hge].
  - reflexivity.
  - lra.
Qed.

Lemma samplesOnSegment_stop spacing currentDist segLen nextSample :
  currentDist + segLen <= nextSample ->
  samplesOnSegment spacing currentDist segLen nextSample = ([], nextSample).
Proof.
  intros H. rewrite samplesOnSegment_equation_1.
  destruct (Qlt_le_dec nextSample (currentDist + segLen)) as [Hlt|Hge].
  - lra.
  - reflexivity.
Qed.

(** The number [k] as a rational. *)
Lemma inject_nat_S k :
  inject_Z (Z.of_nat (S k)) == inject_Z (Z.of_nat k) + 1.
Proof. rewrite Nat2Z.inj_succ. unfold Z.succ. rewrite inject_Z_plus. reflexivity. Qed.

Lemma inject_nat_add a b :
  inject_Z (Z.of_nat (a + b)) == inject_Z (Z.of_nat a) + inject_Z (Z.of_nat b).
Proof. rewrite Nat2Z.inj_add, inject_Z_plus. reflexivity. Qed.

Lemma inject_nat_nonneg k : 0 <= inject_Z (Z.of_nat k).
Proof. change 0 with (inject_Z 0). rewrite <- Zle_Qle. lia. Qed.

Lemma spacing_positive (spacing : positive) : 0 < inject_Z (Zpos spacing).
Proof. change 0 with (inject_Z 0). rewrite <- Zlt_Qlt. lia. Qed.

Lemma remaining_decreases (spacing : positive) currentDist segLen nextSample :
  nextSample < currentDist + segLen ->
  (Z.to_nat (Qceiling (currentDist + segLen
                       - (nextSample + inject_Z (Zpos spacing))))
   < Z.to_nat (Qceiling (currentDist + segLen - nextSample)))%nat.
Proof.
  intros Hlt0.
  set (d := currentDist + segLen - nextSample).
  assert (0 < d) as Hd by (unfold d; lra).
  assert ((0 < Qceiling d)%Z) as Hpos
    by (rewrite Zlt_Qlt; eapply Qlt_le_trans; [exact Hd|apply Qle_ceiling]).
  assert ((Qceiling (currentDist + segLen
                     - (nextSample + inject_Z (Z.pos spacing)))
           < Qceiling d)%Z) as Hlt.
  { rewrite Zlt_Qlt.
    pose proof (Qceiling_lt (currentDist + segLen
                             - (nextSample + inject_Z (Z.pos spacing))))
      as H1.
    pose proof (Qle_ceiling d) as H2.
    assert (1 <= inject_Z (Z.pos spacing)) as Hsp
      by (unfold Qle, inject_Z; cbn; lia).
    unfold Z.sub in H1. rewrite inject_Z_plus in H1.
    change (inject_Z (- (1))%Z) with (-1 # 1) in H1.
    unfold d in *. lra. }
  lia.
Qed.

(** What the inner loop returns on a segment that starts at distance
    [currentDist], when the next sample is not behind that start. *)
Lemma samplesOnSegment_spec spacing currentDist segLen :
  forall m nextSample,
    (Z.to_nat (Qceiling (currentDist + segLen - nextSample)) <= m)%nat ->
    currentDist <= nextSample ->
    let r := samplesOnSegment spacing currentDist segLen nextSample in
    snd r == nextSample
             + inject_Z (Z.of_nat (List.length (fst r)))
               * inject_Z (Zpos spacing)
    /\ currentDist + segLen <= snd r
    /\ (forall k t, nth_error (fst r) k = Some t ->
          0 <= t /\ t < 1 /\ 0 < segLen
          /\ currentDist + t * segLen
             == nextSample + inject_Z (Z.of_nat k) * inject_Z (Zpos spacing))
    /\ (forall k, (k < List.length (fst r))%nat
                  <-> nextSample + inject_Z (Z.of_nat k) * inject_Z (Zpos spacing)
                      < currentDist + segLen).
Proof.
  pose proof (spacing_positive spacing) as Hsp.
  induction m as [|m IH]; intros nextSample Hm Hle r.
  - assert (currentDist + segLen <= nextSample) as Hstop.
    { destruct (Qlt_le_dec nextSample (currentDist + segLen)) as [Hlt|]; auto.
      pose proof (remaining_decreases spacing _ _ _ Hlt). lia. }
    unfold r. rewrite samplesOnSegment_stop by exact Hstop. cbn [fst snd].
    split; [cbn [List.length]; change (inject_Z (Z.of_nat 0)) with 0; ring|].
    split; [exact Hstop|]. split.
    + intros [|k] t H; discriminate H.
    + intros k. cbn [List.length]. split; [lia|].
      pose proof (inject_nat_nonneg k). nra.
  - destruct (Qlt_le_dec nextSample (currentDist + segLen)) as [Hlt|Hstop].
    + pose proof (remaining_decreases spacing _ _ _ Hlt) as Hdec.
      destruct (IH (nextSample + inject_Z (Zpos spacing)))
        as (Hnext & Hend & Hts & Hcount); [lia|lra|].
      unfold r. rewrite samplesOnSegment_step by exact Hlt. cbn [fst snd].
      set (r' := samplesOnSegment spacing currentDist segLen
                   (nextSample + inject_Z (Zpos spacing))) in *.
      assert (0 < segLen) as Hseg by lra.
      split; [|split; [exact Hend|split]].
      * cbn [List.length]. rewrite inject_nat_S. rewrite Hnext. ring.
      * intros [|k] t Hk.
        -- injection Hk as <-. split; [|split; [|split; [exact Hseg|]]].
           ++ apply Qle_shift_div_l; [exact Hseg|lra].
           ++ apply Qlt_shift_div_r; [exact Hseg|lra].
           ++ change (inject_Z (Z.of_nat 0)) with 0. field. lra.
        -- cbn [nth_error] in Hk. destruct (Hts k t Hk) as (H0 & H1 & _ & Heq).
           split; [exact H0|]. split; [exact H1|]. split; [exact Hseg|].
           rewrite Heq. rewrite inject_nat_S. ring.
      * intros [|k]; cbn [List.length].
        -- change (inject_Z (Z.of_nat 0)) with 0. split; [intros _; lra|lia].
        -- rewrite <- Nat.succ_lt_mono. rewrite Hcount.
           rewrite inject_nat_S. split; intros H; lra.
    + unfold r. rewrite samplesOnSegment_stop by exact Hstop. cbn [fst snd].
      split; [cbn [List.length]; change (inject_Z (Z.of_nat 0)) with 0; ring|].
    split; [exact Hstop|]. split.
      * intros [|k] t H; discriminate H.
      * intros k. cbn [List.length]. split; [lia|].
        pose proof (inject_nat_nonneg k). nra.
Qed.

Lemma totalLength_nonneg segLens :
  (forall s, In s segLens -> 0 <= s) -> 0 <= totalLength segLens.
Proof.
  induction segLens as [|s rest IH]; intros H; cbn; [lra|].
  pose proof (H s (or_introl eq_refl)).
  assert (0 <= totalLength rest) by (apply IH; intros; apply H; right; auto).
  unfold totalLength in *. lra.
Qed.

(** What the outer loop returns from segment [i] on. *)
Lemma sampleSegments_spec spacing :
  forall segLens i currentDist nextSample,
    (forall s, In s segLens -> 0 <= s) ->
    currentDist <= nextSample ->
    let arrows := sampleSegments spacing i currentDist nextSample segLens in
    (forall k a, nth_error arrows k = Some a ->
       lodSpacing a = spacing
       /\ (i <= segment a < i + List.length segLens)%nat
       /\ 0 <= lerpT a /\ lerpT a < 1
       /\ 0 < nth (segment a - i) segLens 0
       /\ currentDist + totalLength (firstn (segment a - i) segLens)
          + lerpT a * nth (segment a - i) segLens 0
          == nextSample + inject_Z (Z.of_nat k) * inject_Z (Zpos spacing))
    /\ (forall k, (k < List.length arrows)%nat
                  <-> nextSample + inject_Z (Z.of_nat k) * inject_Z (Zpos spacing)
                      < currentDist + totalLength segLens).
Proof.
  pose proof (spacing_positive spacing) as Hsp.
  induction segLens as [|segLen rest IH];
    intros i currentDist nextSample Hpos Hle arrows.
  - unfold arrows. cbn [sampleSegments]. split.
    + intros [|k] a H; discriminate H.
    + intros k. cbn. split; [lia|].
      pose proof (inject_nat_nonneg k). nra.
  - assert (0 <= segLen) as Hseg by (apply Hpos; left; reflexivity).
    assert (forall s, In s rest -> 0 <= s) as Hrest
      by (intros s Hs; apply Hpos; right; exact Hs).
    pose proof (totalLength_nonneg rest Hrest) as Htot.
    destruct (samplesOnSegment_spec spacing currentDist segLen _ nextSample
                (Nat.le_refl _) Hle) as (Hnext & Hend & Hts & Hcount).
    unfold arrows. cbn [sampleSegments]. cbv zeta.
    set (r := samplesOnSegment spacing currentDist segLen nextSample) in *.
    destruct (IH (S i) (currentDist + segLen) (snd r) Hrest Hend)
      as (Harrows & Hcount').
    set (rest_arrows := sampleSegments spacing (S i) (currentDist + segLen)
                          (snd r) rest) in *.
    split.
    + intros k a Hk.
      destruct (Nat.lt_ge_cases k (List.length (fst r))) as [Hlt|Hge].
      * rewrite nth_error_app1 in Hk by (rewrite length_map; exact Hlt).
        rewrite nth_error_map in Hk.
        destruct (nth_error (fst r) k) as [t|] eqn:Ht; [|discriminate Hk].
        injection Hk as <-. cbn [lodSpacing segment lerpT].
        destruct (Hts k t Ht) as (H0 & H1 & Hs & Heq).
        rewrite Nat.sub_diag. cbn [nth firstn totalLength fold_right List.length].
        split; [reflexivity|]. split; [lia|]. split; [exact H0|].
        split; [exact H1|]. split; [exact Hs|]. rewrite <- Heq. ring.
      * rewrite nth_error_app2 in Hk by (rewrite length_map; exact Hge).
        rewrite length_map in Hk.
        destruct (Harrows _ a Hk) as (Hl & Hi & H0 & H1 & Hs & Heq).
        assert (segment a - i = S (segment a - S i))%nat as Hidx by lia.
        rewrite Hidx. cbn [nth firstn List.length].
        split; [exact Hl|]. split; [lia|]. split; [exact H0|].
        split; [exact H1|]. split; [exact Hs|].
        change (totalLength (segLen :: firstn (segment a - S i) rest))
          with (segLen + totalLength (firstn (segment a - S i) rest)).
        replace k with (List.length (fst r) + (k - List.length (fst r)))%nat
          at 1 by lia.
        rewrite inject_nat_add.
        rewrite Hnext in Heq. lra.
    + intros k. rewrite length_app, length_map.
      change (totalLength (segLen :: rest)) with (segLen + totalLength rest).
      destruct (Nat.lt_ge_cases k (List.length (fst r))) as [Hlt|Hge].
      * split; [intros _|lia]. apply Hcount in Hlt. lra.
      * specialize (Hcount' (k - List.length (fst r))%nat).
        fold rest_arrows in Hcount'.
        assert (inject_Z (Z.of_nat k)
                == inject_Z (Z.of_nat (List.length (fst r)))
                   + inject_Z (Z.of_nat (k - List.length (fst r)))) as Hk.
        { rewrite <- inject_nat_add. f_equiv. f_equal. lia. }
        split.
        -- intros H. assert (k - List.length (fst r) < List.length rest_arrows)%nat
             as H' by lia.
           apply Hcount' in H'. rewrite Hk. rewrite Hnext in H'. lra.
        -- intros H. assert (k - List.length (fst r) < List.length rest_arrows)%nat;
             [|lia].
           apply Hcount'. rewrite Hk in H. rewrite Hnext. lra.
Qed.

Lemma segmentLengths_nonneg {P : Type} (distance : P -> P -> Q) path :
  (forall p q, 0 <= distance p q) ->
  forall s, In s (segmentLengths distance path) -> 0 <= s.
Proof.
  intros Hd s Hs. unfold segmentLengths in Hs.
  destruct path as [|p rest]; [contradiction|].
  apply in_map_iff in Hs. destruct Hs as ([a b] & <- & _). apply Hd.
Qed.

(** X28 -- every arrow drawn along the optimized path sits on a segment
    of the path that has a positive length, at a parameter [t] with
    [0 <= t < 1], and belongs to one of the four levels of detail; so the
    division by the segment length is never a division by zero.  The
    distances between the points of the path are taken not to be
    negative. *)
Theorem arrows_sit_on_segments {P : Type} (distance : P -> P -> Q) path a :
  (forall p q, 0 <= distance p q) ->
  In a (arrowInstances distance path) ->
  In (lodSpacing a) lods
  /\ (segment a < List.length (segmentLengths distance path))%nat
  /\ 0 <= lerpT a /\ lerpT a < 1
  /\ 0 < nth (segment a) (segmentLengths distance path) 0.
Proof.
  intros Hd Hin. unfold arrowInstances in Hin.
  apply in_flat_map in Hin. destruct Hin as (spacing & Hlod & Hin).
  apply In_nth_error in Hin. destruct Hin as (k & Hk).
  unfold arrowsOfLod in Hk.
  assert (0 <= inject_Z (Z.pos spacing) / 2) as Hstart
    by (pose proof (spacing_positive spacing);
        apply Qle_shift_div_l; lra).
  destruct (sampleSegments_spec spacing (segmentLengths distance path) 0 0 _
              (segmentLengths_nonneg distance path Hd) Hstart)
    as (Harrows & _).
  destruct (Harrows k a Hk) as (Hl & Hi & H0 & H1 & Hs & _).
  rewrite Nat.sub_0_r in Hs. rewrite Hl.
  split; [exact Hlod|]. split; [lia|]. auto.
Qed.

(** X29 -- within one level of detail the arrows are evenly spaced along
    the path: the k-th arrow (from 0) lies at distance
    [spacing / 2 + k * spacing] from the start, measured along the path,
    and there is an arrow for exactly those [k] for which that distance
    is less than the length of the path.  The lengths of the segments are
    taken not to be negative. *)
Theorem arrows_evenly_spaced spacing segLens :
  (forall s, In s segLens -> 0 <= s) ->
  (forall k a, nth_error (arrowsOfLod spacing segLens) k = Some a ->
     distanceAlong segLens a == sampleAt spacing k)
  /\ (forall k, (k < List.length (arrowsOfLod spacing segLens))%nat
                <-> sampleAt spacing k < totalLength segLens).
Proof.
  intros Hpos.
  assert (0 <= inject_Z (Z.pos spacing) / 2) as Hstart
    by (pose proof (spacing_positive spacing);
        apply Qle_shift_div_l; lra).
  destruct (sampleSegments_spec spacing segLens 0 0 _ Hpos Hstart)
    as (Harrows & Hcount).
  fold (arrowsOfLod spacing segLens) in Harrows, Hcount.
  split.
  - intros k a Hk.
    destruct (Harrows k a Hk) as (_ & _ & _ & _ & _ & Heq).
    rewrite Nat.sub_0_r in Heq. unfold distanceAlong, sampleAt.
    rewrite <- Heq. ring.
  - intros k. rewrite Hcount. unfold sampleAt. split; intros H; lra.
Qed.

(** X28, at [shortPathArrow]. *)
Lemma arrows_sit_on_segments_witness :
  In (lodSpacing shortPathArrow) lods
  /\ (segment shortPathArrow
      < List.length (segmentLengths lineDistance shortPath))%nat
  /\ 0 <= lerpT shortPathArrow /\ lerpT shortPathArrow < 1
  /\ 0 < nth (segment shortPathArrow)
             (segmentLengths lineDistance shortPath) 0.
Proof.
  apply (arrows_sit_on_segments lineDistance shortPath shortPathArrow).
  - intros p q. apply Qabs_nonneg.
  - unfold arrowInstances, lods. cbn [flat_map]. apply in_or_app. left.
    unfold arrowsOfLod, shortPath. cbn [segmentLengths combine map fst snd].
    cbn [sampleSegments]. cbv zeta.
    rewrite samplesOnSegment_step by (vm_compute; reflexivity).
    cbn [fst map]. apply in_or_app. left. left. reflexivity.
Defined.

(** X29, at one segment of 120 m and the finest level. *)
Lemma arrows_evenly_spaced_witness :
  (forall k a, nth_error (arrowsOfLod 100 [120 # 1]) k = Some a ->
     distanceAlong [120 # 1] a == sampleAt 100 k)
  /\ (forall k, (k < List.length (arrowsOfLod 100 [120 # 1]))%nat
                <-> sampleAt 100 k < totalLength [120 # 1]).
Proof.
  apply (arrows_evenly_spaced 100 [120 # 1]).
  intros s [<-|[]]. vm_compute. discriminate.
Defined.

End ArrowsProofs.
